(** * Libra backward analysis engine: a shallow embedding of
      [src/libra/engine/backward.py] and the properties of its
      partitioning, traversal, compression and bias-quantification code.

    Conventions of the embedding.
    - Python numbers that flow through [percent], [ranges] and the global
      counters are modelled as exact rationals in canonical form ([Qc], so that
      Python's equality by value is Leibniz equality); rounding of binary
      floating point is outside the model.
    - A Python [dict] is an insertion-ordered association list with unique
      keys ([dict_get], [dict_set], [dict_del] below); a Python [set] of
      hashable values is a [gset]; a set that is only iterated is the list
      of its elements in iteration order.
    - The numerical abstract domain, the forward pre-analysis, the CFG and
      the number of CPUs of the machine are external: they are parameters
      of the sections. *)

From Stdlib Require Import ZArith QArith Qcanon Lia Permutation Ascii.
From stdpp Require Import base gmap sets list strings numbers countable relations.

Local Open Scope nat_scope.

(** ** Exceptions

    A computation that can raise returns a [result]; the exceptions are the
    ones the engine's own statements can raise. *)

Inductive exn : Set :=
| IndexError | KeyError | ValueError | ZeroDivisionError | AssertionError.

Inductive result (A : Type) : Type :=
| Ok (a : A)
| Raise (e : exn).
Arguments Ok {A} a.
Arguments Raise {A} e.

#[global] Instance result_ret : MRet result := @Ok.
#[global] Instance result_bind : MBind result := fun A B f m =>
  match m with Ok a => f a | Raise e => Raise e end.

Definition is_Ok {A} (r : result A) : bool :=
  match r with Ok _ => true | Raise _ => false end.

(** [o] when present, the exception [e] otherwise. *)
Definition or_raise {A} (e : exn) (o : option A) : result A :=
  match o with Some a => Ok a | None => Raise e end.

(** [a / b] on Python numbers. *)
Definition pydiv (a b : Qc) : result Qc :=
  if decide (b = 0%Qc) then Raise ZeroDivisionError else Ok (a / b)%Qc.

(** Python's [min(a, b)] and [max(a, b)]: the first argument wins ties. *)
Definition pymin (a b : Qc) : Qc := if decide (b < a)%Qc then b else a.
Definition pymax (a b : Qc) : Qc := if decide (a < b)%Qc then b else a.

(** Truthiness of a list, a tuple or a set given as a list. *)
Definition truthy {A} (l : list A) : bool :=
  match l with [] => false | _ :: _ => true end.

(** ** Python dictionaries as insertion-ordered association lists *)

Section pydict.
Context {K V : Type} `{EqDecision K}.

(** [d.get(k)] *)
Fixpoint dict_get (k : K) (d : list (K * V)) : option V :=
  match d with
  | [] => None
  | (k', v') :: d' => if decide (k = k') then Some v' else dict_get k d'
  end.

(** [d[k] = v]: update in place when the key is present, append otherwise *)
Fixpoint dict_set (k : K) (v : V) (d : list (K * V)) : list (K * V) :=
  match d with
  | [] => [(k, v)]
  | (k', v') :: d' =>
      if decide (k = k') then (k', v) :: d' else (k', v') :: dict_set k v d'
  end.

(** [del d[k]] *)
Fixpoint dict_del (k : K) (d : list (K * V)) : list (K * V) :=
  match d with
  | [] => []
  | (k', v') :: d' =>
      if decide (k = k') then d' else (k', v') :: dict_del k d'
  end.

(** [dict(items)]: later bindings of a key override earlier ones. *)
Definition dict_of_items (items : list (K * V)) : list (K * V) :=
  fold_left (fun d kv => dict_set kv.1 kv.2 d) items [].

End pydict.

(** ** [sorted(items, key=..., reverse=...)]: Python's sort is stable, also
       with [reverse=True]; a stable insertion sort computes the same list. *)

Section sorted.
Context {A : Type} (key : A → nat).

Definition goes_before (reverse : bool) (x y : A) : bool :=
  if reverse then key y <=? key x else key x <=? key y.

Fixpoint sorted_insert (reverse : bool) (x : A) (l : list A) : list A :=
  match l with
  | [] => [x]
  | y :: l' =>
      if goes_before reverse x y then x :: y :: l'
      else y :: sorted_insert reverse x l'
  end.

Definition sorted (reverse : bool) (l : list A) : list A :=
  foldr (sorted_insert reverse) [] l.

End sorted.

(** ** Expressions ([libra.core.expressions]) *)

(** A variable identifier is its name. *)
Definition VariableIdentifier : Type := string.

Inductive ComparisonOperator : Set := LtE | Lt.
Inductive BooleanOperator : Set := And | Or.

Inductive Expression : Type :=
| Literal (val : string)
| Identifier (variable : VariableIdentifier)
| BinaryComparisonOperation (left : Expression) (operator : ComparisonOperator) (right : Expression)
| BinaryBooleanOperation (left : Expression) (operator : BooleanOperator) (right : Expression).

#[global] Instance ComparisonOperator_eq_dec : EqDecision ComparisonOperator.
Proof. solve_decision. Defined.
#[global] Instance BooleanOperator_eq_dec : EqDecision BooleanOperator.
Proof. solve_decision. Defined.
#[global] Instance Expression_eq_dec : EqDecision Expression.
Proof. solve_decision. Defined.

(** Expressions are hashable: an encoding into stdpp's generic trees. *)
Fixpoint Expression_to_tree (e : Expression) : gen_tree (string + bool) :=
  match e with
  | Literal val => GenNode 0 [GenLeaf (inl val)]
  | Identifier variable => GenNode 1 [GenLeaf (inl variable)]
  | BinaryComparisonOperation l op r =>
      GenNode 2 [Expression_to_tree l;
               GenLeaf (inr (if op is LtE then true else false));
               Expression_to_tree r]
  | BinaryBooleanOperation l op r =>
      GenNode 3 [Expression_to_tree l;
               GenLeaf (inr (if op is And then true else false));
               Expression_to_tree r]
  end.

Fixpoint Expression_of_tree (t : gen_tree (string + bool)) : option Expression :=
  match t with
  | GenNode 0 [GenLeaf (inl val)] => Some (Literal val)
  | GenNode 1 [GenLeaf (inl variable)] => Some (Identifier variable)
  | GenNode 2 [l; GenLeaf (inr b); r] =>
      l' ← Expression_of_tree l; r' ← Expression_of_tree r;
      Some (BinaryComparisonOperation l' (if b then LtE else Lt) r')
  | GenNode 3 [l; GenLeaf (inr b); r] =>
      l' ← Expression_of_tree l; r' ← Expression_of_tree r;
      Some (BinaryBooleanOperation l' (if b then And else Or) r')
  | _ => None
  end.

#[global] Program Instance Expression_countable : Countable Expression :=
  inj_countable Expression_to_tree Expression_of_tree _.
Next Obligation.
  intros e. induction e as [| |l IHl [] r IHr|l IHl [] r IHr]; simpl;
    rewrite ?IHl, ?IHr; reflexivity.
Qed.

(** [lo <= v and v <= hi], the conjunction the engine builds for every
    bound it assumes. *)
Definition between (lo : Expression) (v : VariableIdentifier) (hi : Expression) : Expression :=
  let lower := BinaryComparisonOperation lo LtE (Identifier v) in
  let upper := BinaryComparisonOperation (Identifier v) LtE hi in
  BinaryBooleanOperation lower And upper.

(** One-hot value for one feature, and for n features. *)
Definition OneHot1 : Type := VariableIdentifier * Expression.
Definition OneHotN : Type := list OneHot1.

(** The value built by one iteration [i] of the loop of [one_hots]. *)
Definition one_hot_value (variables : list VariableIdentifier) (i : nat)
    (variable : VariableIdentifier) : Expression :=
  let one := Literal "1" in
  let value := between one variable one in
  let zero := Literal "0" in
  let value :=
    fold_left (fun value vj => BinaryBooleanOperation (between zero vj zero) And value)
      (take i variables) value in
  fold_left (fun value vj => BinaryBooleanOperation value And (between zero vj zero))
    (drop (S i) variables) value.

(** [one_hots(variables)] (lines 41-70).  The source returns a Python
    set; its elements are listed here in the order they are added. *)
Definition one_hots (variables : list VariableIdentifier) : list OneHot1 :=
  imap (fun i variable => (variable, one_hot_value variables i variable)) variables.

(** The literals of an expression, from left to right. *)
Fixpoint literals (e : Expression) : list string :=
  match e with
  | Literal val => [val]
  | Identifier _ => []
  | BinaryComparisonOperation l _ r => literals l ++ literals r
  | BinaryBooleanOperation l _ r => literals l ++ literals r
  end.

(** The comparisons a conjunction is made of, from left to right. *)
Fixpoint comparisons (e : Expression) : list Expression :=
  match e with
  | BinaryBooleanOperation l And r => comparisons l ++ comparisons r
  | _ => [e]
  end.

(** The two comparisons of [between (Literal val) v (Literal val)]: they
    fix the variable [v] to the number [val]. *)
Definition fixed (val : string) (v : VariableIdentifier) : list Expression :=
  [BinaryComparisonOperation (Literal val) LtE (Identifier v);
   BinaryComparisonOperation (Identifier v) LtE (Literal val)].

(** The two comparisons of [between (Literal "0") v (Literal "1")]. *)
Definition unit_bounds (v : VariableIdentifier) : list Expression :=
  [BinaryComparisonOperation (Literal "0") LtE (Identifier v);
   BinaryComparisonOperation (Identifier v) LtE (Literal "1")].

(** ** External collaborators

    The numerical abstract domains (apronpy and the Libra state classes),
    the forward pre-analysis, Python's [str] on numbers and the machine
    the engine runs on are not part of the engine; they are interfaces
    here. *)

(** [str(x)] for a number [x]. *)
Class PyStr := str : Qc → string.

(** [multiprocessing.cpu_count()], the number of CPUs of the machine. *)
Class Machine := { cpu_count : nat }.

(** Apron tree expressions and constraints, as far as the engine builds them. *)
Inductive TexprOp : Set := AP_TEXPR_ADD | AP_TEXPR_SUB | AP_TEXPR_MUL | AP_TEXPR_DIV.
Inductive TexprRtype : Set := AP_RTYPE_REAL.
Inductive TexprRdir : Set := AP_RDIR_RND.
Inductive ConsTyp : Set := AP_CONS_EQ | AP_CONS_SUPEQ | AP_CONS_SUP.

Inductive PyTexpr1 : Type :=
| PyTexpr1_var (name : VariableIdentifier)
| PyTexpr1_cst (coeff : Qc)
| PyTexpr1_binop (op : TexprOp) (l r : PyTexpr1) (rtype : TexprRtype) (rdir : TexprRdir).

(** [PyTcons1.make(expr, typ)]: the constraint [expr typ 0]. *)
Definition PyTcons1 : Type := PyTexpr1 * ConsTyp.

Definition rtype : TexprRtype := AP_RTYPE_REAL.
Definition rdir : TexprRdir := AP_RDIR_RND.

(** The forward (pre-analysis) side: states of the interval domain and the
    precursory interpreter.  [precursory_analyze state earlystop f_active
    f_inactive] is [self.precursory.analyze(state, earlystop=...,
    forced_active=..., forced_inactive=...)]; [earlystop] is [None] in a
    call that leaves the keyword out.  It returns the activation nodes
    found always active and always inactive. *)
Class Precursory (Node FState : Type) `{Countable Node} := {
  fwd_assume : FState → Expression → FState;
  precursory_analyze :
    FState → option bool → option (gset Node) → option (gset Node)
    → gset Node * gset Node;
}.

(** The backward side: [BiasState] with the operations the engine calls.
    Every operation is used on a deep copy or on a state the caller owns,
    so the states are values here.  [polka_substitute s v e] is
    [s.polka = s.polka.substitute(v, e)], [polka_meet_tcons s c] is
    [s.polka = s.polka.meet(PyPolka(manager, s.environment,
    array=PyTcons1Array([c])))], [polka_repr s] is [repr(s.polka)] and
    [polka_bound_variable s v] the pair of bounds of
    [s.polka.bound_variable(PyVar(v))]. *)
Class BiasDomain (FState BState : Type) := {
  state_precursory : BState → FState;
  state_assume : BState → Expression → BState;
  state_meet : BState → BState → BState;
  state_join : BState → BState → BState;
  state_forget : BState → list VariableIdentifier → BState;
  state_is_bottom : BState → bool;
  polka_substitute : BState → VariableIdentifier → PyTexpr1 → BState;
  polka_meet_tcons : BState → PyTcons1 → BState;
  polka_repr : BState → string;
  polka_bound_variable : BState → VariableIdentifier → Qc * Qc;
}.

(** An abstract activation pattern: per sensitive value, the sets of
    always-active and always-inactive activation nodes. *)
Abbreviation Pattern Node := (list (gset Node * gset Node)).

(** ** The interpreter object

    The attributes of [BackwardInterpreter] (lines 76-103) that are fixed
    once [analyze] has read the specification. *)
Record BackwardInterpreter {Node BState : Type} `{Countable Node} := {
  widening : Z;
  difference : Qc;
  _initial : BState;
  sensitive : list VariableIdentifier;
  values : list OneHot1;
  uncontroversial1 : list (list VariableIdentifier);
  uncontroversial2 : list VariableIdentifier;
  bounds : Expression;
  outputs : gset VariableIdentifier;
  activations : gset Node;
  count : nat;
}.
Arguments BackwardInterpreter Node BState {_ _}.

(** ** [feasibility] (lines 113-136) *)

Section feasibility.
Context {Node FState BState : Type} `{Countable Node}.
Context `{!Precursory Node FState}.
Context (self : BackwardInterpreter Node BState).

(** [key[idx][0] if key else None] and [key[idx][1] if key else None] *)
Definition forced (key : option (Pattern Node)) (idx : nat)
    : result (option (gset Node) * option (gset Node)) :=
  match key with
  | Some ((_ :: _) as k) =>
      entry ← or_raise IndexError (k !! idx);
      Ok (Some entry.1, Some entry.2)
  | _ => Ok (None, None)
  end.

(** The number of disjunctions left by an analysis result. *)
Definition disjunctions_of (r : gset Node * gset Node) : Z :=
  (Z.of_nat (size (activations self)) - Z.of_nat (size r.1) - Z.of_nat (size r.2))%Z.

(** The loop of [feasibility] over [enumerate(self.values)]; [todo] is
    the part of the enumeration still ahead. *)
Fixpoint feasibility_loop (state : FState) (key : option (Pattern Node)) (do : bool)
    (todo : list (nat * OneHot1))
    (feasible : bool) (patterns : list (OneHot1 * gset Node * gset Node))
    (disjunctions : Z)
    : result (bool * list (OneHot1 * gset Node * gset Node) * Z) :=
  match todo with
  | [] => Ok (feasible, patterns, disjunctions)
  | (idx, value) :: todo' =>
      let result := fwd_assume state value.2 in
      f ← forced key idx;
      let r := precursory_analyze result None f.1 f.2 in
      let disjunctions := disjunctions_of r in
      if (widening self <? disjunctions)%Z then
        if negb do then Ok (false, patterns, disjunctions)
        else feasibility_loop state key do todo' false
               (patterns ++ [(value, r.1, r.2)]) disjunctions
      else feasibility_loop state key do todo' feasible
             (patterns ++ [(value, r.1, r.2)]) disjunctions
  end.

Definition enumerate {A} (l : list A) : list (nat * A) := imap pair l.

Definition feasibility (state : FState) (key : option (Pattern Node)) (do : bool)
    : result (bool * list (OneHot1 * gset Node * gset Node) * Z) :=
  feasibility_loop state key do (enumerate (values self))
    true [] (Z.of_nat (size (activations self))).

(** The forced sets of the sensitive value at position [idx], for a key
    that is absent, empty, or has an entry at [idx]. *)
Definition forced_sets (key : option (Pattern Node)) (idx : nat)
    : option (gset Node) * option (gset Node) :=
  match key ≫= (.!! idx) with
  | Some entry => (Some entry.1, Some entry.2)
  | None => (None, None)
  end.

(** The result of the pre-analysis for the sensitive value [value] at
    position [idx], the pattern it contributes and its number [d] of
    disjunctions: [|activations| - |active| - |inactive|]. *)
Definition analysis_at (state : FState) (key : option (Pattern Node))
    (idx : nat) (value : OneHot1) : gset Node * gset Node :=
  precursory_analyze (fwd_assume state value.2) None
    (forced_sets key idx).1 (forced_sets key idx).2.

Definition pattern_at (state : FState) (key : option (Pattern Node))
    (idx : nat) (value : OneHot1) : OneHot1 * gset Node * gset Node :=
  (value, (analysis_at state key idx value).1, (analysis_at state key idx value).2).

Definition d_at (state : FState) (key : option (Pattern Node))
    (idx : nat) (value : OneHot1) : Z :=
  (Z.of_nat (size (activations self))
   - Z.of_nat (size (analysis_at state key idx value).1)
   - Z.of_nat (size (analysis_at state key idx value).2))%Z.

(** A key, when given, is empty or has an entry for every sensitive
    value (the keys of the engine have exactly one entry per sensitive
    value). *)
Definition key_fits (key : option (Pattern Node)) : Prop :=
  ∀ k, key = Some k → k = [] ∨ length (values self) ≤ length k.
End feasibility.

(** ** Worker 1: the partition state machine ([producer], [consumer],
       [packing] and [worker1], lines 138-320) *)

(** A chunk as recorded in [self.patterns]:
    [(frozenset(assumptions), frozenset(unpacked), frozenset(ranges), percent)]. *)
Definition Chunk : Type :=
  gset (gset VariableIdentifier * Expression) * gset (gset OneHot1)
  * gset (VariableIdentifier * (Qc * Qc)) * Qc.

(** An element of [queue1]. *)
Record Task {Node : Type} `{Countable Node} := {
  assumptions : list (gset VariableIdentifier * Expression);
  pivot1 : nat;
  unpacked : gset (gset OneHot1);
  ranges : list (VariableIdentifier * (Qc * Qc));
  pivot2 : nat;
  splittable : list VariableIdentifier;
  percent : Qc;
  key : option (Pattern Node);
}.
Arguments Task Node {_ _}.

(** [NoMoreChunks] is the tuple of eight [None]. *)
Inductive QItem {Node : Type} `{Countable Node} : Type :=
| Partition (task : Task Node)
| NoMoreChunks.
Arguments QItem Node {_ _}.

(** The state shared by the worker processes during the pre-analysis. *)
Record Shared {Node : Type} `{Countable Node} := {
  queue1 : list (QItem Node);
  packs : list (Pattern Node * gset OneHotN);
  patterns : list (Pattern Node * gset Chunk);
  partitions : nat;
  feasible : Qc;
  explored : Qc;
}.
Arguments Shared Node {_ _}.

(** [l.remove(x)]: the first occurrence goes, [None] stands for [ValueError]. *)
Fixpoint list_remove_first {A} `{EqDecision A} (x : A) (l : list A) : option (list A) :=
  match l with
  | [] => None
  | y :: l' => if decide (y = x) then Some l' else (y ::.) <$> list_remove_first x l'
  end.

(** A left fold whose body can raise. *)
Fixpoint foldlM {A B} (f : B → A → result B) (l : list A) (b : B) : result B :=
  match l with
  | [] => Ok b
  | a :: l' => b' ← f b a; foldlM f l' b'
  end.

(** [itertools.product] of the lists [ls] *)
Fixpoint product {A} (ls : list (list A)) : list (list A) :=
  match ls with
  | [] => [[]]
  | l :: ls' => x ← l; (x ::.) <$> product ls'
  end.

Definition Qc_of_nat (n : nat) : Qc := Qc_of_Z (Z.of_nat n).

Section worker1.
Context {Node FState BState : Type} `{Countable Node}.
Context `{!Precursory Node FState} `{!BiasDomain FState BState} `{!PyStr} `{machine : !Machine}.
Context (self : BackwardInterpreter Node BState).

Definition put (item : QItem Node) (sh : Shared Node) : Shared Node :=
  {| queue1 := queue1 sh ++ [item]; packs := packs sh; patterns := patterns sh;
     partitions := partitions sh; feasible := feasible sh; explored := explored sh |}.

(** [self.explored.value += percent], then the sentinel when 100 is reached. *)
Definition add_explored (p : Qc) (sh : Shared Node) : Shared Node :=
  let sh' :=
    {| queue1 := queue1 sh; packs := packs sh; patterns := patterns sh;
       partitions := partitions sh; feasible := feasible sh;
       explored := (explored sh + p)%Qc |} in
  if decide (Qc_of_Z 100 ≤ explored sh')%Qc then put NoMoreChunks sh' else sh'.

(** [producer]: all combinations of one-hots, in the order they are put. *)
Definition producer : list OneHotN :=
  product (one_hots <$> uncontroversial1 self).

(** The key a [consumer] computes for one combination. *)
Definition consumer_key (entry : FState) (one_hot : OneHotN) : Pattern Node :=
  let result1 := fold_left (fun r item => fwd_assume r item.2) one_hot entry in
  (fun value => precursory_analyze (fwd_assume result1 value.2) (Some false) None None)
    <$> values self.

(** The update of [self.packs] a [consumer] makes under the lock. *)
Definition consumer_put (entry : FState) (packs0 : list (Pattern Node * gset OneHotN))
    (one_hot : OneHotN) : list (Pattern Node * gset OneHotN) :=
  let _key := consumer_key entry one_hot in
  let curr := default ∅ (dict_get _key packs0) in
  dict_set _key (curr ∪ {[one_hot]}) packs0.

(** [sum(len(pack) for pack in packs.values())] *)
Definition sizes (d : list (Pattern Node * gset OneHotN)) : nat :=
  sum_list ((fun kp => size kp.2) <$> d).

(** [self.packs] once the producer and the [cpu_count() - 1] consumers
    that [packing] starts have ended.  With a consumer every combination
    is consumed: the updates are taken in the producer's order (with
    several consumers they can come in another order; the packs are the
    same, their order in the dictionary can differ).  Without one (a
    machine with one CPU, [range(0)]) the combinations stay in [queue3]
    and [self.packs] is left as it is. *)
Definition consumers : nat := cpu_count - 1.

Definition consumed (entry : FState) (packs0 : list (Pattern Node * gset OneHotN))
    : list (Pattern Node * gset OneHotN) :=
  if decide (consumers = 0) then packs0
  else fold_left (consumer_put entry) producer packs0.

(** [packing]: the processes run to their end, then
    [assert self.count == _count]. *)
Definition packing (entry : FState) (packs0 : list (Pattern Node * gset OneHotN))
    : result (list (Pattern Node * gset OneHotN)) :=
  let packs' := consumed entry packs0 in
  let _count := sizes packs' in
  if decide (count self = _count) then Ok packs' else Raise AssertionError.

Definition score (k : Pattern Node) : nat :=
  sum_list ((fun s => size s.1 + size s.2) <$> k).

Definition rank (v : Pattern Node * gset OneHotN) : nat := score v.1 + size v.2.

(** The assumption appended for feature position [i] of a pack. *)
Definition pack_assumption (items : list OneHotN) (i : nat)
    : result (gset VariableIdentifier * Expression) :=
  first ← or_raise IndexError (items !! 0);
  vc ← or_raise IndexError (first !! i);
  foldlM (fun acc item =>
            vn ← or_raise IndexError (item !! i);
            Ok (acc.1 ∪ {[vn.1]}, BinaryBooleanOperation acc.2 Or vn.2))
    (drop 1 items) ({[vc.1]}, vc.2).

(** The task posted for one pack by the 1-hot split. *)
Definition pack_task (t : Task Node) (item : Pattern Node * gset OneHotN)
    : result (Task Node) :=
  let '(key', pack) := item in
  let items := elements pack in
  first ← or_raise IndexError (items !! 0);
  extra ← mapM (pack_assumption items) (seq 0 (length first));
  let _assumptions := assumptions t ++ extra in
  let _unpacked : gset (gset OneHot1) := list_to_set (list_to_set <$> items) in
  let _pivot1 := length (uncontroversial1 self) in
  _percent ← pydiv (percent t * Qc_of_nat (size pack)) (Qc_of_nat (count self));
  Ok {| assumptions := _assumptions; pivot1 := _pivot1; unpacked := _unpacked;
        ranges := ranges t; pivot2 := pivot2 t; splittable := splittable t;
        percent := _percent; key := Some key' |}.

(** The entry state of a chunk. *)
Definition chunk_entry (t : Task Node) : FState :=
  let bounds' :=
    fold_left (fun b r =>
                 let '(feature, (lower, upper)) := r in
                 BinaryBooleanOperation b And
                   (between (Literal (str lower)) feature (Literal (str upper))))
      (ranges t) (bounds self) in
  let entry := fwd_assume (state_precursory (_initial self)) bounds' in
  fold_left (fun e a => fwd_assume e a.2) (assumptions t) entry.

Definition with_ranges_pivot2_percent (t : Task Node)
    (ranges' : list (VariableIdentifier * (Qc * Qc))) (pivot2' : nat)
    (splittable' : list VariableIdentifier) (percent' : Qc) : Task Node :=
  {| assumptions := assumptions t; pivot1 := pivot1 t; unpacked := unpacked t;
     ranges := ranges'; pivot2 := pivot2'; splittable := splittable';
     percent := percent'; key := None |}.

(** The chunk recorded for a feasible task:
    [(frozenset(assumptions), frozenset(unpacked), frozenset(ranges), percent)] *)
Definition chunk_of (t : Task Node) : Chunk :=
  (list_to_set (assumptions t), unpacked t, list_to_set (ranges t), percent t).

(** One iteration of the loop of [worker1] on a chunk taken from the queue. *)
Definition worker1_chunk (t : Task Node) (sh : Shared Node) : result (Shared Node) :=
  let entry := chunk_entry t in
  feasibility' ← feasibility self entry (key t) false;
  let '(feasible', patterns', _) := feasibility' in
  if feasible' : bool then
    let sh :=
      {| queue1 := queue1 sh; packs := packs sh; patterns := patterns sh;
         partitions := S (partitions sh);
         feasible := (feasible sh + percent t)%Qc; explored := explored sh |} in
    let sh := add_explored (percent t) sh in
    let _key : Pattern Node := (fun p => (p.1.2, p.2)) <$> patterns' in
    let value := chunk_of t in
    let curr := default ∅ (dict_get _key (patterns sh)) in
    Ok {| queue1 := queue1 sh; packs := packs sh;
          patterns := dict_set _key (curr ∪ {[value]}) (patterns sh);
          partitions := partitions sh; feasible := feasible sh;
          explored := explored sh |}
  else if pivot1 t <? length (uncontroversial1 self) then
    packs' ← packing entry (packs sh);
    tasks ← mapM (pack_task t) (sorted rank true packs');
    Ok {| queue1 := queue1 sh ++ (Partition <$> tasks); packs := packs';
          patterns := patterns sh; partitions := partitions sh;
          feasible := feasible sh; explored := explored sh |}
  else if truthy (uncontroversial2 self) && truthy (splittable t) then
    let rangesdict := dict_of_items (ranges t) in
    f ← or_raise IndexError (uncontroversial2 self !! pivot2 t);
    lu ← or_raise KeyError (dict_get f rangesdict);
    let '(lower, upper) := lu in
    if decide (upper - lower ≤ difference self)%Qc then
      _splittable ← or_raise ValueError (list_remove_first f (splittable t));
      let _pivot2 := (pivot2 t + 1) mod length (uncontroversial2 self) in
      Ok (put (Partition
                 (with_ranges_pivot2_percent t (ranges t) _pivot2 _splittable (percent t)))
            sh)
    else
      let middle := (lower + (upper - lower) / 2)%Qc in
      let left := dict_set f (lower, middle) rangesdict in
      let right := dict_set f (middle, upper) rangesdict in
      let _pivot2 := (pivot2 t + 1) mod length (uncontroversial2 self) in
      let _percent := (percent t / 2)%Qc in
      Ok (put (Partition
                 (with_ranges_pivot2_percent t right _pivot2 (splittable t) _percent))
            (put (Partition
                    (with_ranges_pivot2_percent t left _pivot2 (splittable t) _percent))
               sh))
  else Ok (add_explored (percent t) sh).

(** What a worker does with the item it got: the sentinel is put back and
    the worker leaves its loop; a chunk is processed. *)
Definition worker1_item (item : QItem Node) (sh : Shared Node) : result (Shared Node) :=
  match item with
  | NoMoreChunks => Ok (put NoMoreChunks sh)
  | Partition t => worker1_chunk t sh
  end.

(** One iteration of some worker, taken as one step: the item it holds
    leaves the queue and the effects of its iteration are applied.  With
    several workers the item processed need not be the oldest one listed
    (older ones can be held by workers still busy), so it is taken at any
    position. *)
Inductive worker1_step : Shared Node → Shared Node → Prop :=
| worker1_get before item rest sh sh' :
    queue1 sh = before ++ item :: rest →
    worker1_item item
      {| queue1 := before ++ rest; packs := packs sh; patterns := patterns sh;
         partitions := partitions sh; feasible := feasible sh;
         explored := explored sh |} = Ok sh' →
    worker1_step sh sh'.

(** [queue1] as [analyze] prepares it, with the shared counters at zero. *)
Definition initial_task (ranges0 : list (VariableIdentifier * (Qc * Qc))) : Task Node :=
  {| assumptions := []; pivot1 := 0; unpacked := ∅; ranges := ranges0; pivot2 := 0;
     splittable := uncontroversial2 self; percent := Qc_of_Z 100; key := None |}.

Definition initial_ranges : list (VariableIdentifier * (Qc * Qc)) :=
  fold_left (fun d uncontroversial => dict_set uncontroversial (0, 1)%Qc d)
    (uncontroversial2 self) [].

Definition initial_shared : Shared Node :=
  {| queue1 := [Partition (initial_task initial_ranges)]; packs := []; patterns := [];
     partitions := 0; feasible := 0%Qc; explored := 0%Qc |}.

(** *** Bookkeeping of the percents *)

Definition Qc_sum (l : list Qc) : Qc := foldr Qcplus 0%Qc l.

(** The percent still waiting in the queue. *)
Definition item_percent (item : QItem Node) : Qc :=
  match item with Partition t => percent t | NoMoreChunks => 0%Qc end.

Definition pending (sh : Shared Node) : Qc := Qc_sum (item_percent <$> queue1 sh).

(** The percent a chunk contributes to the chunks recorded as feasible
    (the branch [if feasible]) and to the abandoned ones (the last
    [else] branch), when it is processed. *)
Definition recorded_by (t : Task Node) : list Qc :=
  match feasibility self (chunk_entry t) (key t) false with
  | Ok (true, _, _) => [percent t]
  | _ => []
  end.

Definition abandoned_by (t : Task Node) : list Qc :=
  match feasibility self (chunk_entry t) (key t) false with
  | Ok (false, _, _) =>
      if pivot1 t <? length (uncontroversial1 self) then []
      else if truthy (uncontroversial2 self) && truthy (splittable t) then []
      else [percent t]
  | _ => []
  end.

(** The executions of the pre-analysis from the state [analyze] prepares,
    with the percents recorded as feasible and the percents abandoned so
    far.  Their iterations are the ones that come to their end: an
    iteration that raises would end its worker with the chunk it holds. *)
Inductive worker1_run : Shared Node → list Qc → list Qc → Prop :=
| run_start : worker1_run initial_shared [] []
| run_chunk sh sh' recorded abandoned before t rest :
    worker1_run sh recorded abandoned →
    queue1 sh = before ++ Partition t :: rest →
    worker1_chunk t
      {| queue1 := before ++ rest; packs := packs sh; patterns := patterns sh;
         partitions := partitions sh; feasible := feasible sh;
         explored := explored sh |} = Ok sh' →
    worker1_run sh' (recorded ++ recorded_by t) (abandoned ++ abandoned_by t)
| run_sentinel sh recorded abandoned before rest :
    worker1_run sh recorded abandoned →
    queue1 sh = before ++ NoMoreChunks :: rest →
    worker1_run
      (put NoMoreChunks
         {| queue1 := before ++ rest; packs := packs sh; patterns := patterns sh;
            partitions := partitions sh; feasible := feasible sh;
            explored := explored sh |})
      recorded abandoned.

(** What [analyze] guarantees of the attributes it sets: [count] is the
    product of the arities of the one-hot encoded features, and the custom
    encoded features come from a set.  The one-hot encoded features all
    have a variable when [count] is not zero. *)
Definition interp_wf : Prop :=
  count self = fold_left Nat.mul (length <$> uncontroversial1 self) 1
  ∧ count self ≠ 0
  ∧ NoDup (uncontroversial2 self).

(** The chunks of the queue. *)
Definition queued_tasks (sh : Shared Node) : list (Task Node) :=
  omap (fun item => match item with Partition t => Some t | NoMoreChunks => None end)
    (queue1 sh).

(** *** The shape of the chunks of an execution

    The ranges of a chunk list the custom encoded features in the order
    of [self.uncontroversial2], and the round-robin keeps their widths in
    step, around a positive width [W]: either no feature was found too
    narrow so far, the features before the pivot have been halved once
    more than the others, and (past the first pivot) the common width [W]
    was wide enough to split; or all features have the same width [W],
    too narrow to split, and the features before position [k] have left
    [splittable]. *)
Definition width (b : Qc * Qc) : Qc := (b.2 - b.1)%Qc.

Definition task_wf (t : Task Node) : Prop :=
  let n := length (uncontroversial2 self) in
  (ranges t).*1 = uncontroversial2 self
  ∧ (n = 0 ∨ pivot2 t < n)
  ∧ ∃ W : Qc,
      (0 < W)%Qc
      ∧ ((splittable t = uncontroversial2 self
          ∧ (∀ j b, j < pivot2 t → (ranges t).*2 !! j = Some b → width b = (W / 2)%Qc)
          ∧ (∀ j b, pivot2 t ≤ j → (ranges t).*2 !! j = Some b → width b = W)
          ∧ (0 < pivot2 t → ¬ (W ≤ difference self)%Qc))
         ∨ (∃ k, 0 < k ∧ k ≤ n
                 ∧ splittable t = drop k (uncontroversial2 self)
                 ∧ pivot2 t = k mod n
                 ∧ (∀ j b, (ranges t).*2 !! j = Some b → width b = W)
                 ∧ (W ≤ difference self)%Qc)).

(** *** Invariants of the packs and of the chunks *)

(** The dictionary of packs while the combinations [seen] have been
    consumed: a pack holds the combinations seen so far that have its key. *)
Definition packs_inv (entry : FState) (d : list (Pattern Node * gset OneHotN))
    (seen : list OneHotN) : Prop :=
  NoDup d.*1
  ∧ (∀ k pack, (k, pack) ∈ d →
       pack ≠ ∅ ∧ ∀ x, x ∈ pack ↔ x ∈ seen ∧ consumer_key entry x = k)
  ∧ (∀ x, x ∈ seen → consumer_key entry x ∈ d.*1).

(** A range inside the unit interval. *)
Definition range_ok (b : Qc * Qc) : Prop := (0 ≤ b.1)%Qc ∧ (b.1 < b.2)%Qc ∧ (b.2 ≤ 1)%Qc.

(** A chunk with a percent in (0, 100] and ranges inside the unit interval. *)
Definition chunk_ok (t : Task Node) : Prop :=
  (0 < percent t)%Qc ∧ (percent t ≤ Qc_of_Z 100)%Qc
  ∧ Forall (λ r, range_ok r.2) (ranges t).
End worker1.

(** ** [bias_check] (lines 322-379) *)

Section bias_check.
Context {Node FState BState : Type} `{Countable Node}.
Context `{!BiasDomain FState BState} `{!PyStr}.
Context (self : BackwardInterpreter Node BState).

(** The loop variables [nobias], [biases] and [b_ranges]. *)
Record BiasScan := {
  nobias : bool;
  biases : gset string;
  b_ranges : list (VariableIdentifier * (Qc * Qc));
}.

(** The state inspected for a pair of states: their meet, with the
    one-hot encoded features forgotten and the ranges assumed again. *)
Definition intersection_of (ranges0 : list (VariableIdentifier * (Qc * Qc)))
    (val1 val2 : BState) : BState :=
  let intersection := state_meet val1 val2 in
  let intersection := fold_left state_forget (uncontroversial1 self) intersection in
  fold_left (fun x r =>
               let '(feature, (lower, upper)) := r in
               state_assume x (between (Literal (str lower)) feature (Literal (str upper))))
    ranges0 intersection.

(** [not representation.startswith('-1.0 >= 0') and not representation == '⊥'] *)
Definition is_bias (representation : string) : bool :=
  negb (String.prefix "-1.0 >= 0" representation)
  && negb (bool_decide (representation = "⊥")).

(** The update of [b_ranges] for one custom encoded feature. *)
Definition widen_b_ranges (intersection : BState)
    (b : list (VariableIdentifier * (Qc * Qc))) (uncontroversial : VariableIdentifier)
    : list (VariableIdentifier * (Qc * Qc)) :=
  let '(lower, upper) := polka_bound_variable intersection uncontroversial in
  match dict_get uncontroversial b with
  | Some (inf, sup) => dict_set uncontroversial (pymin lower inf, pymax upper sup) b
  | None => dict_set uncontroversial (lower, upper) b
  end.

(** The body of the two innermost loops, for [val1] and [val2]. *)
Definition check_states (ranges0 : list (VariableIdentifier * (Qc * Qc)))
    (st : BiasScan) (vals : BState * BState) : BiasScan :=
  let intersection := intersection_of ranges0 vals.1 vals.2 in
  let representation := polka_repr intersection in
  if is_bias representation then
    if decide (representation ∈ biases st) then
      {| nobias := false; biases := biases st; b_ranges := b_ranges st |}
    else
      {| nobias := false;
         biases := biases st ∪ {[representation]};
         b_ranges := fold_left (widen_b_ranges intersection) (uncontroversial2 self)
                       (b_ranges st) |}
  else st.

(** [list(result.items())], for the dictionary [result] from pairs
    (output class, sensitive value) to sets of states. *)
Local Abbreviation CheckItems :=
  (list ((VariableIdentifier * VariableIdentifier) * list BState)).

(** The body of [for j in range(i+1, len(items))]. *)
Definition check_pair (ranges0 : list (VariableIdentifier * (Qc * Qc)))
    (items : CheckItems) (i : nat) (st : BiasScan) (j : nat) : BiasScan :=
  match items !! i, items !! j with
  | Some ((outcome1, sensitive1), value1), Some ((outcome2, sensitive2), value2) =>
      if bool_decide (outcome1 ≠ outcome2) && bool_decide (sensitive1 ≠ sensitive2) then
        fold_left
          (fun st val1 =>
             fold_left (fun st val2 => check_states ranges0 st (val1, val2)) value2 st)
          value1 st
      else st
  | _, _ => st
  end.

(** The scan of all pairs. *)
Definition bias_scan (ranges0 : list (VariableIdentifier * (Qc * Qc)))
    (items : CheckItems) : BiasScan :=
  fold_left
    (fun st i =>
       fold_left (check_pair ranges0 items i) (seq (i + 1) (length items - (i + 1))) st)
    (seq 0 (length items))
    {| nobias := true; biases := ∅; b_ranges := [] |}.

Definition total_size (ranges0 : list (VariableIdentifier * (Qc * Qc))) : Qc :=
  fold_left (fun t r => let '(_, (lower, upper)) := r in (t * (upper - lower))%Qc)
    ranges0 1%Qc.

Definition biased_size (b : list (VariableIdentifier * (Qc * Qc))) : Qc :=
  fold_left (fun t r => let '(lower, upper) := r in (t * (upper - lower))%Qc)
    b.*2 1%Qc.

(** [bias_check]: the new value of [self.biased], given its current one.
    [chunk] is only printed; [result0] is [list(result.items())]. *)
Definition bias_check (chunk : string) (result0 : CheckItems)
    (ranges0 : list (VariableIdentifier * (Qc * Qc))) (percent0 : Qc) (biased : Qc)
    : result Qc :=
  let st := bias_scan ranges0 result0 in
  if nobias st then Ok biased
  else
    _percent ← pydiv (percent0 * biased_size (b_ranges st)) (total_size ranges0);
    Ok (biased + _percent)%Qc.

(** The pairs of states the specification asks to examine: [val1] from
    entry [i] and [val2] from entry [j] of the check dictionary, with
    [i < j], different output classes and different sensitive values. *)
Definition examined (items : CheckItems) (val1 val2 : BState) : Prop :=
  ∃ i j outcome1 sensitive1 value1 outcome2 sensitive2 value2,
    i < j
    ∧ items !! i = Some ((outcome1, sensitive1), value1)
    ∧ items !! j = Some ((outcome2, sensitive2), value2)
    ∧ outcome1 ≠ outcome2 ∧ sensitive1 ≠ sensitive2
    ∧ val1 ∈ value1 ∧ val2 ∈ value2.

(** A bias witness: an examined pair whose intersection is not empty, as
    the engine tests it on the representation of the polyhedron. *)
Definition bias_witness (ranges0 : list (VariableIdentifier * (Qc * Qc)))
    (items : CheckItems) : Prop :=
  ∃ val1 val2, examined items val1 val2
               ∧ is_bias (polka_repr (intersection_of ranges0 val1 val2)) = true.

(** The examined pairs, in the order of the loops. *)
Definition pairs_at (items : CheckItems) (i j : nat) : list (BState * BState) :=
  match items !! i, items !! j with
  | Some ((outcome1, sensitive1), value1), Some ((outcome2, sensitive2), value2) =>
      if bool_decide (outcome1 ≠ outcome2) && bool_decide (sensitive1 ≠ sensitive2) then
        val1 ← value1; val2 ← value2; [(val1, val2)]
      else []
  | _, _ => []
  end.

Definition examined_pairs (items : CheckItems) : list (BState * BState) :=
  i ← seq 0 (length items);
  j ← seq (i + 1) (length items - (i + 1));
  pairs_at items i j.

(** The volume of a box: the product of the widths of its intervals. *)
Definition volume (box : list (Qc * Qc)) : Qc :=
  foldr (fun r acc => ((r.2 - r.1) * acc)%Qc) 1%Qc box.
End bias_check.

(** ** [BiasBackwardSemantics] (lines 683-705) *)

Section semantics.
Context {FState BState : Type} `{!BiasDomain FState BState}.

(** [list_semantics]: [stmt = (lhs, rhs)] *)
Definition list_semantics (stmt : VariableIdentifier * PyTexpr1) (state : BState) : BState :=
  polka_substitute state stmt.1 stmt.2.

(** [ReLU_call_semantics] (the manager is never [None] in the engine) *)
Definition ReLU_call_semantics (stmt : VariableIdentifier) (state : BState)
    (active : bool) : BState :=
  if active then
    let expr := PyTexpr1_var stmt in
    let cond : PyTcons1 := (expr, AP_CONS_SUPEQ) in
    polka_meet_tcons state cond
  else
    let expr := PyTexpr1_var stmt in
    let zero := PyTexpr1_cst 0%Qc in
    let neg := PyTexpr1_binop AP_TEXPR_SUB zero expr rtype rdir in
    let cond : PyTcons1 := (neg, AP_CONS_SUP) in
    let zero := PyTexpr1_cst 0%Qc in
    polka_meet_tcons (polka_substitute state stmt zero) cond.
End semantics.

(** ** The control flow graph and [from_node] (lines 381-440) *)

(** What [isinstance] and [node.stmts] tell about a node. *)
Inductive NodeKind : Type :=
| Function (stmts : VariableIdentifier * PyTexpr1)
| Activation (stmts : VariableIdentifier)
| Basic.

(** [nodes] is [cfg.nodes], a dictionary from identifiers to nodes;
    [predecessors node] lists the set [cfg.predecessors(node)] with the
    element that [pop()] takes first. *)
Record ControlFlowGraph {Node : Type} := {
  nodes : gmap nat Node;
  predecessors : Node → list nat;
  kind : Node → NodeKind;
}.
Arguments ControlFlowGraph Node : clear implicits.

(** How a generator ends. [OutOfFuel] is not an outcome of the engine:
    it marks a run of the model that was cut short. *)
Inductive StreamEnd : Set :=
| StopIteration
| Raised (e : exn)
| OutOfFuel.

(** What a generator yields, and how it ends. *)
Definition Stream (A : Type) : Type := list A * StreamEnd.

(** [yield from s1] followed by the rest [s2] of the generator's body. *)
Definition yield_from_then {A} (s1 s2 : Stream A) : Stream A :=
  match s1.2 with
  | StopIteration => (s1.1 ++ s2.1, s2.2)
  | _ => s1
  end.

Section from_node.
Context {Node FState BState : Type} `{Countable Node}.
Context `{!BiasDomain FState BState}.
Context (cfg : ControlFlowGraph Node) (active inactive : gset Node).

(** [self.cfg.nodes[self.cfg.predecessors(node).pop()]] *)
Definition pop_predecessor (node : Node) : result Node :=
  p ← or_raise KeyError (head (predecessors cfg node));
  or_raise KeyError (nodes cfg !! p).

Fixpoint from_node (fuel : nat) (node : Node) (initial : BState) (join : bool)
    : Stream (option BState) :=
  match fuel with
  | 0 => ([], OutOfFuel)
  | S fuel' =>
      let recurse state :=
        match pop_predecessor node with
        | Ok predecessor => from_node fuel' predecessor state join
        | Raise e => ([], Raised e)
        end in
      let state := initial in
      match kind cfg node with
      | Function stmts =>
          let state := list_semantics stmts state in
          if state_is_bottom state then ([None], StopIteration)
          else if truthy (predecessors cfg node) then recurse state
          else ([Some state], StopIteration)
      | Activation stmts =>
          if decide (node ∈ active) then
            let state := ReLU_call_semantics stmts state true in
            if state_is_bottom state then ([None], StopIteration)
            else recurse state
          else if decide (node ∈ inactive) then
            let state := ReLU_call_semantics stmts state false in
            if state_is_bottom state then ([None], StopIteration)
            else recurse state
          else
            let state1 := ReLU_call_semantics stmts state true in
            let state2 := ReLU_call_semantics stmts state false in
            if join then recurse (state_join state1 state2)
            else if state_is_bottom state1 then
              if state_is_bottom state2 then ([None], StopIteration)
              else recurse state2
            else
              yield_from_then (recurse state1)
                (if state_is_bottom state2 then ([None], StopIteration)
                 else recurse state2)
      | Basic =>
          if truthy (predecessors cfg node) then recurse state
          else ([Some state], StopIteration)
      end
  end.

(** The nodes the traversal can go through from [node]: [node], the
    predecessor it pops, and so on up to the entry of the graph. *)
Fixpoint traversed_path (fuel : nat) (node : Node) : list Node :=
  match fuel with
  | 0 => []
  | S fuel' =>
      node ::
      match pop_predecessor node with
      | Ok predecessor => traversed_path fuel' predecessor
      | Raise _ => []
      end
  end.

(** An activation node that is neither always active nor always inactive. *)
Definition disjunctive (node : Node) : bool :=
  match kind cfg node with
  | Activation _ => bool_decide (node ∉ active) && bool_decide (node ∉ inactive)
  | _ => false
  end.

Definition disjunctive_count (path : list Node) : nat :=
  length (filter (fun node => disjunctive node = true) path).

(** The states among the yielded items (the others are [None]). *)
Definition yielded_states (s : Stream (option BState)) : list BState :=
  omap id s.1.

(** An edge of the graph, from a node to one of its predecessors. *)
Definition cfg_edge (node predecessor : Node) : Prop :=
  ∃ p, p ∈ predecessors cfg node ∧ nodes cfg !! p = Some predecessor.

Definition acyclic : Prop := ∀ node, ¬ tc cfg_edge node node.

(** The yielded states that are not bottom. *)
Definition non_bottom_states (s : Stream (option BState)) : list BState :=
  filter (fun state => state_is_bottom state = false) (yielded_states s).

(** The nodes of the graph, as listed by [cfg.nodes]. *)
Definition cfg_nodes : list Node := (map_to_list (nodes cfg)).*2.
End from_node.

(** ** [worker2]: the condition on the outputs (lines 460-466) *)

(** [worker2], lines 460-466: the condition [outcome] saying that the
    class [chosen] wins.  [remaining.pop()] takes the first element of the
    set [self.outputs - {chosen}] and the loop goes through the others;
    [pop] raises [KeyError] on an empty set. *)
Definition worker2_outcome (outputs0 : gset VariableIdentifier)
    (chosen : VariableIdentifier) : result Expression :=
  let remaining := elements (outputs0 ∖ {[chosen]}) in
  discarded ← or_raise KeyError (head remaining);
  let remaining := tail remaining in
  let outcome := BinaryComparisonOperation (Identifier discarded) Lt (Identifier chosen) in
  Ok (fold_left
        (fun outcome discarded =>
           let cond :=
             BinaryComparisonOperation (Identifier discarded) Lt (Identifier chosen) in
           BinaryBooleanOperation outcome And cond)
        remaining outcome).

(** ** [analyze]: reading the specification (lines 522-598) *)

(** [s.strip()] and [int(s)] on the lines of a specification file, for
    ASCII text.  [isspace c] is [c.isspace()]. *)
Definition isspace (c : ascii) : bool :=
  match c with
  | "009" | "010" | "011" | "012" | "013" | "028" | "029" | "030" | "031" | " " => true
  | _ => false
  end%char.

Fixpoint lstrip (s : string) : string :=
  match s with
  | EmptyString => EmptyString
  | String c s' => if isspace c then lstrip s' else s
  end.

Definition strip (s : string) : string :=
  String.rev (lstrip (String.rev (lstrip s))).

(** The digits of a decimal literal; a single underscore can stand
    between two digits. *)
Fixpoint int_digits (s : string) (acc : Z) : option Z :=
  match s with
  | EmptyString => Some acc
  | String "_"%char (String c _ as s') =>
      if Ascii.is_nat c is Some _ then int_digits s' acc else None
  | String c s' => d ← Ascii.is_nat c; int_digits s' (acc * 10 + Z.of_nat d)%Z
  end.

(** A literal without sign: it starts with a digit. *)
Definition int_literal (s : string) : option Z :=
  match s with
  | String c _ => if Ascii.is_nat c is Some _ then int_digits s 0 else None
  | EmptyString => None
  end.

(** [int(s)]: white space around the literal and a sign before it are
    accepted; [None] stands for [ValueError]. *)
Definition int (s : string) : option Z :=
  match strip s with
  | String "-"%char s' => Z.opp <$> int_literal s'
  | String "+"%char s' => int_literal s'
  | s' => int_literal s'
  end.

(** The open specification file is the list of its lines still to read;
    [readline] returns the empty string at the end of the file. *)
Definition readline (specification : list string) : string * list string :=
  match specification with
  | [] => (EmptyString, [])
  | line :: specification' => (line, specification')
  end.

(** [for i in range(arity): append(VariableIdentifier(readline().strip()))] *)
Fixpoint read_variables (arity : nat) (specification : list string)
    : list VariableIdentifier * list string :=
  match arity with
  | 0 => ([], specification)
  | S arity' =>
      let '(line, specification) := readline specification in
      let '(variables, specification) := read_variables arity' specification in
      (strip line :: variables, specification)
  end.

(** The [while True] loop reading the one-hot encoded uncontroversial
    features; it is left by [break] when [int] raises [ValueError]. *)
Fixpoint read_uncontroversial1 (fuel : nat) (specification : list string)
    (uncontroversial1' : list (list VariableIdentifier))
    : list (list VariableIdentifier) :=
  match fuel with
  | 0 => uncontroversial1'
  | S fuel' =>
      let '(line, specification) := readline specification in
      let arity := strip line in
      match int arity with
      | None => uncontroversial1'
      | Some n =>
          let '(uncontroversial, specification) :=
            read_variables (Z.to_nat n) specification in
          read_uncontroversial1 fuel' specification (uncontroversial1' ++ [uncontroversial])
      end
  end.

Section analyze.
Context {Node FState BState : Type} `{Countable Node}.

(** [analyze] up to and including [queue1.put(...)] of the first chunk:
    the interpreter with its attributes set and the shared state the
    workers of the pre-analysis start from.  [specification] is the
    content of the file [self.specification]. *)
Definition analyze_startup (widening0 : Z) (difference0 : Qc)
    (specification : list string) (initial : BState)
    (inputs outputs0 : gset VariableIdentifier) (activations0 : gset Node)
    : result (BackwardInterpreter Node BState * Shared Node) :=
  let '(line, specification) := readline specification in
  arity ← or_raise ValueError (int (strip line));
  let '(sensitive0, specification) := read_variables (Z.to_nat arity) specification in
  let values0 := one_hots sensitive0 in
  let zero := Literal "0" in
  let one := Literal "1" in
  first ← or_raise IndexError (sensitive0 !! 0);
  let bounds0 := between zero first one in
  let bounds0 :=
    fold_left (fun b v => BinaryBooleanOperation b And (between zero v one))
      (drop 1 sensitive0) bounds0 in
  let uncontroversial1' :=
    read_uncontroversial1 (S (length specification)) specification [] in
  let count0 := fold_left Nat.mul (length <$> uncontroversial1') 1 in
  let bounds0 :=
    fold_left (fun b v => BinaryBooleanOperation b And (between zero v one))
      (concat uncontroversial1') bounds0 in
  let uncontroversial2' :=
    elements (inputs ∖ list_to_set sensitive0 ∖ list_to_set (concat uncontroversial1')) in
  let self :=
    {| widening := widening0; difference := difference0; _initial := initial;
       sensitive := sensitive0; values := values0;
       uncontroversial1 := uncontroversial1'; uncontroversial2 := uncontroversial2';
       bounds := bounds0; outputs := outputs0; activations := activations0;
       count := count0 |} in
  Ok (self, initial_shared self).

(** The variables a specification file names. *)
Definition specification_variables (specification : list string)
    : result (list VariableIdentifier) :=
  let '(line, specification) := readline specification in
  arity ← or_raise ValueError (int (strip line));
  let '(sensitive0, specification) := read_variables (Z.to_nat arity) specification in
  Ok (sensitive0
      ++ concat (read_uncontroversial1 (S (length specification)) specification [])).
End analyze.

(** The lines of a specification file that declares the sensitive feature
    [sensitive0] and the one-hot encoded features [groups]: a line for the
    number of variables of a feature ([header] for the sensitive one,
    [headers] for the others) comes before one line per variable; [rest]
    follows. *)
Definition specification_lines (header : string) (sensitive0 : list string)
    (headers : list string) (groups : list (list string)) (rest : list string)
    : list string :=
  header :: sensitive0 ++ concat (zip_with cons headers groups) ++ rest.

(** ** [analyze]: pattern compression (the loop building [compressed],
       lines 618-639) *)

Section compression.
(** The loop does not look into the chunks: any hashable type does. *)
Context {Node Chunk : Type} `{Countable Node} `{Countable Chunk}.

(** The value of an entry of [self.patterns]: a set of chunks. *)
Abbreviation Pack := (gset Chunk).

Definition issubset (a b : gset Node) : bool := bool_decide (a ⊆ b).

(** The body of [for (s11, s12), (s21, s22) in zip(key1, key2)], folded
    over the flags [(mergeable1, mergeable2)]. *)
Definition mergeable_step (flags : bool * bool)
    (z : (gset Node * gset Node) * (gset Node * gset Node)) : bool * bool :=
  let '((s11, s12), (s21, s22)) := z in
  let mergeable1 :=
    if negb (issubset s21 s11) || negb (issubset s22 s12) then false else flags.1 in
  let mergeable2 :=
    if negb (issubset s11 s21) || negb (issubset s12 s22) then false else flags.2 in
  (mergeable1, mergeable2).

Definition mergeable (key1 key2 : Pattern Node) : bool * bool :=
  fold_left mergeable_step (zip key1 key2) (true, true).

(** [for key2 in compressed: ...]: [todo] is the part of the iteration
    still ahead, [compressed] the dictionary itself.  The result is [None]
    when the loop ends with [unmerged] still true. *)
Fixpoint merge_into (key1 : Pattern Node) (pack1 : Pack)
    (todo compressed : list (Pattern Node * Pack)) : option (list (Pattern Node * Pack)) :=
  match todo with
  | [] => None
  | (key2, pack2) :: todo' =>
      let '(mergeable1, mergeable2) := mergeable key1 key2 in
      if mergeable1 then
        Some (dict_set key2 (pack2 ∪ pack1) compressed)
      else if mergeable2 then
        Some (dict_del key2 (dict_set key1 (pack2 ∪ pack1) compressed))
      else merge_into key1 pack1 todo' compressed
  end.

Definition compress_step (compressed : list (Pattern Node * Pack))
    (item : Pattern Node * Pack) : list (Pattern Node * Pack) :=
  let '(key1, pack1) := item in
  match merge_into key1 pack1 compressed compressed with
  | Some compressed' => compressed'
  | None => dict_set key1 pack1 compressed
  end.

Definition pack_len (item : Pattern Node * Pack) : nat := size item.2.

Definition compress (patterns : list (Pattern Node * Pack)) : list (Pattern Node * Pack) :=
  fold_left compress_step (sorted pack_len false patterns) [].

(** [prioritized = sorted(compressed.items(), key=len of pack, reverse=True)] *)
Definition prioritized (patterns : list (Pattern Node * Pack)) : list (Pattern Node * Pack) :=
  sorted pack_len true (compress patterns).

(** Position-wise subsumption, as the specification words it: [k2]
    subsumes [k1] when at every position the active and inactive sets of
    [k2] are subsets of those of [k1]. *)
Definition subsumes (k2 k1 : Pattern Node) : Prop :=
  Forall2 (fun p2 p1 => p2.1 ⊆ p1.1 ∧ p2.2 ⊆ p1.2) k2 k1.

Definition all_chunks (d : list (Pattern Node * Pack)) : Pack := ⋃ d.*2.

(** The two tests of the loop over [zip(key1, key2)], per position. *)
Definition sub21 (z : (gset Node * gset Node) * (gset Node * gset Node)) : bool :=
  issubset z.2.1 z.1.1 && issubset z.2.2 z.1.2.
Definition sub12 (z : (gset Node * gset Node) * (gset Node * gset Node)) : bool :=
  issubset z.1.1 z.2.1 && issubset z.1.2 z.2.2.

(** The loop invariant of the compression: [P] is the part of the sorted
    items already processed, [C] the dictionary [compressed].  The keys
    of one dictionary have the same length [n] (one entry per sensitive
    value); representation by a subsuming key depends on it. *)
Record compress_inv (n : nat) (P C : list (Pattern Node * Pack)) : Prop := {
  inv_nodup : NoDup C.*1;
  inv_keys : C.*1 ⊆ P.*1;
  inv_len : length C ≤ length P;
  inv_rep : Forall (fun k => length k = n) P.*1 →
            ∀ k p, (k, p) ∈ P → ∃ k' p', (k', p') ∈ C ∧ subsumes k' k ∧ p ⊆ p';
  inv_chunks : all_chunks C = all_chunks P;
}.
End compression.

(** ** A small network

    A concrete instance of the external interfaces, on which the model is
    evaluated: the sign domain for one variable [h] as backward domain, a
    forward pre-analysis that decides no activation beyond the forced
    ones, and a graph with an entry node [0], a ReLU node [1] on [h] and
    an affine node [2]. *)
Module Toy.
Inductive Sign : Set := SBot | SNeg | SNonNeg | STop.

#[export] Instance Sign_eq_dec : EqDecision Sign.
Proof. solve_decision. Defined.

Definition sign_meet (a b : Sign) : Sign :=
  match a, b with
  | STop, x | x, STop => x
  | SNeg, SNeg => SNeg
  | SNonNeg, SNonNeg => SNonNeg
  | _, _ => SBot
  end.

Definition sign_join (a b : Sign) : Sign :=
  match a, b with
  | SBot, x | x, SBot => x
  | SNeg, SNeg => SNeg
  | SNonNeg, SNonNeg => SNonNeg
  | _, _ => STop
  end.

(** The states from which the assignment [v := e] leads into [s]. *)
Definition sign_substitute (s : Sign) (v : VariableIdentifier) (e : PyTexpr1) : Sign :=
  if decide (v = "h") then
    match e, s with
    | _, SBot => SBot
    | PyTexpr1_cst c, SNeg => if decide (c < 0)%Qc then STop else SBot
    | PyTexpr1_cst c, SNonNeg => if decide (c < 0)%Qc then SBot else STop
    | _, _ => STop
    end
  else s.

Definition sign_meet_tcons (s : Sign) (c : PyTcons1) : Sign :=
  match c with
  | (PyTexpr1_var v, AP_CONS_SUPEQ) =>
      if decide (v = "h") then sign_meet s SNonNeg else s
  | (PyTexpr1_binop AP_TEXPR_SUB (PyTexpr1_cst z) (PyTexpr1_var v) _ _, AP_CONS_SUP) =>
      if decide (v = "h" ∧ z = 0%Qc) then sign_meet s SNeg else s
  | _ => s
  end.

Definition sign_repr (s : Sign) : string :=
  match s with
  | SBot => "⊥"
  | SNeg => "-1.0 * h > 0"
  | SNonNeg => "1.0 * h >= 0"
  | STop => "⊤"
  end.

(** [h] ranges over [[-1, 1]] and the inputs over [[0, 1]] in this instance. *)
Definition sign_bound_variable (s : Sign) (v : VariableIdentifier) : Qc * Qc :=
  if decide (v = "h") then
    match s with
    | SBot => (1, - 1)%Qc
    | SNeg => (- 1, 0)%Qc
    | SNonNeg => (0, 1)%Qc
    | STop => (- 1, 1)%Qc
    end
  else (0, 1)%Qc.

(** A forward state is the number of constraints assumed so far. *)
#[export] Instance toy_precursory : Precursory nat nat := {|
  fwd_assume s _ := S s;
  precursory_analyze _ _ f_active f_inactive := (default ∅ f_active, default ∅ f_inactive);
|}.

#[export] Instance toy_domain : BiasDomain nat Sign := {|
  state_precursory _ := 0;
  state_assume s _ := s;
  state_meet := sign_meet;
  state_join := sign_join;
  state_forget s vars :=
    if decide ("h" ∈ vars) then match s with SBot => SBot | _ => STop end else s;
  state_is_bottom s := bool_decide (s = SBot);
  polka_substitute := sign_substitute;
  polka_meet_tcons := sign_meet_tcons;
  polka_repr := sign_repr;
  polka_bound_variable := sign_bound_variable;
|}.

#[export] Instance toy_str : PyStr := fun q =>
  if decide (q = 0%Qc) then "0" else if decide (q = 1%Qc) then "1" else "0.5".

(** A machine with two CPUs: [packing] starts one consumer. *)
#[export] Instance toy_machine : Machine := {| cpu_count := 2 |}.

(** A machine with one CPU: [packing] starts no consumer. *)
Definition one_cpu : Machine := {| cpu_count := 1 |}.

Definition toy_cfg : ControlFlowGraph nat := {|
  nodes := {[ 0 := 0; 1 := 1; 2 := 2 ]};
  predecessors node := match node with 1 => [0] | 2 => [1] | _ => [] end;
  kind node :=
    match node with
    | 1 => Activation "h"
    | 2 => Function ("y", PyTexpr1_var "h")
    | _ => Basic
    end;
|}.

(** The interpreter as [analyze] sets it up from the specification file
    with the lines [1] and [s], for the inputs [s] and [x], widening 0,
    difference 1 and the activation node [1]: one sensitive variable, no
    one-hot encoded feature, one custom encoded feature. *)
Definition interp_x : BackwardInterpreter nat Sign := {|
  widening := 0; difference := 1%Qc; _initial := STop;
  sensitive := ["s"]; values := one_hots ["s"];
  uncontroversial1 := []; uncontroversial2 := ["x"];
  bounds := between (Literal "0") "s" (Literal "1");
  outputs := ∅; activations := {[1]}; count := 1;
|}.

(** The same for the lines [1], [s] and [0] and the input [s]: the
    specification declares a one-hot encoded feature with no variable. *)
Definition interp_empty_group : BackwardInterpreter nat Sign := {|
  widening := 0; difference := 1%Qc; _initial := STop;
  sensitive := ["s"]; values := one_hots ["s"];
  uncontroversial1 := [[]]; uncontroversial2 := [];
  bounds := between (Literal "0") "s" (Literal "1");
  outputs := ∅; activations := {[1]}; count := 0;
|}.

(** Shared states of the pre-analysis: the queue drained with nothing
    recorded; the only chunk posted again after its feature was found
    too narrow; and that chunk abandoned. *)
Definition drained : Shared nat :=
  {| queue1 := []; packs := []; patterns := []; partitions := 0;
     feasible := 0%Qc; explored := 0%Qc |}.

Definition narrow_task : Task nat :=
  {| assumptions := []; pivot1 := 0; unpacked := ∅;
     ranges := [("x", (0, 1)%Qc)]; pivot2 := 0; splittable := [];
     percent := Qc_of_Z 100; key := None |}.

Definition reposted : Shared nat :=
  {| queue1 := [Partition narrow_task]; packs := []; patterns := []; partitions := 0;
     feasible := 0%Qc; explored := 0%Qc |}.

Definition abandoned_all : Shared nat :=
  {| queue1 := [NoMoreChunks]; packs := []; patterns := []; partitions := 0;
     feasible := 0%Qc; explored := (0 + Qc_of_Z 100)%Qc |}.

(** A key that forces the activation node to be active. *)
Definition forcing_key : Pattern nat := [({[1]}, ∅)].

(** A check dictionary with two entries of different output classes and
    sensitive values. *)
Definition check_items : list ((VariableIdentifier * VariableIdentifier) * list Sign) :=
  [(("y0", "s0"), [SNonNeg]); (("y1", "s1"), [SNonNeg; SNeg])].

(** A patterns dictionary over chunks named by numbers. *)
Definition toy_patterns : list (Pattern nat * gset nat) :=
  [ ([({[1; 2]}, ∅)], {[11; 12]}); ([({[1]}, ∅)], {[10]}); ([(∅, {[3]})], {[13]}) ].

(** The interpreter for the specification with the lines [2], [s] and
    [t] and the inputs [s], [t] and [x]: two sensitive variables. *)
Definition interp_two : BackwardInterpreter nat Sign := {|
  widening := 0; difference := 1%Qc; _initial := STop;
  sensitive := ["s"; "t"]; values := one_hots ["s"; "t"];
  uncontroversial1 := []; uncontroversial2 := ["x"];
  bounds :=
    BinaryBooleanOperation (between (Literal "0") "s" (Literal "1")) And
      (between (Literal "0") "t" (Literal "1"));
  outputs := ∅; activations := {[1]}; count := 1;
|}.

(** The interpreter for the lines [1], [s], [2], [a] and [b] and the
    inputs [s], [a], [b] and [x]: a one-hot encoded feature with two
    variables. *)
Definition interp_onehot : BackwardInterpreter nat Sign := {|
  widening := 0; difference := 1%Qc; _initial := STop;
  sensitive := ["s"]; values := one_hots ["s"];
  uncontroversial1 := [["a"; "b"]]; uncontroversial2 := ["x"];
  bounds :=
    BinaryBooleanOperation
      (BinaryBooleanOperation (between (Literal "0") "s" (Literal "1")) And
         (between (Literal "0") "a" (Literal "1")))
      And (between (Literal "0") "b" (Literal "1"));
  outputs := ∅; activations := {[1]}; count := 2;
|}.

(** The interpreter of [interp_x] with the difference 1/2: the range of
    [x] can be split once. *)
Definition interp_half : BackwardInterpreter nat Sign := {|
  widening := 0; difference := (1 / 2)%Qc; _initial := STop;
  sensitive := ["s"]; values := one_hots ["s"];
  uncontroversial1 := []; uncontroversial2 := ["x"];
  bounds := between (Literal "0") "s" (Literal "1");
  outputs := ∅; activations := {[1]}; count := 1;
|}.

(** The interpreter of [interp_x] with the widening 1: one disjunction
    is accepted and the first chunk is feasible. *)
Definition interp_wide : BackwardInterpreter nat Sign := {|
  widening := 1; difference := 1%Qc; _initial := STop;
  sensitive := ["s"]; values := one_hots ["s"];
  uncontroversial1 := []; uncontroversial2 := ["x"];
  bounds := between (Literal "0") "s" (Literal "1");
  outputs := ∅; activations := {[1]}; count := 1;
|}.

(** The shared state once the first chunk of [interp_wide] was recorded. *)
Definition recorded_all : Shared nat :=
  {| queue1 := [NoMoreChunks]; packs := [];
     patterns :=
       [([(∅, ∅)],
         {[ chunk_of (initial_task interp_wide (initial_ranges interp_wide)) ]})];
     partitions := 1;
     feasible := (0 + Qc_of_Z 100)%Qc; explored := (0 + Qc_of_Z 100)%Qc |}.
End Toy.

(** * Properties *)

#[local] Set Warnings "-clear-no-such-hyp".

(** ** Facts about dictionaries, sorting and the compression *)

Section pydict_facts.
Context {K V : Type} `{EqDecision K}.
Implicit Types (d : list (K * V)).

Lemma dict_set_fresh k v d :
  k ∉ d.*1 → dict_set k v d = d ++ [(k, v)].
Proof.
  induction d as [|[k' v'] d IH]; simpl; intros Hk; [done|].
  apply not_elem_of_cons in Hk as [Hne Hk].
  rewrite decide_False by done. by rewrite IH.
Qed.

Lemma dict_set_mid k v v0 d1 d2 :
  k ∉ d1.*1 → dict_set k v (d1 ++ (k, v0) :: d2) = d1 ++ (k, v) :: d2.
Proof.
  induction d1 as [|[k' v'] d1 IH]; simpl; intros Hk.
  - by rewrite decide_True.
  - apply not_elem_of_cons in Hk as [Hne Hk].
    rewrite decide_False by done. by rewrite IH.
Qed.

Lemma dict_del_mid k v0 d1 d2 :
  k ∉ d1.*1 → dict_del k (d1 ++ (k, v0) :: d2) = d1 ++ d2.
Proof.
  induction d1 as [|[k' v'] d1 IH]; simpl; intros Hk.
  - by rewrite decide_True.
  - apply not_elem_of_cons in Hk as [Hne Hk].
    rewrite decide_False by done. by rewrite IH.
Qed.

Lemma dict_get_None k d : dict_get k d = None ↔ k ∉ d.*1.
Proof.
  induction d as [|[k' v'] d IH]; simpl.
  - split; [intros _; apply not_elem_of_nil | done].
  - case_decide as Hk; subst.
    + split; [done | intros Hn; exfalso; apply Hn; left].
    + rewrite IH, not_elem_of_cons. split; [by intros ? | by intros [_ ?]].
Qed.

Lemma dict_get_mid k v d1 d2 :
  k ∉ d1.*1 → dict_get k (d1 ++ (k, v) :: d2) = Some v.
Proof.
  induction d1 as [|[k' v'] d1 IH]; simpl; intros Hk.
  - by rewrite decide_True.
  - apply not_elem_of_cons in Hk as [Hne Hk].
    rewrite decide_False by done. by apply IH.
Qed.

(** A binding of a dictionary splits it around its key. *)
Lemma dict_split k v d :
  NoDup d.*1 → (k, v) ∈ d →
  ∃ d1 d2, d = d1 ++ (k, v) :: d2 ∧ (k ∉ d1.*1) ∧ (k ∉ d2.*1).
Proof.
  intros Hnd Hin. apply list_elem_of_split in Hin as (d1 & d2 & ->).
  exists d1, d2. split; [done|].
  rewrite fmap_app, fmap_cons in Hnd. simpl in Hnd.
  apply NoDup_app in Hnd as (_ & Hd1 & Hd2).
  apply NoDup_cons in Hd2 as [Hk _]. split; [|done].
  intros Hk1. apply (Hd1 _ Hk1). left.
Qed.

Lemma dict_of_items_NoDup d : NoDup d.*1 → dict_of_items d = d.
Proof.
  unfold dict_of_items.
  enough (∀ acc, NoDup (acc ++ d).*1 →
            fold_left (λ d0 kv, dict_set kv.1 kv.2 d0) d acc = acc ++ d) as Hgen
    by (intros; by apply (Hgen [])).
  induction d as [|[k v] d IH]; intros acc Hnd; simpl.
  - by rewrite app_nil_r.
  - rewrite dict_set_fresh.
    + rewrite IH; rewrite <-app_assoc; [done|done].
    + rewrite fmap_app, fmap_cons in Hnd. apply NoDup_app in Hnd as (_ & Hd & _).
      intros Hk. apply (Hd _ Hk). left.
Qed.
Lemma dict_set_keys k v d x :
  x ∈ (dict_set k v d).*1 → x = k ∨ x ∈ d.*1.
Proof.
  induction d as [|[k' v'] d IH]; simpl.
  - intros ->%list_elem_of_singleton. by left.
  - destruct (decide (k = k')) as [->|Hne]; simpl.
    + intros Hx. by right.
    + intros [->|Hx]%elem_of_cons; [right; left|].
      destruct (IH Hx) as [->|Hd]; [by left | right; by right].
Qed.

Lemma dict_set_NoDup k v d : NoDup d.*1 → NoDup (dict_set k v d).*1.
Proof.
  intros Hnd. destruct (decide (k ∈ d.*1)) as [Hin|Hout].
  - apply list_elem_of_fmap in Hin as ([k' v'] & -> & Hin).
    destruct (dict_split _ _ _ Hnd Hin) as (d1 & d2 & -> & Hk1 & _).
    rewrite dict_set_mid by done.
    by rewrite fmap_app, fmap_cons in *.
  - rewrite dict_set_fresh by done. rewrite fmap_app. simpl.
    apply NoDup_app. split; [done|]. split; [|apply NoDup_singleton].
    intros x Hx ->%list_elem_of_singleton. done.
Qed.

Lemma dict_get_Some k v d : dict_get k d = Some v → (k, v) ∈ d.
Proof.
  induction d as [|[k' v'] d IH]; simpl; [done|].
  destruct (decide (k = k')) as [->|Hne].
  - intros [= ->]. left.
  - intros Hget. right. by apply IH.
Qed.

Lemma dict_set_elem k v d kv :
  kv ∈ dict_set k v d → kv = (k, v) ∨ kv ∈ d.
Proof.
  induction d as [|[k' v'] d IH]; simpl.
  - intros ->%list_elem_of_singleton. by left.
  - destruct (decide (k = k')) as [->|Hne].
    + intros [->|Hin]%elem_of_cons; [by left | right; by right].
    + intros [->|Hin]%elem_of_cons; [right; left|].
      destruct (IH Hin) as [->|Hd]; [by left | right; by right].
Qed.
End pydict_facts.

Section sorted_facts.
Context {A : Type} (key : A → nat).

Lemma sorted_insert_perm reverse x l : sorted_insert key reverse x l ≡ₚ x :: l.
Proof.
  induction l as [|y l IH]; simpl; [done|].
  destruct (goes_before key reverse x y); [done|].
  rewrite IH. apply Permutation_swap.
Qed.

Lemma sorted_perm reverse l : sorted key reverse l ≡ₚ l.
Proof.
  induction l as [|x l IH]; simpl; [done|].
  by rewrite sorted_insert_perm, IH.
Qed.
End sorted_facts.

Section compression_facts.
Context {Node Chunk : Type} `{Countable Node} `{Countable Chunk}.
Implicit Types (C P : list (Pattern Node * gset Chunk)).
Implicit Types (k key : Pattern Node).

Lemma mergeable_fold (zs : list ((gset Node * gset Node) * (gset Node * gset Node))) a b :
  fold_left mergeable_step zs (a, b)
  = (a && forallb sub21 zs, b && forallb sub12 zs).
Proof.
  revert a b. induction zs as [|[[s11 s12] [s21 s22]] zs IH]; intros a b; simpl.
  - by rewrite !andb_true_r.
  - rewrite IH. unfold sub21, sub12; simpl.
    destruct (issubset s21 s11), (issubset s22 s12),
      (issubset s11 s21), (issubset s12 s22), a, b; reflexivity.
Qed.

Lemma forallb_sub21 key1 key2 :
  length key1 = length key2 →
  forallb sub21 (zip key1 key2) = true ↔ subsumes key2 key1.
Proof.
  revert key2. induction key1 as [|[a1 i1] key1 IH]; intros [|[a2 i2] key2] Hlen;
    simplify_eq/=.
  - split; [intros _; constructor | done].
  - rewrite andb_true_iff, IH by done. unfold sub21, issubset, subsumes; simpl.
    rewrite andb_true_iff, !bool_decide_eq_true.
    split.
    + intros [[??] ?]. by constructor.
    + intros Hs. apply Forall2_cons_1 in Hs as [[??] ?]. done.
Qed.

Lemma forallb_sub12 key1 key2 :
  length key1 = length key2 →
  forallb sub12 (zip key1 key2) = true ↔ subsumes key1 key2.
Proof.
  revert key2. induction key1 as [|[a1 i1] key1 IH]; intros [|[a2 i2] key2] Hlen;
    simplify_eq/=.
  - split; [intros _; constructor | done].
  - rewrite andb_true_iff, IH by done. unfold sub12, issubset, subsumes; simpl.
    rewrite andb_true_iff, !bool_decide_eq_true.
    split.
    + intros [[??] ?]. by constructor.
    + intros Hs. apply Forall2_cons_1 in Hs as [[??] ?]. done.
Qed.

Lemma mergeable_spec key1 key2 :
  length key1 = length key2 →
  ((mergeable key1 key2).1 = true ↔ subsumes key2 key1)
  ∧ ((mergeable key1 key2).2 = true ↔ subsumes key1 key2).
Proof.
  intros Hlen. unfold mergeable. rewrite mergeable_fold. simpl.
  split; [by apply forallb_sub21 | by apply forallb_sub12].
Qed.

Lemma subsumes_refl k : subsumes k k.
Proof. induction k; constructor; done. Qed.

Lemma subsumes_trans k1 k2 k3 : subsumes k1 k2 → subsumes k2 k3 → subsumes k1 k3.
Proof.
  unfold subsumes. intros H12. revert k3.
  induction H12 as [|p1 p2 k1 k2 [??] _ IH]; intros k3 H23.
  - by inversion H23.
  - inversion H23 as [|? p3 ? k3' [??] ?]; subst. constructor; [|by apply IH].
    simpl. split; set_solver.
Qed.

(** What the inner loop did when it merged. *)
Lemma merge_into_Some key1 pack1 todo C C' :
  merge_into key1 pack1 todo C = Some C' →
  ∃ key2 pack2, (key2, pack2) ∈ todo ∧
    (((mergeable key1 key2).1 = true ∧ C' = dict_set key2 (pack2 ∪ pack1) C)
     ∨ ((mergeable key1 key2).2 = true
        ∧ C' = dict_del key2 (dict_set key1 (pack2 ∪ pack1) C))).
Proof.
  induction todo as [|[key2 pack2] todo IH]; simpl; [done|].
  destruct (mergeable key1 key2) as [m1 m2] eqn:Hm.
  destruct m1.
  - intros [= <-]. exists key2, pack2. split; [left|]. left. by rewrite Hm.
  - destruct m2.
    + intros [= <-]. exists key2, pack2. split; [left|]. right. by rewrite Hm.
    + intros Hrec. destruct (IH Hrec) as (k & p & Hin & Hcase).
      exists k, p. split; [by right | done].
Qed.

Lemma all_chunks_app C1 C2 : all_chunks (C1 ++ C2) = all_chunks C1 ∪ all_chunks C2.
Proof. unfold all_chunks. by rewrite fmap_app, union_list_app_L. Qed.

Lemma all_chunks_cons k p C : all_chunks ((k, p) :: C) = p ∪ all_chunks C.
Proof. done. Qed.

Lemma all_chunks_nil : all_chunks (Node:=Node) (Chunk:=Chunk) [] = ∅.
Proof. done. Qed.

Lemma compress_step_inv n P C key1 pack1 :
  key1 ∉ P.*1 → compress_inv n P C →
  compress_inv n (P ++ [(key1, pack1)]) (compress_step C (key1, pack1)).
Proof.
  intros Hfresh [Hnd Hkeys Hlen Hrep Hch].
  assert (key1 ∉ C.*1) as HfreshC by (intros ?; apply Hfresh; by apply Hkeys).
  unfold compress_step.
  destruct (merge_into key1 pack1 C C) as [C'|] eqn:Hm.
  - apply merge_into_Some in Hm as (key2 & pack2 & Hin2 & Hcase).
    assert (key2 ∈ P.*1) as Hkey2P.
    { apply Hkeys, list_elem_of_fmap. by exists (key2, pack2). }
    destruct (dict_split _ _ _ Hnd Hin2) as (C1 & C2 & -> & Hk1 & Hk2).
    rewrite fmap_app, fmap_cons in Hnd, Hkeys, HfreshC. simpl in *.
    destruct Hcase as [[Hmerge ->] | [Hmerge ->]].
    + (* merge-1: the pack goes to the entry of key2 *)
      rewrite dict_set_mid by done.
      split.
      * by rewrite fmap_app, fmap_cons.
      * rewrite !fmap_app, fmap_cons. simpl.
        intros x Hx. apply elem_of_app. left. by apply Hkeys.
      * rewrite !length_app in *. simpl in *. lia.
      * rewrite fmap_app. intros [HlenP Hlen1%Forall_inv]%Forall_app.
        simpl in Hlen1.
        assert (length key2 = n) as Hlen2
          by (rewrite Forall_forall in HlenP; by apply HlenP).
        destruct (mergeable_spec key1 key2) as [Hm1 _]; [congruence|].
        intros k p [Hin | Hin%list_elem_of_singleton]%elem_of_app.
        -- destruct (Hrep HlenP k p Hin) as (k' & p' & Hin' & Hsub & Hp).
           apply elem_of_app in Hin' as [Hin' | Hin'%elem_of_cons].
           ++ exists k', p'. split; [|done]. clear -Hin'. set_solver.
           ++ destruct Hin' as [[= -> ->] | Hin'].
              ** exists key2, (pack2 ∪ pack1). split; [clear; set_solver|].
                 split; [done | clear -Hp; set_solver].
              ** exists k', p'. split; [|done]. clear -Hin'. set_solver.
        -- simplify_eq. exists key2, (pack2 ∪ pack1). split; [clear; set_solver|].
           split; [by apply Hm1 | clear; set_solver].
      * rewrite !all_chunks_app, !all_chunks_cons, all_chunks_nil.
        rewrite <-Hch, all_chunks_app, all_chunks_cons. clear. set_solver.
    + (* merge-2: the entry of key2 is re-keyed under key1 *)
      rewrite dict_set_fresh by (rewrite fmap_app, fmap_cons; done).
      rewrite <-app_assoc. simpl. rewrite dict_del_mid by done.
      split.
      * rewrite !fmap_app. simpl.
        apply NoDup_app in Hnd as (Hnd1 & Hdisj & Hnd2).
        apply NoDup_cons in Hnd2 as [_ Hnd2].
        apply NoDup_app. split; [done|]. split.
        -- intros x Hx [Hx2 | Hx2%list_elem_of_singleton]%elem_of_app.
           ++ apply (Hdisj x Hx). by right.
           ++ subst. apply HfreshC. apply elem_of_app. by left.
        -- apply NoDup_app. split; [done|]. split; [|apply NoDup_singleton].
           intros x Hx Hx2%list_elem_of_singleton. subst.
           apply HfreshC. apply elem_of_app. right. by right.
      * rewrite !fmap_app. simpl.
        intros x [Hx | [Hx | Hx]%elem_of_app]%elem_of_app; apply elem_of_app.
        -- left. apply Hkeys. apply elem_of_app. by left.
        -- left. apply Hkeys. apply elem_of_app. right. by right.
        -- by right.
      * rewrite !length_app in *. simpl in *. lia.
      * rewrite fmap_app. intros [HlenP Hlen1%Forall_inv]%Forall_app.
        simpl in Hlen1.
        assert (length key2 = n) as Hlen2
          by (rewrite Forall_forall in HlenP; by apply HlenP).
        destruct (mergeable_spec key1 key2) as [_ Hm2]; [congruence|].
        intros k p [Hin | Hin%list_elem_of_singleton]%elem_of_app.
        -- destruct (Hrep HlenP k p Hin) as (k' & p' & Hin' & Hsub & Hp).
           apply elem_of_app in Hin' as [Hin' | Hin'%elem_of_cons].
           ++ exists k', p'. split; [|done]. clear -Hin'. set_solver.
           ++ destruct Hin' as [[= -> ->] | Hin'].
              ** exists key1, (pack2 ∪ pack1). split; [clear; set_solver|].
                 split; [|clear -Hp; set_solver].
                 eapply subsumes_trans; [by apply Hm2 | done].
              ** exists k', p'. split; [|done]. clear -Hin'. set_solver.
        -- simplify_eq. exists key1, (pack2 ∪ pack1). split; [clear; set_solver|].
           split; [apply subsumes_refl | clear; set_solver].
      * rewrite !all_chunks_app, !all_chunks_cons, all_chunks_nil.
        rewrite <-Hch, all_chunks_app, all_chunks_cons. clear. set_solver.
  - (* unmerged: a new entry *)
    rewrite dict_set_fresh by done.
    split.
    + rewrite fmap_app. simpl. apply NoDup_app. split; [done|].
      split; [|apply NoDup_singleton].
      intros x Hx Hx2%list_elem_of_singleton. by subst.
    + rewrite !fmap_app. simpl.
      intros x [Hx | Hx]%elem_of_app; apply elem_of_app; [left; by apply Hkeys | by right].
    + rewrite !length_app. simpl. lia.
    + rewrite fmap_app. intros [HlenP _]%Forall_app.
      intros k p [Hin | Hin%list_elem_of_singleton]%elem_of_app.
      * destruct (Hrep HlenP k p Hin) as (k' & p' & Hin' & Hsub & Hp).
        exists k', p'. split; [|done]. apply elem_of_app. by left.
      * simplify_eq. exists key1, pack1. split; [clear; set_solver|].
        split; [apply subsumes_refl | done].
    + rewrite !all_chunks_app, all_chunks_cons, all_chunks_nil. by rewrite Hch.
Qed.

Lemma compress_fold_inv n l : ∀ P C,
  NoDup (P ++ l).*1 → compress_inv n P C →
  compress_inv n (P ++ l) (fold_left compress_step l C).
Proof.
  induction l as [|[key1 pack1] l IH]; intros P C Hnd Hinv; simpl.
  - by rewrite app_nil_r.
  - replace (P ++ (key1, pack1) :: l) with ((P ++ [(key1, pack1)]) ++ l) in *
      by (by rewrite <-app_assoc).
    apply IH; [done |].
    rewrite !fmap_app in Hnd. simpl in *.
    apply NoDup_app in Hnd as (Hnd & _ & _).
    apply NoDup_app in Hnd as (_ & Hdisj & _).
    apply compress_step_inv; [|done].
    intros Hin. apply (Hdisj _ Hin). left.
Qed.

Lemma compress_inv_patterns (n : nat) (patterns : list (Pattern Node * gset Chunk)) :
  NoDup patterns.*1 →
  compress_inv n (sorted pack_len false patterns) (compress patterns).
Proof.
  intros Hnd. unfold compress.
  pose proof (sorted_perm pack_len false patterns) as Hperm.
  apply (compress_fold_inv n _ [] []); simpl.
  - by rewrite Hperm.
  - split; simpl; [constructor | done | lia | | done].
    intros _ k p Hin. by apply elem_of_nil in Hin.
Qed.

(** C6. Pattern compression never increases the number of patterns, and
    every key of [self.patterns] is represented by a key of [compressed]
    that subsumes it (position-wise subsets of its active and inactive
    sets) and whose pack contains its chunks.  [patterns] is a dictionary
    (its keys are distinct) whose keys have one entry per sensitive
    value, so they all have the same length [n]. *)
Theorem compression_monotone (n : nat) (patterns : list (Pattern Node * gset Chunk)) :
  NoDup patterns.*1 →
  Forall (λ k, length k = n) patterns.*1 →
  length (compress patterns) ≤ length patterns
  ∧ NoDup (compress patterns).*1
  ∧ ∀ k1 pack1, (k1, pack1) ∈ patterns →
      ∃ k2 pack2, (k2, pack2) ∈ compress patterns ∧ subsumes k2 k1 ∧ pack1 ⊆ pack2.
Proof.
  intros Hnd Hlen.
  destruct (compress_inv_patterns n patterns Hnd) as [Hnd' _ Hle Hrep _].
  pose proof (sorted_perm pack_len false patterns) as Hperm.
  split; [by rewrite Hperm in Hle|]. split; [done|].
  intros k1 pack1 Hin. apply Hrep.
  - by rewrite Hperm.
  - by rewrite Hperm.
Qed.

(** C9. Pattern compression loses no chunk and invents none: the union
    of the packs of [compressed] is the union of the packs of
    [self.patterns]. *)
Theorem compression_keeps_chunks (patterns : list (Pattern Node * gset Chunk)) :
  NoDup patterns.*1 →
  all_chunks (compress patterns) = all_chunks patterns.
Proof.
  intros Hnd.
  destruct (compress_inv_patterns 0 patterns Hnd) as [_ _ _ _ Hch].
  rewrite Hch. unfold all_chunks.
  apply union_list_permutation_proper_L; try apply _.
  by rewrite (sorted_perm pack_len false patterns).
Qed.
End compression_facts.

(** ** Facts about [feasibility] *)

Section feasibility_facts.
Context {Node FState BState : Type} `{Countable Node}.
Context `{!Precursory Node FState}.
Context (self : BackwardInterpreter Node BState).

Lemma forced_fits key idx :
  key_fits self key → idx < length (values self) →
  forced key idx = Ok (forced_sets key idx).
Proof.
  intros Hfit Hidx. unfold forced, forced_sets.
  destruct key as [k|]; [|done]. simpl.
  destruct (Hfit k eq_refl) as [->|Hlen]; [done|].
  destruct (lookup_lt_is_Some_2 k idx) as [entry Hentry]; [lia|].
  destruct k as [|e k]; [done|]. by rewrite Hentry.
Qed.

Lemma feasibility_loop_spec state key do vs : ∀ off feasible0 patterns0 d0,
  (∀ i v, vs !! i = Some v → forced key (off + i) = Ok (forced_sets key (off + i))) →
  ∃ f ps d,
    feasibility_loop self state key do (imap (λ i v, (off + i, v)) vs)
      feasible0 patterns0 d0 = Ok (f, ps, d)
    ∧ (f = true ↔
         feasible0 = true
         ∧ ∀ i v, vs !! i = Some v → (d_at self state key (off + i) v ≤ widening self)%Z)
    ∧ (do = false → ∀ i v,
         vs !! i = Some v →
         (widening self < d_at self state key (off + i) v)%Z →
         (∀ j v', j < i → vs !! j = Some v' →
                  (d_at self state key (off + j) v' ≤ widening self)%Z) →
         f = false
         ∧ ps = patterns0 ++ imap (λ j v', pattern_at state key (off + j) v') (take i vs)
         ∧ d = d_at self state key (off + i) v).
Proof.
  induction vs as [|value vs IH]; intros off feasible0 patterns0 d0 Hforced.
  - exists feasible0, patterns0, d0. simpl. split; [done|]. split.
    + split; [intros ->; split; [done|] | by intros [-> _]].
      intros i v Hi. by rewrite lookup_nil in Hi.
    + intros _ i v Hi. by rewrite lookup_nil in Hi.
  - simpl.
    rewrite (Hforced 0 value eq_refl). simpl.
    change (disjunctions_of self
              (precursory_analyze (fwd_assume state value.2) None
                 (forced_sets key (off + 0)).1 (forced_sets key (off + 0)).2))
      with (d_at self state key (off + 0) value).
    change (precursory_analyze (fwd_assume state value.2) None
              (forced_sets key (off + 0)).1 (forced_sets key (off + 0)).2)
      with (analysis_at state key (off + 0) value).
    assert (∀ f0 p0 dd,
      feasibility_loop self state key do (imap ((λ i v, (off + i, v)) ∘ S) vs) f0 p0 dd
      = feasibility_loop self state key do (imap (λ i v, (S off + i, v)) vs) f0 p0 dd)
      as Hshift.
    { intros. f_equal. apply imap_ext. intros; simpl. f_equal. lia. }
    assert (∀ i v, vs !! i = Some v →
              forced key (S off + i) = Ok (forced_sets key (S off + i))) as Hforced'.
    { intros i v Hi. replace (S off + i) with (off + S i) by lia.
      by apply (Hforced (S i) v). }
    destruct (Z.ltb_spec (widening self) (d_at self state key (off + 0) value))
      as [Hbig | Hsmall].
    + destruct do; simpl.
      * rewrite Hshift.
        destruct (IH (S off) false
                    (patterns0 ++ [(value, (analysis_at state key (off + 0) value).1,
                                   (analysis_at state key (off + 0) value).2)])
                    (d_at self state key (off + 0) value) Hforced')
          as (f & ps & d & -> & Hf & _).
        exists f, ps, d. split; [done|]. split; [|done].
        rewrite Hf. split; [by intros [? _] | intros [_ Hall]].
        specialize (Hall 0 value eq_refl). lia.
      * exists false, patterns0, (d_at self state key (off + 0) value).
        split; [done|]. split.
        -- split; [done | intros [_ Hall]].
           specialize (Hall 0 value eq_refl). lia.
        -- intros _ i v Hi Hd Hbefore. destruct i as [|i].
           ++ simpl in Hi. simplify_eq. simpl. by rewrite app_nil_r.
           ++ specialize (Hbefore 0 value ltac:(lia) eq_refl). lia.
    + rewrite Hshift.
      destruct (IH (S off) feasible0
                  (patterns0 ++ [(value, (analysis_at state key (off + 0) value).1,
                                 (analysis_at state key (off + 0) value).2)])
                  (d_at self state key (off + 0) value) Hforced')
        as (f & ps & d & -> & Hf & Hstop).
      exists f, ps, d. split; [done|]. split.
      * rewrite Hf. split; intros [-> Hall]; (split; [done|]).
        -- intros [|i] v Hi; simpl in Hi; simplify_eq; [done|].
           replace (off + S i) with (S off + i) by lia. by apply Hall.
        -- intros i v Hi. replace (S off + i) with (off + S i) by lia.
           by apply (Hall (S i) v).
      * intros Hdo. specialize (Hstop Hdo).
        intros [|i] v Hi Hd Hbefore; simpl in Hi; [injection Hi as ->; lia|].
        replace (off + S i) with (S off + i) in * by lia.
        destruct (Hstop i v Hi Hd) as (-> & -> & ->).
        { intros j v' Hj Hv'. replace (S off + j) with (off + S j) by lia.
          apply (Hbefore (S j) v'); [lia | done]. }
        split; [done|]. split; [|done].
        simpl. rewrite <-app_assoc. simpl. f_equal. f_equal.
        apply imap_ext. intros; simpl. f_equal; f_equal; lia.
Qed.

(** A feasible partition comes with a pattern for every sensitive value. *)
Lemma feasibility_loop_true state key todo : ∀ feasible0 patterns0 d0 ps d,
  feasibility_loop self state key false todo feasible0 patterns0 d0 = Ok (true, ps, d) →
  length ps = length patterns0 + length todo.
Proof.
  induction todo as [|[idx value] todo IH]; intros feasible0 patterns0 d0 ps d; simpl.
  - intros [= _ <- _]. lia.
  - destruct (forced key idx) as [f|]; simpl; [|done].
    destruct (_ <? _)%Z; [done|].
    intros Hrec%IH. rewrite length_app in Hrec. simpl in Hrec. lia.
Qed.

Lemma feasibility_true state key ps d :
  feasibility self state key false = Ok (true, ps, d) →
  length ps = length (values self).
Proof.
  unfold feasibility, enumerate. intros Hf%feasibility_loop_true.
  by rewrite length_imap in Hf.
Qed.

(** [feasibility] returns normally on a key that fits. *)
Lemma feasibility_ok (state : FState) (key : option (Pattern Node)) (do : bool) :
  key_fits self key → ∃ r, feasibility self state key do = Ok r.
Proof.
  intros Hfit. unfold feasibility, enumerate.
  destruct (feasibility_loop_spec state key do (values self) 0 true []
              (Z.of_nat (size (activations self))))
    as (f & ps & d & Hrun & _).
  { intros i v Hi. apply forced_fits; [done|]. simpl.
    by apply lookup_lt_Some in Hi. }
  by exists (f, ps, d).
Qed.

(** C2. [feasibility] returns normally; its first component is [True]
    exactly when every sensitive value leaves at most [widening]
    disjunctions; and with [do=False] the first sensitive value that
    leaves more stops the loop: the result is [False], the patterns of the
    sensitive values before it, and its number of disjunctions.  The key,
    when given, is empty or has an entry for every sensitive value. *)
Theorem feasibility_spec (state : FState) (key : option (Pattern Node)) (do : bool) :
  key_fits self key →
  ∃ f ps d,
    feasibility self state key do = Ok (f, ps, d)
    ∧ (f = true ↔
         ∀ idx value, values self !! idx = Some value →
                      (d_at self state key idx value ≤ widening self)%Z)
    ∧ (do = false → ∀ idx value,
         values self !! idx = Some value →
         (widening self < d_at self state key idx value)%Z →
         (∀ j v, j < idx → values self !! j = Some v →
                 (d_at self state key j v ≤ widening self)%Z) →
         f = false
         ∧ ps = imap (pattern_at state key) (take idx (values self))
         ∧ d = d_at self state key idx value).
Proof.
  intros Hfit. unfold feasibility, enumerate.
  destruct (feasibility_loop_spec state key do (values self) 0 true []
              (Z.of_nat (size (activations self))))
    as (f & ps & d & Hrun & Hf & Hstop).
  { intros i v Hi. apply forced_fits; [done|]. simpl.
    by apply lookup_lt_Some in Hi. }
  exists f, ps, d. split; [exact Hrun|]. split.
  - rewrite Hf. simpl. split; [by intros [_ ?] | by intros ?].
  - intros Hdo idx value Hi Hd Hbefore.
    destruct (Hstop Hdo idx value Hi Hd Hbefore) as (-> & -> & ->). done.
Qed.
End feasibility_facts.

(** ** Facts about [from_node] *)

Section from_node_facts.
Context {Node FState BState : Type} `{Countable Node}.
Context `{!BiasDomain FState BState}.
Context (cfg : ControlFlowGraph Node) (active inactive : gset Node).


(** C3 (amended). At an activation node with statement variable [stmts]
    and popped predecessor [predecessor]: in the active set, the state is
    met with [stmts >= 0] and, unless the result is bottom (then a single
    [None] is yielded), the traversal continues at the predecessor; in
    the inactive set (and not in the active one), likewise with [stmts]
    substituted by 0 and the meet with [0 - stmts > 0]; in neither set and
    with [join] false, both states are computed from the incoming state
    and the streams of the branches that are not bottom are yielded in
    turn, a [None] standing for a bottom inactive branch, or for both. *)
Theorem from_node_activation (fuel : nat) (node predecessor : Node)
    (stmts : VariableIdentifier) (initial : BState) :
  kind cfg node = Activation stmts →
  pop_predecessor cfg node = Ok predecessor →
  let state1 := polka_meet_tcons initial (PyTexpr1_var stmts, AP_CONS_SUPEQ) in
  let state2 :=
    polka_meet_tcons (polka_substitute initial stmts (PyTexpr1_cst 0%Qc))
      (PyTexpr1_binop AP_TEXPR_SUB (PyTexpr1_cst 0%Qc) (PyTexpr1_var stmts) rtype rdir,
       AP_CONS_SUP) in
  (node ∈ active → ∀ join,
     from_node cfg active inactive (S fuel) node initial join
     = if state_is_bottom state1 then ([None], StopIteration)
       else from_node cfg active inactive fuel predecessor state1 join)
  ∧ (node ∉ active → node ∈ inactive → ∀ join,
       from_node cfg active inactive (S fuel) node initial join
       = if state_is_bottom state2 then ([None], StopIteration)
         else from_node cfg active inactive fuel predecessor state2 join)
  ∧ (node ∉ active → node ∉ inactive →
       from_node cfg active inactive (S fuel) node initial false
       = match state_is_bottom state1, state_is_bottom state2 with
         | true, true => ([None], StopIteration)
         | true, false => from_node cfg active inactive fuel predecessor state2 false
         | false, true =>
             yield_from_then (from_node cfg active inactive fuel predecessor state1 false)
               ([None], StopIteration)
         | false, false =>
             yield_from_then (from_node cfg active inactive fuel predecessor state1 false)
               (from_node cfg active inactive fuel predecessor state2 false)
         end).
Proof.
  intros Hkind Hpop state1 state2. simpl. rewrite Hkind, Hpop.
  split; [|split].
  - intros Hin join. by rewrite decide_True.
  - intros Hnin Hin join. rewrite decide_False by done. by rewrite decide_True.
  - intros Hn1 Hn2. rewrite !decide_False by done.
    fold state1 state2. unfold ReLU_call_semantics. fold state1 state2.
    by destruct (state_is_bottom state1), (state_is_bottom state2).
Qed.

(** *** Termination and the bound on the yielded states *)

Lemma yield_from_then_states (s1 s2 : Stream (option BState)) :
  length (yielded_states (yield_from_then s1 s2))
  ≤ length (yielded_states s1) + length (yielded_states s2).
Proof.
  unfold yield_from_then, yielded_states.
  destruct s1 as [l1 []], s2 as [l2 e2]; simpl; try lia.
  rewrite omap_app, length_app. lia.
Qed.

Lemma pow2_pos n : 1 ≤ 2 ^ n.
Proof. induction n; simpl; lia. Qed.

Lemma disjunctive_count_cons node path :
  disjunctive_count cfg active inactive (node :: path)
  = (if disjunctive cfg active inactive node then 1 else 0) + disjunctive_count cfg active inactive path.
Proof.
  unfold disjunctive_count. rewrite filter_cons.
  destruct (decide _) as [->|Hd]; [done|]. by destruct (disjunctive cfg active inactive node).
Qed.

Lemma from_node_bound fuel : ∀ node initial,
  length (yielded_states (from_node cfg active inactive fuel node initial false))
  ≤ 2 ^ disjunctive_count cfg active inactive (traversed_path cfg fuel node).
Proof.
  induction fuel as [|fuel IH]; intros node initial; [simpl; lia|].
  set (rest_path := match pop_predecessor cfg node with
                    | Ok predecessor => traversed_path cfg fuel predecessor
                    | Raise _ => []
                    end).
  assert (∀ state,
    length (yielded_states
              match pop_predecessor cfg node with
              | Ok predecessor => from_node cfg active inactive fuel predecessor state false
              | Raise e => ([], Raised e)
              end)
    ≤ 2 ^ disjunctive_count cfg active inactive rest_path) as Hrec.
  { intros state. unfold rest_path.
    destruct (pop_predecessor cfg node); [apply IH | simpl; lia]. }
  change (traversed_path cfg (S fuel) node) with (node :: rest_path).
  rewrite disjunctive_count_cons.
  pose proof (pow2_pos (disjunctive_count cfg active inactive rest_path)) as Hpos.
  assert (∀ a b, a ≤ 2 ^ b → a ≤ 2 ^ ((if disjunctive cfg active inactive node then 1 else 0) + b)) as Hweak.
  { intros a b Hab. destruct (disjunctive cfg active inactive node); simpl; lia. }
  unfold disjunctive. cbn [from_node].
  destruct (kind cfg node) as [stmts|stmts|] eqn:Hkind.
  - destruct (state_is_bottom _); [simpl; lia|].
    destruct (truthy _); [apply Hrec | simpl; lia].
  - destruct (decide (node ∈ active)) as [Hact|Hact].
    { rewrite bool_decide_eq_false_2 by (intros Hn; by apply Hn). simpl "&&".
      destruct (state_is_bottom _); [simpl; lia | apply Hrec]. }
    rewrite (bool_decide_eq_true_2 (node ∉ active)) by done. simpl "&&".
    destruct (decide (node ∈ inactive)) as [Hina|Hina].
    { rewrite bool_decide_eq_false_2 by (intros Hn; by apply Hn).
      destruct (state_is_bottom _); [simpl; lia | apply Hrec]. }
    rewrite bool_decide_eq_true_2 by done.
    change (2 ^ (1 + ?n)) with (2 * 2 ^ n).
    destruct (state_is_bottom (ReLU_call_semantics stmts initial true)).
    + destruct (state_is_bottom _); [simpl; lia|].
      etrans; [apply Hrec | lia].
    + etrans; [apply yield_from_then_states|].
      destruct (state_is_bottom _).
      * etrans; [apply Nat.add_le_mono; [apply Hrec | reflexivity]|]. simpl. lia.
      * etrans; [apply Nat.add_le_mono; apply Hrec|]. lia.
  - destruct (truthy _); [apply Hrec | simpl; lia].
Qed.

Lemma pop_predecessor_edge node predecessor :
  pop_predecessor cfg node = Ok predecessor →
  cfg_edge cfg node predecessor ∧ predecessor ∈ cfg_nodes cfg.
Proof.
  unfold pop_predecessor, cfg_edge, cfg_nodes.
  destruct (head (predecessors cfg node)) as [p|] eqn:Hhead; simpl; [|done].
  destruct (nodes cfg !! p) as [m|] eqn:Hp; simpl; [|done].
  intros [= <-]. split.
  - exists p. split; [by apply head_Some_elem_of | done].
  - apply list_elem_of_fmap. exists (p, m). split; [done|].
    by apply elem_of_map_to_list.
Qed.

Lemma yield_from_then_end (s1 s2 : Stream (option BState)) :
  s1.2 ≠ OutOfFuel → (s1.2 = StopIteration → s2.2 ≠ OutOfFuel) →
  (yield_from_then s1 s2).2 ≠ OutOfFuel.
Proof.
  unfold yield_from_then. destruct s1 as [l1 []]; simpl; [|done|done].
  intros _ Hs2. by apply Hs2.
Qed.

(** The body of [from_node] ends normally when its recursive calls do. *)
Lemma from_node_S_end fuel node initial join :
  (∀ predecessor state, pop_predecessor cfg node = Ok predecessor →
     (from_node cfg active inactive fuel predecessor state join).2 ≠ OutOfFuel) →
  (from_node cfg active inactive (S fuel) node initial join).2 ≠ OutOfFuel.
Proof.
  intros Hrec.
  assert (∀ state,
    (match pop_predecessor cfg node with
     | Ok predecessor => from_node cfg active inactive fuel predecessor state join
     | Raise e => ([], Raised e)
     end).2 ≠ OutOfFuel) as Hrec'.
  { intros state. destruct (pop_predecessor cfg node) eqn:Hpop; [by eapply Hrec | done]. }
  cbn [from_node].
  destruct (kind cfg node) as [stmts|stmts|].
  - destruct (state_is_bottom _); [done|]. destruct (truthy _); [apply Hrec' | done].
  - destruct (decide _); [destruct (state_is_bottom _); [done | apply Hrec']|].
    destruct (decide _); [destruct (state_is_bottom _); [done | apply Hrec']|].
    destruct join; [apply Hrec'|].
    destruct (state_is_bottom (ReLU_call_semantics stmts initial true)).
    + destruct (state_is_bottom _); [done | apply Hrec'].
    + apply yield_from_then_end; [apply Hrec'|]. intros _.
      destruct (state_is_bottom _); [done | apply Hrec'].
  - destruct (truthy _); [apply Hrec' | done].
Qed.

Lemma from_node_ends_aux (Hacyclic : acyclic cfg) k : ∀ visited node,
  NoDup visited → visited ⊆ cfg_nodes cfg → node ∈ cfg_nodes cfg →
  (∀ v, v ∈ visited → tc (cfg_edge cfg) v node) →
  length (cfg_nodes cfg) < k + length visited →
  ∀ initial join, (from_node cfg active inactive k node initial join).2 ≠ OutOfFuel.
Proof.
  induction k as [|k IH]; intros visited node Hnd Hsub Hnode Hreach Hlen initial join.
  - exfalso.
    assert (NoDup (node :: visited)) as Hnd'.
    { apply NoDup_cons. split; [|done]. intros Hin. apply (Hacyclic node). by apply Hreach. }
    assert (node :: visited ⊆+ cfg_nodes cfg) as Hle.
    { apply NoDup_submseteq; [done|]. intros x [->|Hx]%elem_of_cons; [done | by apply Hsub]. }
    apply submseteq_length in Hle. simpl in *. lia.
  - apply from_node_S_end. intros predecessor state Hpop.
    apply pop_predecessor_edge in Hpop as [Hedge Hin].
    apply (IH (node :: visited)).
    + apply NoDup_cons. split; [|done]. intros Hv. apply (Hacyclic node). by apply Hreach.
    + intros x [->|Hx]%elem_of_cons; [done | by apply Hsub].
    + done.
    + intros v [->|Hv]%elem_of_cons; [by apply tc_once|].
      eapply tc_r; [by apply Hreach | done].
    + simpl. lia.
Qed.

Lemma from_node_ends (Hacyclic : acyclic cfg) node initial join :
  (from_node cfg active inactive (S (S (size (nodes cfg)))) node initial join).2
  ≠ OutOfFuel.
Proof.
  apply from_node_S_end. intros predecessor state Hpop.
  apply pop_predecessor_edge in Hpop as [_ Hin].
  apply (from_node_ends_aux Hacyclic _ []); [constructor | | done | | ].
  - intros x Hx. by apply elem_of_nil in Hx.
  - intros v Hv. by apply elem_of_nil in Hv.
  - unfold cfg_nodes. rewrite length_fmap, length_map_to_list. simpl. lia.
Qed.

Lemma yield_from_then_eq (s1 s2 s1' s2' : Stream (option BState)) :
  s1' = s1 → (s1.2 = StopIteration → s2' = s2) →
  yield_from_then s1' s2' = yield_from_then s1 s2.
Proof.
  intros -> Hs2. unfold yield_from_then. destruct s1 as [l1 []]; simpl in *; [|done|done].
  by rewrite Hs2.
Qed.

(** More fuel does not change a run that was not cut short. *)
Lemma from_node_fuel fuel : ∀ node initial join fuel',
  (from_node cfg active inactive fuel node initial join).2 ≠ OutOfFuel →
  fuel ≤ fuel' →
  from_node cfg active inactive fuel' node initial join
  = from_node cfg active inactive fuel node initial join.
Proof.
  induction fuel as [|fuel IH]; intros node initial join fuel' Hend Hle; [done|].
  destruct fuel' as [|fuel']; [lia|].
  assert (∀ state,
    (match pop_predecessor cfg node with
     | Ok predecessor => from_node cfg active inactive fuel predecessor state join
     | Raise e => ([], Raised e)
     end).2 ≠ OutOfFuel →
    match pop_predecessor cfg node with
    | Ok predecessor => from_node cfg active inactive fuel' predecessor state join
    | Raise e => ([], Raised e)
    end
    = match pop_predecessor cfg node with
      | Ok predecessor => from_node cfg active inactive fuel predecessor state join
      | Raise e => ([], Raised e)
      end) as Hrec.
  { intros state Hs. destruct (pop_predecessor cfg node); [|done].
    apply IH; [done | lia]. }
  cbn [from_node] in *.
  destruct (kind cfg node) as [stmts|stmts|].
  - destruct (state_is_bottom _); [done|]. destruct (truthy _); [by apply Hrec | done].
  - destruct (decide _); [destruct (state_is_bottom _); [done | by apply Hrec]|].
    destruct (decide _); [destruct (state_is_bottom _); [done | by apply Hrec]|].
    destruct join; [by apply Hrec|].
    destruct (state_is_bottom (ReLU_call_semantics stmts initial true)).
    + destruct (state_is_bottom _); [done | by apply Hrec].
    + set (s1 := match pop_predecessor cfg node with
                 | Ok predecessor =>
                     from_node cfg active inactive fuel predecessor
                       (ReLU_call_semantics stmts initial true) false
                 | Raise e => ([], Raised e)
                 end) in *.
      assert (s1.2 ≠ OutOfFuel) as Hs1.
      { intros Hs1. apply Hend. unfold yield_from_then. by rewrite Hs1. }
      apply yield_from_then_eq; [by apply Hrec|].
      intros Hstop. destruct (state_is_bottom _); [done|].
      apply Hrec. intros Hs2. apply Hend. unfold yield_from_then. by rewrite Hstop.
  - destruct (truthy _); [by apply Hrec | done].
Qed.

(** The path from a node to the entry of an acyclic graph is complete
    within [|cfg.nodes| + 2] steps. *)
Lemma traversed_path_aux (Hacyclic : acyclic cfg) k : ∀ visited node,
  NoDup visited → visited ⊆ cfg_nodes cfg → node ∈ cfg_nodes cfg →
  (∀ v, v ∈ visited → tc (cfg_edge cfg) v node) →
  length (cfg_nodes cfg) < k + length visited →
  ∀ fuel', k ≤ fuel' → traversed_path cfg fuel' node = traversed_path cfg k node.
Proof.
  induction k as [|k IH]; intros visited node Hnd Hsub Hnode Hreach Hlen fuel' Hle.
  - exfalso.
    assert (NoDup (node :: visited)) as Hnd'.
    { apply NoDup_cons. split; [|done]. intros Hin. apply (Hacyclic node). by apply Hreach. }
    assert (node :: visited ⊆+ cfg_nodes cfg) as Hsm.
    { apply NoDup_submseteq; [done|]. intros x [->|Hx]%elem_of_cons; [done | by apply Hsub]. }
    apply submseteq_length in Hsm. simpl in *. lia.
  - destruct fuel' as [|fuel']; [lia|]. simpl. f_equal.
    destruct (pop_predecessor cfg node) as [predecessor|] eqn:Hpop; [|done].
    apply pop_predecessor_edge in Hpop as [Hedge Hin].
    apply (IH (node :: visited)); [| | done | | simpl; lia | lia].
    + apply NoDup_cons. split; [|done]. intros Hv. apply (Hacyclic node). by apply Hreach.
    + intros x [->|Hx]%elem_of_cons; [done | by apply Hsub].
    + intros v [->|Hv]%elem_of_cons; [by apply tc_once|].
      eapply tc_r; [by apply Hreach | done].
Qed.

Lemma traversed_path_fuel (Hacyclic : acyclic cfg) node fuel' :
  S (S (size (nodes cfg))) ≤ fuel' →
  traversed_path cfg fuel' node = traversed_path cfg (S (S (size (nodes cfg)))) node.
Proof.
  intros Hle. destruct fuel' as [|fuel']; [lia|].
  remember (S (size (nodes cfg))) as k eqn:Hk. simpl. f_equal.
  destruct (pop_predecessor cfg node) as [predecessor|] eqn:Hpop; [|done].
  apply pop_predecessor_edge in Hpop as [_ Hin].
  apply (traversed_path_aux Hacyclic _ []); [constructor | | done | | | lia].
  - intros x Hx. by apply elem_of_nil in Hx.
  - intros v Hv. by apply elem_of_nil in Hv.
  - unfold cfg_nodes. rewrite length_fmap, length_map_to_list. simpl. lia.
Qed.

(** C4. On an acyclic graph (with its finitely many nodes), [from_node]
    with [join] false terminates: the run with fuel
    [|cfg.nodes| + 2] is not cut short and every larger fuel gives the same
    run; and the states it yields, hence those that are not bottom, are
    at most 2 to the number of activation nodes on the traversed path
    (the whole path from the node to the entry of the graph) that are in
    neither the active nor the inactive set. *)
Theorem from_node_terminates (node : Node) (initial : BState) :
  acyclic cfg →
  let fuel := S (S (size (nodes cfg))) in
  (from_node cfg active inactive fuel node initial false).2 ≠ OutOfFuel
  ∧ (∀ fuel', fuel ≤ fuel' →
       from_node cfg active inactive fuel' node initial false
       = from_node cfg active inactive fuel node initial false
       ∧ traversed_path cfg fuel' node = traversed_path cfg fuel node)
  ∧ length (non_bottom_states (from_node cfg active inactive fuel node initial false))
    ≤ length (yielded_states (from_node cfg active inactive fuel node initial false))
  ∧ length (yielded_states (from_node cfg active inactive fuel node initial false))
    ≤ 2 ^ disjunctive_count cfg active inactive (traversed_path cfg fuel node).
Proof.
  intros Hacyclic fuel.
  pose proof (from_node_ends Hacyclic node initial false) as Hend.
  split; [exact Hend|]. split; [|split].
  - intros fuel' Hle. split; [by apply from_node_fuel | by apply traversed_path_fuel].
  - unfold non_bottom_states. apply length_filter.
  - apply from_node_bound.
Qed.
End from_node_facts.

(** ** Facts about [bias_check] *)

Lemma fold_left_bind {A B C} (f : C → B → C) (g : A → list B) (l : list A) (c : C) :
  fold_left f (l ≫= g) c = fold_left (λ c x, fold_left f (g x) c) l c.
Proof.
  revert c. induction l as [|x l IH]; intros c; [done|].
  rewrite bind_cons, fold_left_app. apply IH.
Qed.

Lemma fold_left_ext_in {A B} (f g : B → A → B) (l : list A) (b : B) :
  (∀ b x, x ∈ l → f b x = g b x) → fold_left f l b = fold_left g l b.
Proof.
  revert b. induction l as [|x l IH]; intros b Hfg; [done|]. simpl.
  rewrite Hfg by left. apply IH. intros b' y Hy. apply Hfg. by right.
Qed.

Section bias_check_facts.
Context {Node FState BState : Type} `{Countable Node}.
Context `{!BiasDomain FState BState} `{!PyStr}.
Context (self : BackwardInterpreter Node BState).
Implicit Types (items : list ((VariableIdentifier * VariableIdentifier) * list BState)).

Lemma check_pair_pairs ranges0 items i st j :
  check_pair self ranges0 items i st j
  = fold_left (check_states self ranges0) (pairs_at items i j) st.
Proof.
  unfold check_pair, pairs_at.
  destruct (items !! i) as [[[outcome1 sensitive1] value1]|]; [|done].
  destruct (items !! j) as [[[outcome2 sensitive2] value2]|]; [|done].
  destruct (_ && _); [|done].
  rewrite fold_left_bind. apply fold_left_ext_in. intros b val1 _.
  rewrite fold_left_bind. apply fold_left_ext_in. by intros b' val2 _.
Qed.

(** The scan is the fold of the loop body over the examined pairs. *)
Lemma bias_scan_pairs ranges0 items :
  bias_scan self ranges0 items
  = fold_left (check_states self ranges0) (examined_pairs items)
      {| nobias := true; biases := ∅; b_ranges := [] |}.
Proof.
  unfold bias_scan, examined_pairs.
  rewrite fold_left_bind. apply fold_left_ext_in. intros st i _.
  rewrite fold_left_bind. apply fold_left_ext_in. intros st' j _.
  apply check_pair_pairs.
Qed.

(** The listed pairs are exactly the ones to examine. *)
Lemma examined_pairs_spec items val1 val2 :
  (val1, val2) ∈ examined_pairs items ↔ examined items val1 val2.
Proof.
  unfold examined_pairs, examined. rewrite list_elem_of_bind. split.
  - intros (i & (j & Hij & Hj)%list_elem_of_bind & Hi).
    apply elem_of_seq in Hi, Hj. unfold pairs_at in Hij.
    destruct (items !! i) as [[[outcome1 sensitive1] value1]|] eqn:Hli;
      [|by apply elem_of_nil in Hij].
    destruct (items !! j) as [[[outcome2 sensitive2] value2]|] eqn:Hlj;
      [|by apply elem_of_nil in Hij].
    destruct (bool_decide (outcome1 ≠ outcome2)) eqn:Ho;
      [|by apply elem_of_nil in Hij].
    destruct (bool_decide (sensitive1 ≠ sensitive2)) eqn:Hs;
      [|by apply elem_of_nil in Hij].
    simpl in Hij.
    apply list_elem_of_bind in Hij as (v1 & (v2 & Hv%list_elem_of_singleton & Hv2)%list_elem_of_bind & Hv1).
    simplify_eq.
    exists i, j, outcome1, sensitive1, value1, outcome2, sensitive2, value2.
    apply bool_decide_eq_true in Ho, Hs. repeat split; try done. lia.
  - intros (i & j & outcome1 & sensitive1 & value1 & outcome2 & sensitive2 & value2
            & Hij & Hli & Hlj & Ho & Hs & Hv1 & Hv2).
    pose proof (lookup_lt_Some _ _ _ Hli). pose proof (lookup_lt_Some _ _ _ Hlj).
    exists i. split; [|apply elem_of_seq; lia].
    apply list_elem_of_bind. exists j. split; [|apply elem_of_seq; lia].
    unfold pairs_at. rewrite Hli, Hlj.
    rewrite !bool_decide_eq_true_2 by done. simpl.
    apply list_elem_of_bind. exists val1. split; [|done].
    apply list_elem_of_bind. exists val2. split; [left | done].
Qed.

Lemma nobias_fold ranges0 (pairs : list (BState * BState)) st :
  nobias (fold_left (check_states self ranges0) pairs st) = false
  ↔ nobias st = false
    ∨ ∃ val1 val2, (val1, val2) ∈ pairs
                   ∧ is_bias (polka_repr (intersection_of self ranges0 val1 val2)) = true.
Proof.
  revert st. induction pairs as [|[val1 val2] pairs IH]; intros st; simpl.
  - split; [by left | intros [?|(? & ? & Hin & _)]; [done | by apply elem_of_nil in Hin]].
  - rewrite IH. unfold check_states at 1. simpl.
    destruct (is_bias (polka_repr (intersection_of self ranges0 val1 val2))) eqn:Hb.
    + split; [intros _; right; exists val1, val2; split; [left | done]|].
      intros _. left. by destruct (decide _).
    + split.
      * intros [?|(v1 & v2 & Hin & Hv)]; [by left|].
        right. exists v1, v2. split; [by right | done].
      * intros [?|(v1 & v2 & Hin & Hv)]; [by left|].
        apply elem_of_cons in Hin as [[= -> ->]|Hin]; [congruence|].
        right. by exists v1, v2.
Qed.

Lemma nobias_witness ranges0 items :
  nobias (bias_scan self ranges0 items) = false ↔ bias_witness self ranges0 items.
Proof.
  rewrite bias_scan_pairs, nobias_fold. simpl. unfold bias_witness. split.
  - intros [?|(v1 & v2 & Hin & Hv)]; [done|].
    exists v1, v2. by rewrite <-examined_pairs_spec.
  - intros (v1 & v2 & Hex & Hv). right. exists v1, v2.
    by rewrite examined_pairs_spec.
Qed.

Lemma fold_volume (box : list (Qc * Qc)) (a : Qc) :
  fold_left (λ t r, let '(lower, upper) := r in (t * (upper - lower))%Qc) box a
  = (a * volume box)%Qc.
Proof.
  revert a. induction box as [|[lower upper] box IH]; intros a; simpl.
  - ring.
  - rewrite IH. ring.
Qed.

Lemma total_size_volume ranges0 : total_size ranges0 = volume ranges0.*2.
Proof.
  unfold total_size.
  transitivity (fold_left (λ t r, let '(lower, upper) := r in (t * (upper - lower))%Qc)
                  ranges0.*2 1%Qc).
  - generalize 1%Qc. induction ranges0 as [|[f [l u]] ranges0 IH]; intros a; [done|].
    simpl. apply IH.
  - rewrite fold_volume. ring.
Qed.

Lemma biased_size_volume b : biased_size b = volume b.*2.
Proof. unfold biased_size. rewrite fold_volume. ring. Qed.

(** C1. The scan of [bias_check] runs the loop body exactly over the
    pairs of states taken from entries [i < j] of the check dictionary
    with different output classes and different sensitive values; when
    none of them is a witness nothing is added to [self.biased]; when one
    is, the amount added is [percent] times the volume of [b_ranges]
    divided by the volume of [ranges] (the division raises when that
    volume is zero). *)
Theorem bias_check_spec (chunk : string)
    (items : list ((VariableIdentifier * VariableIdentifier) * list BState))
    (ranges0 : list (VariableIdentifier * (Qc * Qc))) (percent0 biased : Qc) :
  (∃ pairs,
     bias_scan self ranges0 items
     = fold_left (check_states self ranges0) pairs
         {| nobias := true; biases := ∅; b_ranges := [] |}
     ∧ ∀ val1 val2, (val1, val2) ∈ pairs ↔ examined items val1 val2)
  ∧ (nobias (bias_scan self ranges0 items) = false ↔ bias_witness self ranges0 items)
  ∧ (¬ bias_witness self ranges0 items →
     bias_check self chunk items ranges0 percent0 biased = Ok biased)
  ∧ (bias_witness self ranges0 items →
     bias_check self chunk items ranges0 percent0 biased
     = if decide (volume ranges0.*2 = 0%Qc) then Raise ZeroDivisionError
       else Ok (biased
                + percent0 * volume (b_ranges (bias_scan self ranges0 items)).*2
                  / volume ranges0.*2)%Qc).
Proof.
  split; [|split; [|split]].
  - exists (examined_pairs items). split; [apply bias_scan_pairs|].
    intros. apply examined_pairs_spec.
  - apply nobias_witness.
  - intros Hno. unfold bias_check.
    destruct (nobias (bias_scan self ranges0 items)) eqn:Hnb; [done|].
    by apply nobias_witness in Hnb.
  - intros Hw. apply nobias_witness in Hw. unfold bias_check. rewrite Hw.
    rewrite total_size_volume, biased_size_volume. unfold pydiv.
    by destruct (decide _).
Qed.

Lemma b_ranges_fixed ranges0 (pairs : list (BState * BState)) st :
  uncontroversial2 self = [] →
  b_ranges (fold_left (check_states self ranges0) pairs st) = b_ranges st.
Proof.
  intros Hunc. revert st. induction pairs as [|p pairs IH]; intros st; [done|].
  simpl. rewrite IH. unfold check_states. rewrite Hunc.
  destruct (is_bias _); [|done]. by destruct (decide _).
Qed.

(** C10. With no custom encoded uncontroversial feature ([ranges] and
    [self.uncontroversial2] empty) both volumes are empty products, equal
    to 1, and a chunk with a witness adds its whole [percent] to
    [self.biased]. *)
Theorem bias_check_no_ranges (chunk : string)
    (items : list ((VariableIdentifier * VariableIdentifier) * list BState))
    (percent0 biased : Qc) :
  uncontroversial2 self = [] →
  bias_witness self [] items →
  total_size [] = 1%Qc
  ∧ biased_size (b_ranges (bias_scan self [] items)) = 1%Qc
  ∧ bias_check self chunk items [] percent0 biased = Ok (biased + percent0)%Qc.
Proof.
  intros Hunc Hw.
  assert (b_ranges (bias_scan self [] items) = []) as Hb.
  { rewrite bias_scan_pairs. by rewrite b_ranges_fixed. }
  split; [done|]. split; [by rewrite Hb|].
  apply nobias_witness in Hw. unfold bias_check. rewrite Hw, Hb.
  unfold pydiv. cbn. rewrite decide_False by done. simpl.
  f_equal. unfold biased_size, total_size. simpl. field. done.
Qed.
End bias_check_facts.

(** ** Facts about Worker 1: the percents *)

Lemma mapM_result_Forall2 {A B} (f : A → result B) (l : list A) (k : list B) :
  mapM f l = Ok k → Forall2 (λ x y, f x = Ok y) l k.
Proof.
  revert k. induction l as [|x l IH]; intros k; simpl.
  - intros [= <-]. constructor.
  - destruct (f x) as [y|e] eqn:Hfx; simpl; [|done].
    destruct (mapM f l) as [k'|e]; simpl; [|done].
    intros [= <-]. constructor; [done | by apply IH].
Qed.

Lemma Qc_of_nat_add a b : Qc_of_nat (a + b) = (Qc_of_nat a + Qc_of_nat b)%Qc.
Proof. unfold Qc_of_nat. by rewrite Nat2Z.inj_add, Z2Qc_inj_add. Qed.

Lemma Qc_of_nat_0 n : Qc_of_nat n = 0%Qc → n = 0.
Proof.
  unfold Qc_of_nat. rewrite <-Z2Qc_inj_0. intros Hn%Z2Qc_inj. lia.
Qed.

Section worker1_facts.
Context {Node FState BState : Type} `{Countable Node}.
Context `{!Precursory Node FState} `{!BiasDomain FState BState} `{!PyStr} `{machine : !Machine}.
Context (self : BackwardInterpreter Node BState).
Implicit Types (sh : Shared Node) (t : Task Node) (item : QItem Node).

Lemma Qc_sum_app (l1 l2 : list Qc) : Qc_sum (l1 ++ l2) = (Qc_sum l1 + Qc_sum l2)%Qc.
Proof. induction l1 as [|x l1 IH]; simpl; [ring | rewrite IH; ring]. Qed.

Lemma pending_put item sh : pending (put item sh) = (pending sh + item_percent item)%Qc.
Proof. unfold pending, put. simpl. rewrite fmap_app, Qc_sum_app. simpl. ring. Qed.

Lemma queued_tasks_put_task t sh :
  queued_tasks (put (Partition t) sh) = queued_tasks sh ++ [t].
Proof. unfold queued_tasks, put. simpl. by rewrite omap_app. Qed.

Lemma add_explored_spec p sh :
  explored (add_explored p sh) = (explored sh + p)%Qc
  ∧ feasible (add_explored p sh) = feasible sh
  ∧ pending (add_explored p sh) = pending sh
  ∧ patterns (add_explored p sh) = patterns sh
  ∧ packs (add_explored p sh) = packs sh
  ∧ queued_tasks (add_explored p sh) = queued_tasks sh.
Proof.
  unfold add_explored. destruct (decide _); simpl; [|done].
  repeat split; try done.
  - rewrite pending_put. simpl. unfold pending. simpl. ring.
  - unfold queued_tasks. simpl. rewrite omap_app. simpl. by rewrite app_nil_r.
Qed.

(** A 1-hot split posts [percent * |pack| / count] for every pack. *)
Lemma pack_task_percent t key' pack task :
  pack_task self t (key', pack) = Ok task →
  Qc_of_nat (count self) ≠ 0%Qc
  ∧ percent task = (percent t * Qc_of_nat (size pack) / Qc_of_nat (count self))%Qc
  ∧ ranges task = ranges t ∧ pivot2 task = pivot2 t ∧ splittable task = splittable t
  ∧ pivot1 task = length (uncontroversial1 self).
Proof.
  unfold pack_task.
  destruct (or_raise _ _) as [first|]; simpl; [|done].
  destruct (mapM _ _) as [extra|]; simpl; [|done].
  unfold pydiv. destruct (decide _) as [|Hc]; simpl; [done|].
  by intros [= <-].
Qed.

Lemma pack_tasks_percent t (packs0 : list (Pattern Node * gset OneHotN))
    (tasks : list (Task Node)) :
  mapM (pack_task self t) packs0 = Ok tasks →
  (Qc_sum (percent <$> tasks) * Qc_of_nat (count self)
   = percent t * Qc_of_nat (sizes packs0))%Qc.
Proof.
  intros Hm%mapM_result_Forall2. unfold sizes.
  induction Hm as [|[key' pack] task packs0 tasks Htask _ IH].
  - simpl. change (Qc_of_nat 0) with (Qc_of_Z 0). rewrite Z2Qc_inj_0. ring.
  - apply pack_task_percent in Htask as (Hc & Hp & _).
    rewrite !fmap_cons. cbn [Qc_sum foldr sum_list snd id]. rewrite Hp.
    rewrite Qc_of_nat_add.
    set (rest := Qc_sum (percent <$> tasks)) in *.
    transitivity (percent t * Qc_of_nat (size pack) / Qc_of_nat (count self)
                  * Qc_of_nat (count self)
                  + rest * Qc_of_nat (count self))%Qc;
      [unfold rest, Qc_sum; field; done|].
    rewrite IH. field. done.
Qed.

Lemma sum_sizes_perm (l1 l2 : list (Pattern Node * gset OneHotN)) :
  l1 ≡ₚ l2 →
  sizes l1 = sizes l2.
Proof. intros Hp. unfold sizes. by rewrite Hp. Qed.

(** What one iteration on a chunk does to the percents: the explored
    counter and the queue together gain exactly the percent of the chunk
    that left the queue. *)
Lemma worker1_chunk_percent t sh sh' :
  count self ≠ 0 →
  worker1_chunk self t sh = Ok sh' →
  (explored sh' + pending sh' = explored sh + pending sh + percent t)%Qc
  ∧ feasible sh' = (feasible sh + Qc_sum (recorded_by self t))%Qc
  ∧ explored sh'
    = (explored sh + Qc_sum (recorded_by self t) + Qc_sum (abandoned_by self t))%Qc.
Proof.
  intros Hcount. unfold worker1_chunk, recorded_by, abandoned_by.
  destruct (feasibility self (chunk_entry self t) (key t) false)
    as [[[feasible' patterns'] d]|]; simpl; [|done].
  destruct feasible'.
  - intros [= <-]. simpl.
    match goal with |- context [add_explored ?p ?s] =>
      destruct (add_explored_spec p s) as (He & Hf & Hp & _) end.
    rewrite He. unfold pending in *. simpl in *. rewrite Hp, Hf. simpl.
    repeat split; ring.
  - destruct (pivot1 t <? length (uncontroversial1 self)).
    + destruct (packing self _ _) as [packs'|] eqn:Hpack; simpl; [|done].
      destruct (mapM _ _) as [tasks|] eqn:Htasks; simpl; [|done].
      intros [= <-]. simpl. split; [|split; ring].
      unfold pending. simpl. rewrite fmap_app, Qc_sum_app.
      rewrite <-list_fmap_compose.
      change (item_percent ∘ Partition) with (percent (Node:=Node)).
      apply pack_tasks_percent in Htasks.
      rewrite (sum_sizes_perm _ _ (sorted_perm _ true packs')) in Htasks.
      unfold packing in Hpack. destruct (decide _) as [Heq|]; [|done].
      injection Hpack as <-. rewrite <-Heq in Htasks.
      assert (Qc_of_nat (count self) ≠ 0%Qc) as Hc by (intros ?%Qc_of_nat_0; done).
      assert (Qc_sum (percent <$> tasks) = percent t) as ->.
      { rewrite <-(Qcdiv_mult_l (Qc_sum (percent <$> tasks)) _ Hc), Htasks.
        by apply Qcdiv_mult_l. }
      ring.
    + destruct (truthy (uncontroversial2 self) && truthy (splittable t)).
      * destruct (or_raise IndexError _) as [f|]; simpl; [|done].
        destruct (or_raise KeyError _) as [[lower upper]|]; simpl; [|done].
        destruct (decide _).
        -- destruct (or_raise ValueError _) as [_splittable|]; simpl; [|done].
           intros [= <-]. rewrite pending_put. simpl. repeat split; ring.
        -- intros [= <-]. rewrite !pending_put. simpl. repeat split; try ring.
           field. done.
      * intros [= <-]. simpl.
        destruct (add_explored_spec (percent t) sh) as (He & Hf & Hp & _).
        rewrite He, Hp, Hf. repeat split; ring.
Qed.

Lemma pending_remove before item rest packs0 patterns0 partitions0 feasible0 explored0 :
  pending {| queue1 := before ++ item :: rest; packs := packs0; patterns := patterns0;
             partitions := partitions0; feasible := feasible0; explored := explored0 |}
  = (pending {| queue1 := before ++ rest; packs := packs0; patterns := patterns0;
                partitions := partitions0; feasible := feasible0;
                explored := explored0 |}
     + item_percent item)%Qc.
Proof.
  unfold pending. simpl. rewrite !fmap_app, fmap_cons, !Qc_sum_app. simpl. ring.
Qed.

Lemma pending_no_task sh : queued_tasks sh = [] → pending sh = 0%Qc.
Proof.
  unfold queued_tasks, pending. generalize (queue1 sh). intros q.
  induction q as [|[t|] q IH]; [done | done |].
  rewrite fmap_cons. cbn [omap Qc_sum foldr item_percent]. intros Hq.
  change (foldr Qcplus 0%Qc (item_percent <$> q)) with (Qc_sum (item_percent <$> q)).
  rewrite IH by done. ring.
Qed.

(** What an iteration on a chunk posts, branch by branch. *)
Lemma worker1_chunk_posts t sh sh' :
  worker1_chunk self t sh = Ok sh' →
  ∃ posts : list (Task Node),
    queued_tasks sh' = queued_tasks sh ++ posts
    ∧ match feasibility self (chunk_entry self t) (key t) false with
      | Ok (true, _, _) => posts = []
      | Ok (false, _, _) =>
          if pivot1 t <? length (uncontroversial1 self) then
            ∃ packs',
              packing self (chunk_entry self t) (packs sh) = Ok packs'
              ∧ sizes packs' = count self
              ∧ Forall2 (λ kp task,
                           percent task
                           = (percent t * Qc_of_nat (size kp.2)
                              / Qc_of_nat (count self))%Qc)
                  (sorted (rank (Node:=Node)) true packs') posts
          else if truthy (uncontroversial2 self) && truthy (splittable t) then
            (∃ t', posts = [t'] ∧ percent t' = percent t)
            ∨ (∃ left right, posts = [left; right]
                             ∧ percent left = (percent t / 2)%Qc
                             ∧ percent right = (percent t / 2)%Qc)
          else posts = []
      | Raise _ => False
      end.
Proof.
  unfold worker1_chunk.
  destruct (feasibility self (chunk_entry self t) (key t) false)
    as [[[feasible' patterns'] d]|]; simpl; [|done].
  destruct feasible'.
  - intros [= <-]. exists []. split; [|done]. rewrite app_nil_r.
    match goal with |- context [add_explored ?p ?s] =>
      destruct (add_explored_spec p s) as (_ & _ & _ & _ & _ & Hq) end.
    unfold queued_tasks in *. simpl in *. by rewrite Hq.
  - destruct (pivot1 t <? length (uncontroversial1 self)).
    + destruct (packing self _ _) as [packs'|] eqn:Hpack; simpl; [|done].
      destruct (mapM _ _) as [tasks|] eqn:Htasks; simpl; [|done].
      intros [= <-]. exists tasks. split.
      * unfold queued_tasks. simpl. rewrite omap_app. f_equal.
        clear. induction tasks as [|task tasks IH]; [done|]. cbn. f_equal. exact IH.
      * exists packs'. split; [done|]. split.
        -- unfold packing in Hpack. destruct (decide _) as [Heq|]; [|done].
           by injection Hpack as <-.
        -- apply mapM_result_Forall2 in Htasks.
           eapply Forall2_impl; [exact Htasks|].
           intros [key' pack] task Hpt. by apply pack_task_percent in Hpt as (_ & -> & _).
    + destruct (truthy (uncontroversial2 self) && truthy (splittable t)).
      * destruct (or_raise IndexError _) as [f|]; simpl; [|done].
        destruct (or_raise KeyError _) as [[lower upper]|]; simpl; [|done].
        destruct (decide _).
        -- destruct (or_raise ValueError _) as [_splittable|]; simpl; [|done].
           intros [= <-]. eexists. split; [apply queued_tasks_put_task|].
           left. eexists. split; [done|]. done.
        -- intros [= <-]. eexists. split.
           ++ rewrite !queued_tasks_put_task, <-app_assoc. done.
           ++ right. eexists _, _. split; [done|]. done.
      * intros [= <-]. exists []. split; [|done]. rewrite app_nil_r.
        by destruct (add_explored_spec (percent t) sh) as (_ & _ & _ & _ & _ & ->).
Qed.

(** The executions with their bookkeeping are the executions of the step
    relation. *)
Lemma worker1_run_steps sh recorded abandoned :
  worker1_run self sh recorded abandoned →
  rtc (worker1_step self) (initial_shared self) sh.
Proof.
  induction 1 as [|sh sh' recorded abandoned before t rest _ IH Hq Hstep
                  |sh recorded abandoned before rest _ IH Hq].
  - constructor.
  - eapply rtc_r; [exact IH|]. by eapply (worker1_get self _ (Partition t)).
  - eapply rtc_r; [exact IH|]. by eapply (worker1_get self _ NoMoreChunks).
Qed.

Lemma worker1_steps_run sh :
  rtc (worker1_step self) (initial_shared self) sh →
  ∃ recorded abandoned, worker1_run self sh recorded abandoned.
Proof.
  revert sh.
  apply (rtc_ind_r (λ sh, ∃ recorded abandoned, worker1_run self sh recorded abandoned)).
  - exists [], []. constructor.
  - intros sh1 sh2 _ Hstep (recorded & abandoned & Hrun).
    destruct Hstep as [before [t|] rest sh1 sh2 Hq Hitem].
    + eexists _, _. by eapply run_chunk.
    + simpl in Hitem. injection Hitem as <-. eexists _, _. by eapply run_sentinel.
Qed.

End worker1_facts.

(** ** Facts about Worker 1: the shape of the chunks *)

Section pydict_index.
Context {K V : Type} `{EqDecision K}.
Implicit Types (d : list (K * V)).

Lemma dict_index_split d i k v :
  NoDup d.*1 → d !! i = Some (k, v) →
  d = take i d ++ (k, v) :: drop (S i) d ∧ k ∉ (take i d).*1.
Proof.
  intros Hnd Hi. pose proof (take_drop_middle d i (k, v) Hi) as Hd.
  split; [done|]. rewrite <-Hd in Hnd.
  rewrite fmap_app, fmap_cons in Hnd. apply NoDup_app in Hnd as (_ & Hdisj & _).
  intros Hk. apply (Hdisj _ Hk). left.
Qed.

Lemma dict_get_index d i k v :
  NoDup d.*1 → d !! i = Some (k, v) → dict_get k d = Some v.
Proof.
  intros Hnd Hi. destruct (dict_index_split d i k v Hnd Hi) as [Hd Hk].
  rewrite Hd. by apply dict_get_mid.
Qed.

Lemma dict_set_index d i k v v' :
  NoDup d.*1 → d !! i = Some (k, v) → dict_set k v' d = <[i := (k, v')]> d.
Proof.
  intros Hnd Hi. destruct (dict_index_split d i k v Hnd Hi) as [Hd Hk].
  rewrite Hd at 1. rewrite dict_set_mid by done.
  rewrite <-(take_drop_middle d i (k, v) Hi) at 3.
  pose proof (lookup_lt_Some _ _ _ Hi) as Hlt.
  rewrite insert_app_r_alt by (rewrite length_take; lia).
  rewrite length_take. replace (i - i `min` length d) with 0 by lia. done.
Qed.
End pydict_index.

Lemma list_remove_first_head {A} `{EqDecision A} (x : A) (l : list A) :
  list_remove_first x (x :: l) = Some l.
Proof. simpl. by rewrite decide_True. Qed.

Lemma list_remove_first_elem {A} `{EqDecision A} (x : A) (l : list A) :
  x ∈ l → ∃ l', list_remove_first x l = Some l' ∧ l ≡ₚ x :: l'.
Proof.
  induction l as [|y l IH]; intros Hin; [by apply elem_of_nil in Hin|]. simpl.
  destruct (decide (y = x)) as [->|Hne]; [by exists l|].
  apply elem_of_cons in Hin as [->|Hin]; [done|].
  destruct (IH Hin) as (l' & -> & Hp). exists (y :: l'). split; [done|].
  rewrite Hp. apply Permutation_swap.
Qed.

Lemma Qc_half_pos (W : Qc) : (0 < W)%Qc → (0 < W / 2)%Qc.
Proof. intros HW. apply Qcmult_pos_pos; [done|]. by apply Qcinv_pos. Qed.

Section task_wf_facts.
Context {Node FState BState : Type} `{Countable Node}.
Context `{!Precursory Node FState} `{!BiasDomain FState BState} `{!PyStr} `{machine : !Machine}.
Context (self : BackwardInterpreter Node BState).
Implicit Types (sh : Shared Node) (t : Task Node).

Lemma task_wf_ext t t' :
  ranges t' = ranges t → pivot2 t' = pivot2 t → splittable t' = splittable t →
  task_wf self t → task_wf self t'.
Proof. unfold task_wf. by intros -> -> ->. Qed.

(** The pivot feature of a well-formed chunk and its range. *)
Lemma task_wf_pivot t f :
  NoDup (uncontroversial2 self) → task_wf self t →
  uncontroversial2 self !! pivot2 t = Some f →
  dict_of_items (ranges t) = ranges t
  ∧ ∃ b, ranges t !! pivot2 t = Some (f, b)
         ∧ (ranges t).*2 !! pivot2 t = Some b
         ∧ dict_get f (ranges t) = Some b.
Proof.
  intros Hnd (Hkeys & _) Hf.
  assert (NoDup (ranges t).*1) as Hndr by (by rewrite Hkeys).
  split; [by apply dict_of_items_NoDup|].
  rewrite <-Hkeys, list_lookup_fmap in Hf.
  destruct (ranges t !! pivot2 t) as [[f' b]|] eqn:Hr; simplify_eq/=.
  exists b. split; [done|]. split; [by rewrite list_lookup_fmap, Hr|].
  by eapply dict_get_index.
Qed.

Lemma task_wf_exhausted t f b :
  NoDup (uncontroversial2 self) → task_wf self t → splittable t ≠ [] →
  uncontroversial2 self !! pivot2 t = Some f →
  (ranges t).*2 !! pivot2 t = Some b →
  (width b ≤ difference self)%Qc →
  ∃ _splittable,
    list_remove_first f (splittable t) = Some _splittable
    ∧ splittable t = f :: _splittable
    ∧ task_wf self
        (with_ranges_pivot2_percent t (ranges t)
           ((pivot2 t + 1) mod length (uncontroversial2 self)) _splittable (percent t)).
Proof.
  intros Hnd (Hkeys & Hpiv & W & HW0 & Hcase) Hne Hf Hb Hnarrow.
  pose proof (lookup_lt_Some _ _ _ Hf) as Hlt.
  destruct Hcase as [(Hspl & Hlo & Hhi & Hwide) | (k & Hk0 & Hkn & Hspl & Hpk & Hall & HW)].
  - (* first narrow feature: the pivot is at the start of a round *)
    assert (width b = W) as HbW by (by apply (Hhi (pivot2 t))).
    assert (pivot2 t = 0) as Hp0.
    { destruct (pivot2 t) as [|i]; [done|]. exfalso. apply Hwide; [lia|]. by rewrite <-HbW. }
    rewrite Hp0 in *.
    destruct (uncontroversial2 self) as [|f0 tl] eqn:Hunc; [done|].
    injection Hf as ->.
    exists tl. rewrite Hspl. split; [apply list_remove_first_head|]. split; [done|].
    unfold task_wf. cbn [with_ranges_pivot2_percent ranges pivot2 splittable].
    rewrite Hunc.
    split; [done|]. split; [right; apply Nat.mod_upper_bound; simpl; lia|].
    exists W. split; [done|]. right. exists 1. split; [lia|]. split; [simpl; lia|].
    split; [done|]. split; [done|]. split; [|by rewrite <-HbW].
    intros j b' Hj. apply (Hhi j); [lia | done].
  - (* all features are narrow: the next one leaves [splittable] *)
    assert (k < length (uncontroversial2 self)) as Hk.
    { destruct (decide (k < length (uncontroversial2 self))); [done|].
      exfalso. apply Hne. rewrite Hspl. apply drop_ge. lia. }
    rewrite Nat.mod_small in Hpk by done. rewrite Hpk in *.
    exists (drop (S k) (uncontroversial2 self)).
    rewrite Hspl. rewrite (drop_S _ _ _ Hf).
    split; [by apply list_remove_first_head|]. split; [done|].
    unfold task_wf. cbn [with_ranges_pivot2_percent ranges pivot2 splittable].
    split; [done|]. split; [right; apply Nat.mod_upper_bound; lia|].
    exists W. split; [done|]. right. exists (S k). split; [lia|]. split; [lia|].
    split; [done|]. split; [by rewrite Nat.add_1_r|]. done.
Qed.

Lemma task_wf_halve t f b b' p :
  task_wf self t →
  ranges t !! pivot2 t = Some (f, b) →
  ¬ (width b ≤ difference self)%Qc →
  width b' = (width b / 2)%Qc →
  task_wf self
    (with_ranges_pivot2_percent t (<[pivot2 t := (f, b')]> (ranges t))
       ((pivot2 t + 1) mod length (uncontroversial2 self)) (splittable t) p).
Proof.
  intros (Hkeys & Hpiv & W & HW0 & Hcase) Hr Hwide Hb'.
  pose proof (lookup_lt_Some _ _ _ Hr) as Hlt.
  assert (length (ranges t) = length (uncontroversial2 self)) as Hlen
    by (by rewrite <-Hkeys, length_fmap).
  assert ((ranges t).*2 !! pivot2 t = Some b) as Hb
    by (by rewrite list_lookup_fmap, Hr).
  unfold task_wf. cbn [with_ranges_pivot2_percent ranges pivot2 splittable].
  set (i := pivot2 t) in *. set (n := length (uncontroversial2 self)) in *.
  rewrite !list_fmap_insert. cbn [fst snd].
  split.
  { rewrite list_insert_id; [done|]. by rewrite list_lookup_fmap, Hr. }
  split; [right; apply Nat.mod_upper_bound; lia|].
  destruct Hcase as [(Hspl & Hlo & Hhi & _) | (k & _ & _ & _ & _ & Hall & HW)].
  2:{ exfalso. apply Hwide. by rewrite (Hall i b Hb). }
  assert (width b = W) as HbW by (by apply (Hhi i)).
  destruct (decide (i + 1 < n)) as [Hin|Hin].
  - rewrite Nat.mod_small by done. exists W. split; [done|]. left.
    split; [done|]. split; [|split].
    + intros j b0 Hj. destruct (decide (j = i)) as [->|Hne].
      * rewrite list_lookup_insert_eq by (rewrite length_fmap; lia).
        intros [= <-]. by rewrite Hb', HbW.
      * rewrite list_lookup_insert_ne by done. apply Hlo. lia.
    + intros j b0 Hj. rewrite list_lookup_insert_ne by lia. apply Hhi. lia.
    + intros _. by rewrite <-HbW.
  - replace (i + 1) with n by lia.
    rewrite Nat.Div0.mod_same. exists (W / 2)%Qc. split; [by apply Qc_half_pos|]. left.
    split; [done|]. split; [|split].
    + intros j b0 Hj. lia.
    + intros j b0 _. destruct (decide (j = i)) as [->|Hne].
      * rewrite list_lookup_insert_eq by (rewrite length_fmap; lia).
        intros [= <-]. by rewrite Hb', HbW.
      * rewrite list_lookup_insert_ne by done. intros Hj.
        pose proof (lookup_lt_Some _ _ _ Hj) as Hjn. rewrite length_fmap in Hjn.
        apply (Hlo j); [lia | done].
    + intros Hz. lia.
Qed.

Lemma queued_tasks_queue sh sh' : queue1 sh' = queue1 sh → queued_tasks sh' = queued_tasks sh.
Proof. unfold queued_tasks. by intros ->. Qed.

(** An iteration on a well-formed chunk posts well-formed chunks only. *)
Lemma worker1_chunk_tasks t sh sh' :
  NoDup (uncontroversial2 self) → task_wf self t →
  worker1_chunk self t sh = Ok sh' →
  ∀ t', t' ∈ queued_tasks sh' → t' ∈ queued_tasks sh ∨ task_wf self t'.
Proof.
  intros Hnd Hwf. unfold worker1_chunk.
  destruct (feasibility self (chunk_entry self t) (key t) false)
    as [[[feasible' patterns'] d]|]; simpl; [|done].
  destruct feasible'.
  - intros [= <-] t'. simpl.
    match goal with |- context [add_explored ?p ?s] =>
      destruct (add_explored_spec p s) as (_ & _ & _ & _ & _ & Hq) end.
    unfold queued_tasks in *. simpl in *. rewrite Hq. by left.
  - destruct (pivot1 t <? length (uncontroversial1 self)).
    + destruct (packing self _ _) as [packs'|]; simpl; [|done].
      destruct (mapM _ _) as [tasks|] eqn:Htasks; simpl; [|done].
      intros [= <-] t'. unfold queued_tasks. simpl.
      rewrite omap_app. intros [Hin | Hin]%elem_of_app; [by left|]. right.
      apply list_elem_of_omap in Hin as ([t''|] & Hin & Heq); simplify_eq/=.
      apply list_elem_of_fmap in Hin as (t'' & [= <-] & Hin).
      apply mapM_result_Forall2 in Htasks.
      apply list_elem_of_lookup in Hin as [i Hi].
      destruct (Forall2_lookup_r _ _ _ _ _ Htasks Hi) as ([key' pack] & _ & Hpt).
      apply pack_task_percent in Hpt as (_ & _ & Hr & Hp & Hs & _).
      by apply (task_wf_ext t).
    + destruct (truthy (uncontroversial2 self) && truthy (splittable t)) eqn:Htr.
      * apply andb_true_iff in Htr as [_ Hspl].
        assert (splittable t ≠ []) as Hne by (by destruct (splittable t)).
        destruct (uncontroversial2 self !! pivot2 t) as [f|] eqn:Hf; simpl; [|done].
        destruct (task_wf_pivot t f Hnd Hwf Hf) as (-> & b & Hr & Hb & ->).
        simpl. destruct b as [lower upper].
        destruct (decide _) as [Hnarrow|Hwide].
        -- destruct (task_wf_exhausted t f (lower, upper) Hnd Hwf Hne Hf Hb Hnarrow)
             as (_splittable & -> & _ & Hwf').
           simpl. intros [= <-] t'. rewrite queued_tasks_put_task.
           intros [Hin | ->%list_elem_of_singleton]%elem_of_app; [by left | by right].
        -- assert (NoDup (ranges t).*1) as Hndr by (destruct Hwf as [-> _]; done).
           rewrite !(dict_set_index (ranges t) (pivot2 t) f (lower, upper)) by done.
           intros [= <-] t'. rewrite !queued_tasks_put_task.
           intros [[Hin | ->%list_elem_of_singleton]%elem_of_app
                  | ->%list_elem_of_singleton]%elem_of_app; [by left | right | right].
           ++ apply (task_wf_halve t f (lower, upper)); [done | done | done |].
              unfold width. simpl. field. done.
           ++ apply (task_wf_halve t f (lower, upper)); [done | done | done |].
              unfold width. simpl. field. done.
      * intros [= <-] t'.
        destruct (add_explored_spec (percent t) sh) as (_ & _ & _ & _ & _ & ->).
        by left.
Qed.

(** Every chunk of the queue of an execution is well-formed. *)
Lemma worker1_run_wf sh recorded abandoned :
  NoDup (uncontroversial2 self) →
  worker1_run self sh recorded abandoned →
  ∀ t, t ∈ queued_tasks sh → task_wf self t.
Proof.
  intros Hnd Hrun.
  induction Hrun as [|sh sh' recorded abandoned before t rest _ IH Hq Hstep
                     |sh recorded abandoned before rest _ IH Hq].
  - intros t [->|Hin]%elem_of_cons; [|by apply elem_of_nil in Hin].
    unfold task_wf, initial_task, initial_ranges. simpl.
    assert (∀ (l : list VariableIdentifier) acc,
              NoDup (acc.*1 ++ l) →
              Forall (λ b : Qc * Qc, width b = 1%Qc) acc.*2 →
              let d := fold_left (λ d u, dict_set u (0, 1)%Qc d) l acc in
              d.*1 = acc.*1 ++ l ∧ Forall (λ b : Qc * Qc, width b = 1%Qc) d.*2)
      as Hinit.
    { clear. induction l as [|u l IHl]; intros acc Hnd Hw; simpl.
      - by rewrite app_nil_r.
      - apply NoDup_app in Hnd as Hnd'. destruct Hnd' as (_ & Hdisj & _).
        assert (u ∉ acc.*1) as Hu by (intros Hu; apply (Hdisj _ Hu); left).
        rewrite dict_set_fresh by done.
        destruct (IHl (acc ++ [(u, (0, 1)%Qc)])) as [Hk Hw'].
        + rewrite fmap_app. simpl. by rewrite <-app_assoc.
        + rewrite fmap_app. apply Forall_app. split; [done|].
          repeat constructor.
        + split; [|done]. rewrite Hk, fmap_app. simpl. by rewrite <-app_assoc. }
    destruct (Hinit (uncontroversial2 self) []) as [Hk Hw]; [done | constructor|].
    split; [exact Hk|]. split; [lia|].
    exists 1%Qc. split; [done|]. left.
    split; [done|]. split; [intros; lia|]. split; [|intros; lia].
    intros j b _ Hj. rewrite Forall_forall in Hw. apply Hw.
    apply list_elem_of_lookup. by exists j.
  - intros t' Hin.
    assert (task_wf self t) as Hwf.
    { apply IH. unfold queued_tasks. rewrite Hq, omap_app. simpl.
      apply elem_of_app. right. left. }
    destruct (worker1_chunk_tasks _ _ _ Hnd Hwf Hstep t' Hin) as [Hold|Hnew]; [|done].
    apply IH. unfold queued_tasks in *. simpl in Hold. rewrite Hq.
    rewrite omap_app in *. simpl.
    apply elem_of_app in Hold as [?|?]; apply elem_of_app; [by left | right; by right].
  - intros t' Hin. apply IH. unfold queued_tasks, put in *. simpl in Hin. rewrite Hq.
    rewrite !omap_app in *. simpl in *. rewrite app_nil_r in Hin.
    apply elem_of_app in Hin as [?|?]; apply elem_of_app; [by left | by right].
Qed.

(** C7. In every execution of the pre-analysis, a chunk of the queue
    that reaches the range split (not feasible, one-hot split done,
    [splittable] not empty) with a pivot feature [f] whose range is no
    wider than [difference] is posted again as it is (same assumptions,
    pivot1, unpacked, ranges and percent, no key), with [pivot2] advanced
    by one modulo the number of custom encoded features and with [f],
    the first element of [splittable], removed from it. *)
Theorem exhausted_feature_repost (sh : Shared Node) (recorded abandoned : list Qc)
    (t : Task Node) (ps : list (OneHot1 * gset Node * gset Node)) (d : Z)
    (f : VariableIdentifier) (lower upper : Qc) :
  NoDup (uncontroversial2 self) →
  worker1_run self sh recorded abandoned →
  t ∈ queued_tasks sh →
  feasibility self (chunk_entry self t) (key t) false = Ok (false, ps, d) →
  length (uncontroversial1 self) ≤ pivot1 t →
  splittable t ≠ [] →
  uncontroversial2 self !! pivot2 t = Some f →
  dict_get f (dict_of_items (ranges t)) = Some (lower, upper) →
  (upper - lower ≤ difference self)%Qc →
  ∃ _splittable,
    splittable t = f :: _splittable
    ∧ list_remove_first f (splittable t) = Some _splittable
    ∧ length _splittable < length (splittable t)
    ∧ ∀ sh0,
        worker1_chunk self t sh0
        = Ok (put (Partition
                     {| assumptions := assumptions t; pivot1 := pivot1 t;
                        unpacked := unpacked t; ranges := ranges t;
                        pivot2 := (pivot2 t + 1) mod length (uncontroversial2 self);
                        splittable := _splittable; percent := percent t;
                        key := None |})
                sh0).
Proof.
  intros Hnd Hrun Hin Hfeas Hpivot1 Hne Hf Hget Hnarrow.
  pose proof (worker1_run_wf sh recorded abandoned Hnd Hrun t Hin) as Hwf.
  destruct (task_wf_pivot t f Hnd Hwf Hf) as (Hdict & b & Hr & Hb & Hgetb).
  rewrite Hdict, Hgetb in Hget. injection Hget as ->.
  destruct (task_wf_exhausted t f (lower, upper) Hnd Hwf Hne Hf Hb Hnarrow)
    as (_splittable & Hrem & Hspl & _).
  exists _splittable. split; [done|]. split; [done|].
  split; [rewrite Hspl; simpl; lia|].
  intros sh0. unfold worker1_chunk. rewrite Hfeas. simpl.
  rewrite (proj2 (Nat.ltb_ge _ _)) by done.
  assert (truthy (uncontroversial2 self) = true) as ->.
  { destruct (uncontroversial2 self); [by rewrite lookup_nil in Hf | done]. }
  assert (truthy (splittable t) = true) as -> by (by destruct (splittable t)).
  simpl. rewrite Hf. simpl. rewrite Hdict, Hgetb. simpl.
  rewrite decide_True by done. by rewrite Hrem.
Qed.
End task_wf_facts.

(** ** Facts about Worker 1: volumes and keys of the chunks *)

Lemma volume_pos (box : list (Qc * Qc)) :
  Forall (λ b, (0 < width b)%Qc) box → (0 < volume box)%Qc.
Proof.
  induction 1 as [|b box Hb _ IH]; simpl; [done|].
  by apply Qcmult_pos_pos.
Qed.

Lemma volume_perm (box1 box2 : list (Qc * Qc)) :
  box1 ≡ₚ box2 → volume box1 = volume box2.
Proof.
  induction 1 as [|b box1 box2 _ IH|b1 b2 box|box1 box2 box3 _ IH1 _ IH2]; simpl.
  - done.
  - by rewrite IH.
  - ring.
  - by rewrite IH1.
Qed.

Section chunk_facts.
Context {Node FState BState : Type} `{Countable Node}.
Context `{!Precursory Node FState} `{!BiasDomain FState BState} `{!PyStr} `{machine : !Machine}.
Context (self : BackwardInterpreter Node BState).
Implicit Types (sh : Shared Node) (t : Task Node) (item : QItem Node).

(** The ranges of a well-formed chunk span a box of positive volume, in
    whatever order they are listed. *)
Lemma task_wf_volume t (ranges0 : list (VariableIdentifier * (Qc * Qc))) :
  task_wf self t → ranges0 ≡ₚ ranges t → (0 < volume ranges0.*2)%Qc.
Proof.
  intros (_ & _ & W & HW0 & Hcase) Hperm.
  rewrite (volume_perm ranges0.*2 (ranges t).*2) by (by rewrite Hperm).
  apply volume_pos, Forall_lookup. intros j b Hj.
  destruct Hcase as [(_ & Hlo & Hhi & _) | (k & _ & _ & _ & _ & Hall & _)].
  - destruct (decide (j < pivot2 t)) as [Hlt|Hge].
    + rewrite (Hlo j b Hlt Hj). by apply Qc_half_pos.
    + rewrite (Hhi j b) by (lia || done). done.
  - by rewrite (Hall j b Hj).
Qed.

(** On the ranges of a well-formed chunk the division of [bias_check]
    does not raise. *)
Lemma bias_check_on_chunk t chunk
    (items : list ((VariableIdentifier * VariableIdentifier) * list BState))
    (ranges0 : list (VariableIdentifier * (Qc * Qc))) (percent0 biased : Qc) :
  task_wf self t → ranges0 ≡ₚ ranges t →
  bias_witness self ranges0 items →
  bias_check self chunk items ranges0 percent0 biased
  = Ok (biased + percent0 * volume (b_ranges (bias_scan self ranges0 items)).*2
                 / volume ranges0.*2)%Qc.
Proof.
  intros Hwf Hperm Hw. apply nobias_witness in Hw.
  unfold bias_check. rewrite Hw, total_size_volume, biased_size_volume.
  unfold pydiv. rewrite decide_False; [done|].
  intros Hz. pose proof (task_wf_volume t ranges0 Hwf Hperm) as Hpos.
  apply Qclt_not_eq in Hpos. by apply Hpos.
Qed.

(** *** The keys of the chunks *)

Lemma consumer_put_keys (entry : FState) (packs0 : list (Pattern Node * gset OneHotN))
    (one_hot : OneHotN) :
  Forall (λ k, length k = length (values self)) packs0.*1 →
  Forall (λ k, length k = length (values self)) (consumer_put self entry packs0 one_hot).*1.
Proof.
  rewrite !Forall_forall. intros Hold k Hk. unfold consumer_put in Hk.
  apply dict_set_keys in Hk as [->|Hk]; [|by apply Hold].
  unfold consumer_key. by rewrite length_fmap.
Qed.

Lemma packing_keys (entry : FState) (packs0 packs' : list (Pattern Node * gset OneHotN)) :
  Forall (λ k, length k = length (values self)) packs0.*1 →
  packing self entry packs0 = Ok packs' →
  Forall (λ k, length k = length (values self)) packs'.*1.
Proof.
  unfold packing. intros Hold. destruct (decide _) as [_|]; [|done]. intros [= <-].
  unfold consumed. destruct (decide (consumers = 0)) as [_|_]; [done|].
  revert packs0 Hold. generalize (producer self).
  induction l as [|one_hot l IH]; intros packs0 Hold; [done|]. simpl.
  apply IH. by apply consumer_put_keys.
Qed.

Lemma pack_task_key t key' pack task :
  pack_task self t (key', pack) = Ok task → key task = Some key'.
Proof.
  unfold pack_task.
  destruct (or_raise _ _) as [first|]; simpl; [|done].
  destruct (mapM _ _) as [extra|]; simpl; [|done].
  unfold pydiv. destruct (decide _) as [|Hc]; simpl; [done|].
  by intros [= <-].
Qed.

(** An iteration keeps the keys of [self.packs] fitting and posts chunks
    with fitting keys only. *)
Lemma worker1_chunk_keys t sh sh' :
  Forall (λ k, length k = length (values self)) (packs sh).*1 →
  worker1_chunk self t sh = Ok sh' →
  Forall (λ k, length k = length (values self)) (packs sh').*1
  ∧ ∀ t', t' ∈ queued_tasks sh' → t' ∈ queued_tasks sh ∨ key_fits self (key t').
Proof.
  intros Hpacks. unfold worker1_chunk.
  destruct (feasibility self (chunk_entry self t) (key t) false)
    as [[[feasible' patterns'] d]|]; simpl; [|done].
  destruct feasible'.
  - intros [= <-]. simpl.
    match goal with |- context [add_explored ?p ?s] =>
      destruct (add_explored_spec p s) as (_ & _ & _ & _ & Hpk & Hq) end.
    rewrite Hpk. simpl. split; [done|]. intros t'.
    unfold queued_tasks in *. simpl in *. rewrite Hq. by left.
  - destruct (pivot1 t <? length (uncontroversial1 self)).
    + destruct (packing self _ _) as [packs'|] eqn:Hpack; simpl; [|done].
      destruct (mapM _ _) as [tasks|] eqn:Htasks; simpl; [|done].
      apply (packing_keys _ _ _ Hpacks) in Hpack.
      intros [= <-]. simpl. split; [done|]. intros t'. unfold queued_tasks. simpl.
      rewrite omap_app. intros [Hin | Hin]%elem_of_app; [by left|]. right.
      apply list_elem_of_omap in Hin as ([t''|] & Hin & Heq); simplify_eq/=.
      apply list_elem_of_fmap in Hin as (t'' & [= <-] & Hin).
      apply mapM_result_Forall2 in Htasks.
      apply list_elem_of_lookup in Hin as [i Hi].
      destruct (Forall2_lookup_r _ _ _ _ _ Htasks Hi) as ([key' pack] & Hkp & Hpt).
      apply pack_task_key in Hpt. intros k Hk. rewrite Hpt in Hk. injection Hk as <-.
      right. rewrite Forall_forall in Hpack. rewrite (Hpack key'); [done|].
      apply list_elem_of_fmap. exists (key', pack). split; [done|].
      rewrite <-(sorted_perm rank true packs'). by eapply list_elem_of_lookup_2.
    + destruct (truthy (uncontroversial2 self) && truthy (splittable t)).
      * destruct (or_raise IndexError _) as [f|]; simpl; [|done].
        destruct (or_raise KeyError _) as [[lower upper]|]; simpl; [|done].
        destruct (decide _).
        -- destruct (or_raise ValueError _) as [_splittable|]; simpl; [|done].
           intros [= <-]. split; [done|]. intros t'. rewrite queued_tasks_put_task.
           intros [Hin | ->%list_elem_of_singleton]%elem_of_app; [by left | by right].
        -- intros [= <-]. split; [done|]. intros t'. rewrite !queued_tasks_put_task.
           intros [[Hin | ->%list_elem_of_singleton]%elem_of_app
                  | ->%list_elem_of_singleton]%elem_of_app; [by left | by right | by right].
      * intros [= <-].
        destruct (add_explored_spec (percent t) sh) as (_ & _ & _ & _ & -> & ->).
        split; [done|]. intros t'. by left.
Qed.

(** Every chunk of the queue of an execution has a key that fits. *)
Lemma worker1_run_keys sh recorded abandoned :
  worker1_run self sh recorded abandoned →
  Forall (λ k, length k = length (values self)) (packs sh).*1
  ∧ ∀ t, t ∈ queued_tasks sh → key_fits self (key t).
Proof.
  induction 1 as [|sh sh' recorded abandoned before t rest _ [IHp IHk] Hq Hstep
                  |sh recorded abandoned before rest _ [IHp IHk] Hq].
  - split; [constructor|].
    intros t [->|Hin]%elem_of_cons; [done | by apply elem_of_nil in Hin].
  - apply worker1_chunk_keys in Hstep as [Hp Hk]; [|exact IHp]. split; [done|].
    intros t' Hin. destruct (Hk t' Hin) as [Hold|Hnew]; [|done].
    apply IHk. unfold queued_tasks in *. simpl in Hold. rewrite Hq.
    rewrite omap_app in *. simpl.
    apply elem_of_app in Hold as [?|?]; apply elem_of_app; [by left | right; by right].
  - split; [done|].
    intros t' Hin. apply IHk. unfold queued_tasks, put in *. simpl in Hin. rewrite Hq.
    rewrite !omap_app in *. simpl in *. rewrite app_nil_r in Hin.
    apply elem_of_app in Hin as [?|?]; apply elem_of_app; [by left | by right].
Qed.

(** So [feasibility] returns normally on every chunk of an execution. *)
Lemma worker1_run_feasibility sh recorded abandoned t :
  worker1_run self sh recorded abandoned → t ∈ queued_tasks sh →
  is_Ok (feasibility self (chunk_entry self t) (key t) false) = true.
Proof.
  intros Hrun Hin. destruct (worker1_run_keys _ _ _ Hrun) as [_ Hk].
  specialize (Hk t Hin).
  destruct (feasibility_ok self (chunk_entry self t) (key t) false Hk) as (r & ->).
  done.
Qed.
End chunk_facts.

(** ** Facts about Worker 1: the dictionary of patterns *)

Section patterns_facts.
Context {Node FState BState : Type} `{Countable Node}.
Context `{!Precursory Node FState} `{!BiasDomain FState BState} `{!PyStr} `{machine : !Machine}.
Context (self : BackwardInterpreter Node BState).
Implicit Types (sh : Shared Node) (t : Task Node) (item : QItem Node).

(** What an iteration does to [self.patterns]. *)
Lemma worker1_chunk_patterns t sh sh' :
  worker1_chunk self t sh = Ok sh' →
  patterns sh' = patterns sh
  ∨ ∃ key' : Pattern Node,
      length key' = length (values self)
      ∧ patterns sh'
        = dict_set key' (default ∅ (dict_get key' (patterns sh)) ∪ {[chunk_of t]})
            (patterns sh).
Proof.
  unfold worker1_chunk.
  destruct (feasibility self (chunk_entry self t) (key t) false)
    as [[[feasible' patterns'] d]|] eqn:Hfeas; simpl; [|done].
  destruct feasible'.
  - intros [= <-]. simpl. right.
    match goal with |- context [add_explored ?p ?s] =>
      destruct (add_explored_spec p s) as (_ & _ & _ & Hpt & _) end.
    rewrite Hpt. simpl.
    exists ((λ p, (p.1.2, p.2)) <$> patterns'). split; [|done].
    rewrite length_fmap. by eapply feasibility_true.
  - destruct (pivot1 t <? length (uncontroversial1 self)).
    + destruct (packing self _ _) as [packs'|]; simpl; [|done].
      destruct (mapM _ _) as [tasks|]; simpl; [|done].
      intros [= <-]. by left.
    + destruct (truthy (uncontroversial2 self) && truthy (splittable t)).
      * destruct (or_raise IndexError _) as [f|]; simpl; [|done].
        destruct (or_raise KeyError _) as [[lower upper]|]; simpl; [|done].
        destruct (decide _).
        -- destruct (or_raise ValueError _) as [_splittable|]; simpl; [|done].
           intros [= <-]. by left.
        -- intros [= <-]. by left.
      * intros [= <-]. left.
        by destruct (add_explored_spec (percent t) sh) as (_ & _ & _ & -> & _).
Qed.

(** [self.patterns] in an execution: a dictionary whose keys have one entry
    per sensitive value and whose chunks are those of well-formed chunks
    of the queue. *)
Lemma worker1_run_patterns sh recorded abandoned :
  NoDup (uncontroversial2 self) →
  worker1_run self sh recorded abandoned →
  NoDup (patterns sh).*1
  ∧ Forall (λ k, length k = length (values self)) (patterns sh).*1
  ∧ ∀ k pack chunk, (k, pack) ∈ patterns sh → chunk ∈ pack →
      ∃ t, task_wf self t ∧ chunk = chunk_of t.
Proof.
  intros Hnd.
  induction 1 as [|sh sh' recorded abandoned before t rest Hrun (IHn & IHl & IHc) Hq Hstep
                  |sh recorded abandoned before rest _ IH Hq].
  - simpl. split; [constructor|]. split; [constructor|].
    intros k pack chunk Hin. by apply elem_of_nil in Hin.
  - assert (task_wf self t) as Hwf.
    { apply (worker1_run_wf self sh recorded abandoned Hnd Hrun).
      unfold queued_tasks. rewrite Hq, omap_app. simpl. apply elem_of_app. right. left. }
    apply worker1_chunk_patterns in Hstep as [->|(key' & Hlen & ->)]; [done|].
    simpl. split; [by apply dict_set_NoDup|]. split.
    + apply Forall_forall. intros k [->|Hk]%dict_set_keys; [done|].
      rewrite Forall_forall in IHl. by apply IHl.
    + intros k pack chunk [[= -> ->]|Hin]%dict_set_elem Hchunk.
      * apply elem_of_union in Hchunk as [Hold | ->%elem_of_singleton]; [|by exists t].
        destruct (dict_get key' (patterns sh)) as [curr|] eqn:Hget;
          [|by apply elem_of_empty in Hold].
        simpl in Hold. apply dict_get_Some in Hget. by eapply IHc.
      * by eapply IHc.
  - done.
Qed.

(** So the compression that [analyze] runs on [self.patterns] after the
    pre-analysis neither adds a pattern, nor leaves a key without a
    subsuming key, nor loses a chunk. *)
Lemma worker1_run_compress sh (recorded abandoned : list Qc) :
  NoDup (uncontroversial2 self) →
  worker1_run self sh recorded abandoned →
  length (compress (patterns sh)) ≤ length (patterns sh)
  ∧ (∀ k1 pack1, (k1, pack1) ∈ patterns sh →
       ∃ k2 pack2, (k2, pack2) ∈ compress (patterns sh)
                   ∧ subsumes k2 k1 ∧ pack1 ⊆ pack2)
  ∧ all_chunks (compress (patterns sh)) = all_chunks (patterns sh).
Proof.
  intros Hnd Hrun.
  destruct (worker1_run_patterns sh recorded abandoned Hnd Hrun) as (Hkeys & Hlen & _).
  destruct (compress_inv_patterns (length (values self)) (patterns sh) Hkeys)
    as [_ _ Hle Hrep Hch].
  pose proof (sorted_perm pack_len false (patterns sh)) as Hperm.
  split; [by rewrite Hperm in Hle|]. split.
  - intros k1 pack1 Hin. apply Hrep; by rewrite Hperm.
  - rewrite Hch. unfold all_chunks.
    apply union_list_permutation_proper_L; try apply _. by rewrite Hperm.
Qed.

(** On the ranges of a recorded chunk, in whatever order the set lists
    them, the division of [bias_check] does not raise. *)
Lemma bias_check_recorded sh (recorded abandoned : list Qc) k pack chunk (name : string)
    (items : list ((VariableIdentifier * VariableIdentifier) * list BState))
    (ranges0 : list (VariableIdentifier * (Qc * Qc))) (percent0 biased : Qc) :
  NoDup (uncontroversial2 self) →
  worker1_run self sh recorded abandoned →
  (k, pack) ∈ patterns sh → chunk ∈ pack →
  NoDup ranges0 → list_to_set ranges0 = chunk.1.2 →
  bias_witness self ranges0 items →
  bias_check self name items ranges0 percent0 biased
  = Ok (biased + percent0 * volume (b_ranges (bias_scan self ranges0 items)).*2
                 / volume ranges0.*2)%Qc.
Proof.
  intros Hnd Hrun Hin Hchunk Hnd0 Hset Hw.
  destruct (worker1_run_patterns sh recorded abandoned Hnd Hrun) as (_ & _ & Hc).
  destruct (Hc k pack chunk Hin Hchunk) as (t & Hwf & ->). simpl in Hset.
  apply (bias_check_on_chunk self t); [done| |done].
  assert (NoDup (ranges t)) as Hndt.
  { destruct Hwf as (Hkeys & _). eapply NoDup_fmap_1. by rewrite Hkeys. }
  apply NoDup_Permutation; [done | done |].
  intros x. rewrite <-(elem_of_list_to_set (C:=gset _) x ranges0), Hset.
  by rewrite elem_of_list_to_set.
Qed.
End patterns_facts.

(** ** Facts about Worker 1: no iteration raises *)

Lemma literals_prepend (l : list VariableIdentifier) (value : Expression) :
  literals (fold_left (λ value vj,
              BinaryBooleanOperation (between (Literal "0") vj (Literal "0")) And value)
              l value)
  = replicate (2 * length l) "0"%string ++ literals value.
Proof.
  revert value. induction l as [|vj l IH]; intros value; [done|].
  cbn [fold_left]. rewrite IH. cbn [literals between app].
  replace (2 * length (vj :: l)) with (2 * length l + 2) by (simpl; lia).
  rewrite replicate_add, <-app_assoc. done.
Qed.

Lemma literals_append (l : list VariableIdentifier) (value : Expression) :
  literals (fold_left (λ value vj,
              BinaryBooleanOperation value And (between (Literal "0") vj (Literal "0")))
              l value)
  = literals value ++ replicate (2 * length l) "0"%string.
Proof.
  revert value. induction l as [|vj l IH]; intros value; [by rewrite app_nil_r|].
  cbn [fold_left]. rewrite IH. cbn [literals between app].
  replace (2 * length (vj :: l)) with (2 + 2 * length l) by (simpl; lia).
  rewrite replicate_add, <-app_assoc. done.
Qed.

Lemma literals_one_hot_value variables i variable :
  literals (one_hot_value variables i variable)
  = replicate (2 * length (take i variables)) "0"%string
    ++ ["1"; "1"]%string ++ replicate (2 * length (drop (S i) variables)) "0"%string.
Proof.
  unfold one_hot_value. rewrite literals_append, literals_prepend.
  by rewrite <-app_assoc.
Qed.

(** The one-hots of a feature are distinct: the position of the literal
    [1] tells them apart. *)
Lemma one_hots_NoDup variables : NoDup (one_hots variables).
Proof.
  apply NoDup_alt. intros i j x Hi Hj. unfold one_hots in *.
  rewrite list_lookup_imap in Hi, Hj.
  destruct (variables !! i) as [vi|] eqn:Hvi; [|done].
  destruct (variables !! j) as [vj|] eqn:Hvj; [|done].
  simpl in *. injection Hi as <-. injection Hj as Hv Hlit.
  apply (f_equal literals) in Hlit. rewrite Hv in Hlit. symmetry in Hlit.
  rewrite !literals_one_hot_value in Hlit.
  apply lookup_lt_Some in Hvi, Hvj.
  rewrite !length_take in Hlit.
  replace (i `min` length variables) with i in Hlit by lia.
  replace (j `min` length variables) with j in Hlit by lia.
  destruct (decide (i = j)) as [|Hne]; [done|]. exfalso.
  assert (∀ a b (r1 r2 : list string), a < b →
            replicate (2 * a) "0"%string ++ ["1"; "1"]%string ++ r1
            ≠ replicate (2 * b) "0"%string ++ ["1"; "1"]%string ++ r2) as Hdiff.
  { clear. intros a b r1 r2 Hab Heq.
    apply (f_equal (.!! (2 * a))) in Heq.
    rewrite lookup_app_r in Heq by (rewrite length_replicate; lia).
    rewrite length_replicate, Nat.sub_diag in Heq. simpl in Heq.
    rewrite lookup_app_l in Heq by (rewrite length_replicate; lia).
    rewrite lookup_replicate_2 in Heq by lia. done. }
  destruct (decide (i < j)).
  - by apply (Hdiff i j) in Hlit.
  - symmetry in Hlit. apply (Hdiff j i) in Hlit; [done | lia].
Qed.

Lemma product_NoDup {A} (ls : list (list A)) :
  Forall NoDup ls → NoDup (product ls).
Proof.
  induction 1 as [|l ls Hl _ IH]; simpl; [apply NoDup_singleton|].
  apply NoDup_bind; [| |done].
  - intros x1 x2 y _ _ (y1 & -> & _)%list_elem_of_fmap (y2 & [= -> _] & _)%list_elem_of_fmap.
    done.
  - intros x _. apply NoDup_fmap; [|done]. by intros ?? [= ->].
Qed.

Lemma product_length {A} (ls : list (list A)) :
  length (product ls) = fold_left Nat.mul (length <$> ls) 1.
Proof.
  assert (∀ (l : list nat) a, fold_left Nat.mul l a = a * fold_left Nat.mul l 1) as Hmul.
  { induction l as [|n l IH]; intros a; cbn [fold_left]; [lia|].
    rewrite (IH (a * n)), (IH (1 * n)). lia. }
  induction ls as [|l ls IH]; [done|]. cbn [product fmap list_fmap fold_left].
  rewrite Hmul, Nat.mul_1_l, <-IH. clear.
  induction l as [|x l IHl]; [done|].
  rewrite bind_cons, length_app, length_fmap, IHl. simpl. lia.
Qed.

Lemma product_elem_length {A} (ls : list (list A)) x :
  x ∈ product ls → length x = length ls.
Proof.
  revert x. induction ls as [|l ls IH]; intros x; simpl.
  - by intros ->%list_elem_of_singleton.
  - intros (y & (z & -> & Hz)%list_elem_of_fmap & _)%list_elem_of_bind.
    simpl. by rewrite (IH z).
Qed.

Lemma mapM_result_Ok {A B} (f : A → result B) (l : list A) :
  (∀ x, x ∈ l → is_Ok (f x) = true) → is_Ok (mapM f l) = true.
Proof.
  induction l as [|x l IH]; intros Hl; [done|]. simpl.
  pose proof (Hl x ltac:(left)) as Hx. destruct (f x); [|done]. simpl.
  destruct (mapM f l); [done|]. apply IH. intros y Hy. apply Hl. by right.
Qed.

Lemma foldlM_Ok {A B} (f : B → A → result B) (l : list A) (b : B) :
  (∀ b' x, x ∈ l → is_Ok (f b' x) = true) → is_Ok (foldlM f l b) = true.
Proof.
  revert b. induction l as [|x l IH]; intros b Hl; [done|]. simpl.
  pose proof (Hl b x ltac:(left)) as Hx. destruct (f b x); [|done]. simpl.
  apply IH. intros b' y Hy. apply Hl. by right.
Qed.

Section progress.
Context {Node FState BState : Type} `{Countable Node}.
Context `{!Precursory Node FState} `{!BiasDomain FState BState} `{!PyStr} `{machine : !Machine}.
Context (self : BackwardInterpreter Node BState).
Implicit Types (sh : Shared Node) (t : Task Node) (item : QItem Node).
Implicit Types (d : list (Pattern Node * gset OneHotN)).

Lemma pack_put_sizes (k : Pattern Node) (x : OneHotN) d :
  x ∉ ⋃ d.*2 →
  sizes (dict_set k (default ∅ (dict_get k d) ∪ {[x]}) d) = sizes d + 1.
Proof.
  unfold sizes. induction d as [|[k' v'] d IH]; intros Hx.
  - cbn -[size union singleton empty]. rewrite (left_id_L ∅ (∪)), size_singleton. done.
  - rewrite fmap_cons in Hx. cbn [snd union_list foldr] in Hx.
    apply not_elem_of_union in Hx as [Hv Hd].
    cbn -[size union singleton empty].
    destruct (decide (k = k')) as [->|Hne]; cbn -[size union singleton empty].
    + rewrite size_union, size_singleton by (clear -Hv; set_solver). lia.
    + rewrite IH by done. lia.
Qed.

Lemma pack_put_union (k : Pattern Node) (x : OneHotN) d :
  ⋃ (dict_set k (default ∅ (dict_get k d) ∪ {[x]}) d).*2 = ⋃ d.*2 ∪ {[x]}.
Proof.
  induction d as [|[k' v'] d IH]; cbn -[size union singleton empty].
  - clear. set_solver.
  - destruct (decide (k = k')) as [->|Hne]; cbn -[size union singleton empty].
    + clear. set_solver.
    + rewrite IH. clear. set_solver.
Qed.

Lemma pack_put_nonempty (k : Pattern Node) (x : OneHotN) d :
  Forall (λ kp, kp.2 ≠ ∅) d →
  Forall (λ kp : Pattern Node * gset OneHotN, kp.2 ≠ ∅)
    (dict_set k (default ∅ (dict_get k d) ∪ {[x]}) d).
Proof.
  induction 1 as [|[k' v'] d Hv Hd IH]; cbn -[size union singleton empty].
  - constructor; [|done]. cbn -[size union singleton empty]. clear. set_solver.
  - destruct (decide (k = k')) as [->|Hne]; cbn -[size union singleton empty].
    + constructor; [|done]. cbn -[size union singleton empty]. clear. set_solver.
    + constructor; [done | exact IH].
Qed.

(** The packs built from an empty dictionary: every combination is in
    exactly one pack. *)
Lemma consumers_fold (entry : FState) (l : list OneHotN) : ∀ d,
  NoDup l → (∀ x, x ∈ l → x ∉ ⋃ d.*2) → Forall (λ kp, kp.2 ≠ ∅) d →
  let d' := fold_left (consumer_put self entry) l d in
  sizes d' = sizes d + length l
  ∧ ⋃ d'.*2 = ⋃ d.*2 ∪ list_to_set l
  ∧ Forall (λ kp, kp.2 ≠ ∅) d'.
Proof.
  induction l as [|x l IH]; intros d Hnd Hout Hne; simpl.
  - split; [lia|]. split; [clear; set_solver | done].
  - apply NoDup_cons in Hnd as [Hx Hnd].
    destruct (IH (consumer_put self entry d x)) as (Hs & Hu & Hn).
    + done.
    + intros y Hy. unfold consumer_put. rewrite pack_put_union.
      apply not_elem_of_union. split; [apply Hout; by right|].
      intros ->%elem_of_singleton. done.
    + by apply pack_put_nonempty.
    + split; [|split; [|done]].
      * rewrite Hs. unfold consumer_put. rewrite pack_put_sizes by (apply Hout; left). lia.
      * rewrite Hu. unfold consumer_put. rewrite pack_put_union. clear. set_solver.
Qed.

Lemma producer_NoDup : NoDup (producer self).
Proof.
  unfold producer. apply product_NoDup, Forall_fmap, Forall_forall.
  intros variables _. apply one_hots_NoDup.
Qed.

Lemma producer_length :
  length (producer self) = fold_left Nat.mul (length <$> uncontroversial1 self) 1.
Proof.
  unfold producer. rewrite (product_length (one_hots <$> uncontroversial1 self)). f_equal.
  rewrite <-list_fmap_compose. apply list_fmap_ext. intros _ variables _. simpl.
  unfold one_hots. by rewrite length_imap.
Qed.

(** With a consumer, the first 1-hot split passes the assertion of
    [packing]. *)
Lemma packing_initial (entry : FState) :
  1 < cpu_count →
  count self = fold_left Nat.mul (length <$> uncontroversial1 self) 1 →
  ∃ packs',
    packing self entry [] = Ok packs'
    ∧ Forall (λ kp, kp.2 ≠ ∅) packs'
    ∧ ∀ kp x, kp ∈ packs' → x ∈ kp.2 → length x = length (uncontroversial1 self).
Proof.
  intros Hcpu Hcount.
  destruct (consumers_fold entry (producer self) []) as (Hs & Hu & Hn).
  - apply producer_NoDup.
  - intros x _. simpl. apply not_elem_of_empty.
  - constructor.
  - eexists. unfold packing, consumed.
    rewrite (decide_False (P := consumers = 0)) by (unfold consumers; lia).
    split; [|split; [exact Hn|]].
    + rewrite decide_True; [done|].
      fold (sizes (fold_left (consumer_put self entry) (producer self) [])).
      rewrite Hs, producer_length. unfold sizes. simpl. done.
    + intros [k pack] x Hkp Hx. simpl in Hx.
      assert (x ∈ ⋃ (fold_left (consumer_put self entry) (producer self) []).*2) as Hin.
      { apply elem_of_union_list. exists pack. split; [|done].
        apply list_elem_of_fmap. by exists (k, pack). }
      rewrite Hu in Hin. simpl in Hin.
      apply elem_of_union in Hin as [Hin|Hin]; [by apply elem_of_empty in Hin|].
      apply elem_of_list_to_set in Hin. unfold producer in Hin.
      apply product_elem_length in Hin. by rewrite length_fmap in Hin.
Qed.

Lemma pack_assumption_Ok (items : list OneHotN) (first : OneHotN) i n :
  items !! 0 = Some first → Forall (λ x, length x = n) items → i < n →
  is_Ok (pack_assumption items i) = true.
Proof.
  intros Hfirst Hlen Hi. unfold pack_assumption. rewrite Hfirst.
  cbn [or_raise mbind result_bind]. unfold OneHotN, OneHot1 in *.
  rewrite Forall_forall in Hlen.
  destruct (lookup_lt_is_Some_2 first i) as [vc Hvc].
  { rewrite (Hlen first); [done|]. by eapply list_elem_of_lookup_2. }
  rewrite Hvc. cbn [or_raise mbind result_bind].
  apply foldlM_Ok. intros acc item Hitem.
  destruct (lookup_lt_is_Some_2 item i) as [vn Hvn].
  { rewrite (Hlen item); [done|]. apply list_elem_of_lookup in Hitem as [j Hj].
    rewrite lookup_drop in Hj. by eapply list_elem_of_lookup_2. }
  by rewrite Hvn.
Qed.

Lemma pack_task_Ok t (key' : Pattern Node) (pack : gset OneHotN) n :
  count self ≠ 0 → pack ≠ ∅ → (∀ x, x ∈ pack → length x = n) →
  is_Ok (pack_task self t (key', pack)) = true.
Proof.
  intros Hcount Hne Hlen. unfold pack_task.
  destruct (elements pack) as [|first items] eqn:Hel.
  { by apply elements_empty_inv, leibniz_equiv in Hel. }
  simpl.
  assert (Forall (λ x : OneHotN, length x = n) (first :: items)) as Hall.
  { apply Forall_forall. intros x Hx. apply Hlen. rewrite <-Hel in Hx.
    by apply elem_of_elements in Hx. }
  pose proof (mapM_result_Ok (pack_assumption (first :: items)) (seq 0 (length first))) as Hm.
  destruct (mapM _ _) as [extra|]; simpl.
  - unfold pydiv. rewrite decide_False; [done|].
    intros Hz%Qc_of_nat_0. done.
  - apply Hm. intros i Hi%elem_of_seq.
    apply (pack_assumption_Ok _ first i n); [done | done |].
    apply Forall_inv in Hall. lia.
Qed.

(** The chunks an iteration posts are past the 1-hot split. *)
Lemma worker1_chunk_pivot1 t sh sh' :
  worker1_chunk self t sh = Ok sh' →
  ∀ t', t' ∈ queued_tasks sh' →
        t' ∈ queued_tasks sh ∨ length (uncontroversial1 self) ≤ pivot1 t'.
Proof.
  unfold worker1_chunk.
  destruct (feasibility self (chunk_entry self t) (key t) false)
    as [[[feasible' patterns'] d]|]; simpl; [|done].
  destruct feasible'.
  - intros [= <-] t'. simpl.
    match goal with |- context [add_explored ?p ?s] =>
      destruct (add_explored_spec p s) as (_ & _ & _ & _ & _ & Hq) end.
    unfold queued_tasks in *. simpl in *. rewrite Hq. by left.
  - destruct (pivot1 t <? length (uncontroversial1 self)) eqn:Hstage.
    + destruct (packing self _ _) as [packs'|]; simpl; [|done].
      destruct (mapM _ _) as [tasks|] eqn:Htasks; simpl; [|done].
      intros [= <-] t'. unfold queued_tasks. simpl.
      rewrite omap_app. intros [Hin | Hin]%elem_of_app; [by left|]. right.
      apply list_elem_of_omap in Hin as ([t''|] & Hin & Heq); simplify_eq/=.
      apply list_elem_of_fmap in Hin as (t'' & [= <-] & Hin).
      apply mapM_result_Forall2 in Htasks.
      apply list_elem_of_lookup in Hin as [i Hi].
      destruct (Forall2_lookup_r _ _ _ _ _ Htasks Hi) as ([key' pack] & _ & Hpt).
      apply pack_task_percent in Hpt as (_ & _ & _ & _ & _ & ->). done.
    + apply Nat.ltb_ge in Hstage.
      destruct (truthy (uncontroversial2 self) && truthy (splittable t)).
      * destruct (or_raise IndexError _) as [f|]; simpl; [|done].
        destruct (or_raise KeyError _) as [[lower upper]|]; simpl; [|done].
        destruct (decide _).
        -- destruct (or_raise ValueError _) as [_splittable|]; simpl; [|done].
           intros [= <-] t'. rewrite queued_tasks_put_task.
           intros [Hin | ->%list_elem_of_singleton]%elem_of_app; [by left | by right].
        -- intros [= <-] t'. rewrite !queued_tasks_put_task.
           intros [[Hin | ->%list_elem_of_singleton]%elem_of_app
                  | ->%list_elem_of_singleton]%elem_of_app; [by left | by right | by right].
      * intros [= <-] t'.
        destruct (add_explored_spec (percent t) sh) as (_ & _ & _ & _ & _ & ->).
        by left.
Qed.

(** The 1-hot split happens once, on the first chunk: in every execution
    the state is the initial one or all the chunks of the queue are past
    the 1-hot split. *)
Lemma worker1_run_stage sh recorded abandoned :
  worker1_run self sh recorded abandoned →
  sh = initial_shared self
  ∨ ∀ t, t ∈ queued_tasks sh → length (uncontroversial1 self) ≤ pivot1 t.
Proof.
  induction 1 as [|sh sh' recorded abandoned before t rest _ IH Hq Hstep
                  |sh recorded abandoned before rest _ IH Hq].
  - by left.
  - right. intros t' Hin.
    destruct (worker1_chunk_pivot1 _ _ _ Hstep t' Hin) as [Hold|Hnew]; [|done].
    unfold queued_tasks in Hold. simpl in Hold.
    destruct IH as [->|IH].
    + simpl in Hq. destruct before as [|? [|??]]; simplify_eq/=.
      by apply elem_of_nil in Hold.
    + apply IH. unfold queued_tasks. rewrite Hq. rewrite omap_app in *. simpl.
      apply elem_of_app in Hold as [?|?]; apply elem_of_app; [by left | right; by right].
  - right. destruct IH as [->|IH].
    + simpl in Hq. destruct before as [|? [|??]]; simplify_eq/=.
    + intros t' Hin. apply IH. unfold queued_tasks, put in *. simpl in Hin. rewrite Hq.
      rewrite !omap_app in *. simpl in *. rewrite app_nil_r in Hin.
      apply elem_of_app in Hin as [?|?]; apply elem_of_app; [by left | by right].
Qed.

(** An iteration on a well-formed chunk does not raise. *)
Lemma worker1_chunk_Ok t sh :
  interp_wf self → 1 < cpu_count → key_fits self (key t) → task_wf self t →
  (pivot1 t < length (uncontroversial1 self) → packs sh = []) →
  is_Ok (worker1_chunk self t sh) = true.
Proof.
  intros (Hcount & Hcount0 & Hnd) Hcpu Hfit Hwf Hfirst. unfold worker1_chunk.
  destruct (feasibility_ok self (chunk_entry self t) (key t) false Hfit)
    as ([[feasible' patterns'] d] & ->).
  simpl. destruct feasible'; [done|].
  destruct (pivot1 t <? length (uncontroversial1 self)) eqn:Hstage.
  - apply Nat.ltb_lt in Hstage. rewrite (Hfirst Hstage).
    destruct (packing_initial (chunk_entry self t) Hcpu Hcount)
      as (packs' & -> & Hne & Hlen).
    simpl.
    pose proof (mapM_result_Ok (pack_task self t) (sorted rank true packs')) as Hm.
    destruct (mapM _ _) as [tasks|]; [done|]. apply Hm.
    intros [key' pack] Hin. rewrite (sorted_perm rank true packs') in Hin.
    apply (pack_task_Ok t key' pack (length (uncontroversial1 self))); [done| |].
    + rewrite Forall_forall in Hne. by apply (Hne _ Hin).
    + intros x Hx. by apply (Hlen _ x Hin).
  - destruct (truthy (uncontroversial2 self) && truthy (splittable t)) eqn:Htr; [|done].
    apply andb_true_iff in Htr as [Hunc Hspl].
    assert (splittable t ≠ []) as Hne by (by destruct (splittable t)).
    destruct (lookup_lt_is_Some_2 (uncontroversial2 self) (pivot2 t)) as [f Hf].
    { destruct Hwf as (_ & [Hz|Hlt] & _); [|done].
      destruct (uncontroversial2 self); [done | simpl in Hz; lia]. }
    rewrite Hf. simpl.
    destruct (task_wf_pivot self t f Hnd Hwf Hf) as (-> & b & Hr & Hb & ->).
    simpl. destruct b as [lower upper].
    destruct (decide _) as [Hnarrow|Hwide]; [|done].
    destruct (task_wf_exhausted self t f (lower, upper) Hnd Hwf Hne Hf Hb Hnarrow)
      as (_splittable & -> & _). done.
Qed.

(** On a machine with at least two CPUs no iteration of an execution
    raises: whatever chunk of the queue a worker takes, its iteration
    comes to its end. *)
Lemma worker1_run_progress sh recorded abandoned before t rest :
  interp_wf self → 1 < cpu_count →
  worker1_run self sh recorded abandoned →
  queue1 sh = before ++ Partition t :: rest →
  is_Ok (worker1_chunk self t
           {| queue1 := before ++ rest; packs := packs sh; patterns := patterns sh;
              partitions := partitions sh; feasible := feasible sh;
              explored := explored sh |}) = true.
Proof.
  intros Hwf Hcpu Hrun Hq.
  assert (t ∈ queued_tasks sh) as Hin.
  { unfold queued_tasks. rewrite Hq, omap_app. simpl. apply elem_of_app. right. left. }
  apply worker1_chunk_Ok; [done | done | | |].
  - by apply (worker1_run_keys self sh recorded abandoned).
  - destruct Hwf as (_ & _ & Hnd). by apply (worker1_run_wf self sh recorded abandoned).
  - intros Hstage. simpl.
    destruct (worker1_run_stage _ _ _ Hrun) as [->|Hpast]; [done|].
    specialize (Hpast t Hin). lia.
Qed.
End progress.

(** ** Facts about Worker 1: conservation of the percents *)

Section percent_facts.
Context {Node FState BState : Type} `{Countable Node}.
Context `{!Precursory Node FState} `{!BiasDomain FState BState} `{!PyStr} `{machine : !Machine}.
Context (self : BackwardInterpreter Node BState).
Implicit Types (sh : Shared Node) (t : Task Node) (item : QItem Node).

End percent_facts.

(** ** Facts about the startup of [analyze] *)

Lemma read_variables_length n specification :
  length (read_variables n specification).1 = n.
Proof.
  revert specification. induction n as [|n IH]; intros specification; [done|].
  simpl. destruct (readline specification) as [line specification'].
  specialize (IH specification').
  destruct (read_variables n specification') as [variables rest]. simpl in *. lia.
Qed.

(** The loop reading the one-hot encoded features ends before its fuel
    does: every iteration that does not leave the loop reads a line. *)
Lemma read_variables_rest n specification :
  length (read_variables n specification).2 ≤ length specification.
Proof.
  revert specification. induction n as [|n IH]; intros specification; [done|].
  simpl. destruct specification as [|line specification']; simpl.
  - specialize (IH []). destruct (read_variables n []) as [variables rest]. done.
  - specialize (IH specification').
    destruct (read_variables n specification') as [variables rest]. simpl in *. lia.
Qed.

Lemma read_uncontroversial1_fuel fuel : ∀ specification acc fuel',
  length specification < fuel → fuel ≤ fuel' →
  read_uncontroversial1 fuel' specification acc
  = read_uncontroversial1 fuel specification acc.
Proof.
  induction fuel as [|fuel IH]; intros specification acc fuel' Hlen Hle; [lia|].
  destruct fuel' as [|fuel']; [lia|]. simpl.
  destruct specification as [|line rest]; simpl; [done|].
  destruct (int (strip line)) as [n|]; [|done].
  pose proof (read_variables_rest (Z.to_nat n) rest) as Hrest.
  destruct (read_variables (Z.to_nat n) rest) as [uncontroversial rest']. simpl in *.
  apply IH; lia.
Qed.

Section analyze_facts.
Context {Node BState : Type} `{Countable Node}.

(** C8 (amended). [analyze] does not compare the variables the
    specification names with [inputs]: whether its startup succeeds does
    not depend on [inputs] at all (it fails only when the first line is
    not an integer or declares no sensitive variable), and when it
    succeeds the first chunk is posted; a named variable that is not an
    input stays where the file declares it and the custom encoded
    features are the inputs that the file does not name. *)
Theorem analyze_startup_unchecked (widening0 : Z) (difference0 : Qc)
    (specification : list string) (initial : BState)
    (inputs outputs0 : gset VariableIdentifier) (activations0 : gset Node) :
  (∀ inputs',
     is_Ok (analyze_startup widening0 difference0 specification initial
              inputs' outputs0 activations0)
     = is_Ok (analyze_startup widening0 difference0 specification initial
                inputs outputs0 activations0))
  ∧ is_Ok (analyze_startup widening0 difference0 specification initial
             inputs outputs0 activations0)
    = match int (strip (readline specification).1) with
      | Some arity => bool_decide (0 < arity)%Z
      | None => false
      end
  ∧ ∀ self sh,
      analyze_startup widening0 difference0 specification initial
        inputs outputs0 activations0 = Ok (self, sh) →
      sh = initial_shared self
      ∧ specification_variables specification
        = Ok (sensitive self ++ concat (uncontroversial1 self))
      ∧ NoDup (uncontroversial2 self)
      ∧ ∀ v, v ∈ uncontroversial2 self
             ↔ v ∈ inputs ∧ v ∉ sensitive self ++ concat (uncontroversial1 self).
Proof.
  unfold analyze_startup, specification_variables.
  destruct (readline specification) as [line rest]. simpl.
  destruct (int (strip line)) as [arity|]; simpl; [|by repeat split].
  pose proof (read_variables_length (Z.to_nat arity) rest) as Hlen.
  destruct (read_variables (Z.to_nat arity) rest) as [sensitive0 rest']. simpl in Hlen.
  destruct (sensitive0 !! 0) as [first|] eqn:Hfirst; simpl.
  - split; [done|]. split.
    + apply lookup_lt_Some in Hfirst. symmetry. apply bool_decide_eq_true. lia.
    + intros self sh [= <- <-]. simpl. split; [done|]. split; [done|].
      split; [apply NoDup_elements|]. intros v.
      rewrite elem_of_elements, !elem_of_difference, !elem_of_list_to_set, elem_of_app.
      tauto.
  - split; [done|]. split; [|done].
    apply lookup_ge_None in Hfirst. symmetry. apply bool_decide_eq_false. lia.
Qed.
End analyze_facts.

Section analyze_wf.
Context {Node FState BState : Type} `{Countable Node}.
Context `{!Precursory Node FState} `{!BiasDomain FState BState} `{!PyStr} `{machine : !Machine}.

(** The interpreter [analyze] sets up is well-formed as soon as no
    one-hot encoded feature is declared without variable. *)
Lemma analyze_startup_wf widening0 difference0 specification (initial : BState)
    inputs outputs0 (activations0 : gset Node) self sh :
  analyze_startup widening0 difference0 specification initial inputs outputs0 activations0
  = Ok (self, sh) →
  count self ≠ 0 → interp_wf self.
Proof.
  unfold analyze_startup.
  destruct (readline specification) as [line rest]. simpl.
  destruct (int (strip line)) as [arity|]; simpl; [|done].
  destruct (read_variables (Z.to_nat arity) rest) as [sensitive0 rest'].
  destruct (sensitive0 !! 0) as [first|]; simpl; [|done].
  intros [= <- <-] Hcount. split; [done|]. split; [done|]. apply NoDup_elements.
Qed.
End analyze_wf.

Section ranked.
Context {Node : Type} (cfg : ControlFlowGraph Node).

(** A graph whose edges go down a rank has no cycle. *)
Lemma acyclic_ranked (rank : Node → nat) :
  (∀ node predecessor, cfg_edge cfg node predecessor → rank predecessor < rank node) →
  acyclic cfg.
Proof.
  intros Hrank node Hloop.
  assert (∀ n m, tc (cfg_edge cfg) n m → rank m < rank n) as Htc.
  { intros n m Hnm. induction Hnm as [n m Hedge | n m k Hedge _ IH].
    - by apply Hrank.
    - specialize (Hrank _ _ Hedge). lia. }
  specialize (Htc _ _ Hloop). lia.
Qed.
End ranked.

(** ** More facts about [one_hots] and [feasibility] *)

Lemma comparisons_prepend (l : list VariableIdentifier) (value : Expression) :
  comparisons (fold_left (λ value vj,
                 BinaryBooleanOperation (between (Literal "0") vj (Literal "0")) And value)
                 l value)
  = (rev l ≫= fixed "0") ++ comparisons value.
Proof.
  revert value. induction l as [|vj l IH]; intros value; [done|].
  cbn [fold_left]. rewrite IH. cbn [comparisons between app rev].
  rewrite bind_app, <-app_assoc. done.
Qed.

Lemma comparisons_append (l : list VariableIdentifier) (value : Expression) :
  comparisons (fold_left (λ value vj,
                 BinaryBooleanOperation value And (between (Literal "0") vj (Literal "0")))
                 l value)
  = comparisons value ++ (l ≫= fixed "0").
Proof.
  revert value. induction l as [|vj l IH]; intros value; [by rewrite app_nil_r|].
  cbn [fold_left]. rewrite IH. cbn [comparisons between app].
  rewrite bind_cons, <-app_assoc. done.
Qed.

Lemma one_hots_values_NoDup variables : NoDup (one_hots variables).*2.
Proof.
  pose proof (one_hots_NoDup variables) as Hnd.
  apply NoDup_alt. intros i j value Hi Hj.
  rewrite list_lookup_fmap in Hi, Hj. unfold one_hots in *.
  rewrite list_lookup_imap in Hi, Hj.
  destruct (variables !! i) as [vi|] eqn:Hvi; [|done].
  destruct (variables !! j) as [vj|] eqn:Hvj; [|done].
  simpl in *. injection Hi as <-. injection Hj as Hlit.
  apply (f_equal literals) in Hlit. symmetry in Hlit.
  rewrite !literals_one_hot_value in Hlit.
  apply lookup_lt_Some in Hvi, Hvj.
  rewrite !length_take in Hlit.
  replace (i `min` length variables) with i in Hlit by lia.
  replace (j `min` length variables) with j in Hlit by lia.
  destruct (decide (i = j)) as [|Hne]; [done|]. exfalso.
  assert (∀ a b (r1 r2 : list string), a < b →
            replicate (2 * a) "0"%string ++ ["1"; "1"]%string ++ r1
            ≠ replicate (2 * b) "0"%string ++ ["1"; "1"]%string ++ r2) as Hdiff.
  { clear. intros a b r1 r2 Hab Heq.
    apply (f_equal (.!! (2 * a))) in Heq.
    rewrite lookup_app_r in Heq by (rewrite length_replicate; lia).
    rewrite length_replicate, Nat.sub_diag in Heq. simpl in Heq.
    rewrite lookup_app_l in Heq by (rewrite length_replicate; lia).
    rewrite lookup_replicate_2 in Heq by lia. done. }
  destruct (decide (i < j)).
  - by apply (Hdiff i j) in Hlit.
  - symmetry in Hlit. apply (Hdiff j i) in Hlit; [done | lia].
Qed.



Lemma default_last_cons {A} (x d1 : A) (l : list A) :
  default d1 (last (x :: l)) = default x (last l).
Proof.
  revert x d1. induction l as [|y l IH]; intros x d1; [done|].
  change (last (x :: y :: l)) with (last (y :: l)). by rewrite !(IH y).
Qed.

Section feasibility_extra.
Context {Node FState BState : Type} `{Countable Node}.
Context `{!Precursory Node FState}.
Context (self : BackwardInterpreter Node BState).

Lemma feasibility_loop_all state key do vs : ∀ off feasible0 patterns0 d0 f ps d,
  (∀ i v, vs !! i = Some v → forced key (off + i) = Ok (forced_sets key (off + i))) →
  feasibility_loop self state key do (imap (λ i v, (off + i, v)) vs)
    feasible0 patterns0 d0 = Ok (f, ps, d) →
  do = true ∨ f = true →
  ps = patterns0 ++ imap (λ i v, pattern_at state key (off + i) v) vs
  ∧ d = default d0 (last (imap (λ i v, d_at self state key (off + i) v) vs)).
Proof.
  induction vs as [|value vs IH]; intros off feasible0 patterns0 d0 f ps d Hforced.
  - simpl. intros [= _ <- <-] _. by rewrite app_nil_r.
  - simpl. rewrite (Hforced 0 value eq_refl). simpl.
    change (disjunctions_of self
              (precursory_analyze (fwd_assume state value.2) None
                 (forced_sets key (off + 0)).1 (forced_sets key (off + 0)).2))
      with (d_at self state key (off + 0) value).
    change (precursory_analyze (fwd_assume state value.2) None
              (forced_sets key (off + 0)).1 (forced_sets key (off + 0)).2)
      with (analysis_at state key (off + 0) value).
    assert (∀ f0 p0 dd,
      feasibility_loop self state key do (imap ((λ i v, (off + i, v)) ∘ S) vs) f0 p0 dd
      = feasibility_loop self state key do (imap (λ i v, (S off + i, v)) vs) f0 p0 dd)
      as Hshift.
    { intros. f_equal. apply imap_ext. intros; simpl. f_equal. lia. }
    assert (∀ i v, vs !! i = Some v →
              forced key (S off + i) = Ok (forced_sets key (S off + i))) as Hforced'.
    { intros i v Hi. replace (S off + i) with (off + S i) by lia.
      by apply (Hforced (S i) v). }
    assert (∀ (p0 : list (OneHot1 * gset Node * gset Node)) d1,
      p0 ++ imap (λ i v, pattern_at state key (S off + i) v) vs
      = p0 ++ imap ((λ i v, pattern_at state key (off + i) v) ∘ S) vs
      ∧ default d1 (last (imap (λ i v, d_at self state key (S off + i) v) vs))
        = default d1 (last (imap ((λ i v, d_at self state key (off + i) v) ∘ S) vs)))
      as Hre.
    { intros. split; [f_equal | do 2 f_equal];
        apply imap_ext; intros; simpl; f_equal; lia. }
    rewrite default_last_cons.
    destruct (Z.ltb_spec (widening self) (d_at self state key (off + 0) value))
      as [Hbig | Hsmall].
    + destruct do; simpl.
      * rewrite Hshift. intros Hrun Hnb.
        destruct (IH _ _ _ _ _ _ _ Hforced' Hrun Hnb) as [-> ->].
        destruct (Hre (patterns0 ++ [pattern_at state key (off + 0) value])
                    (d_at self state key (off + 0) value)) as [Hp Hd].
        unfold pattern_at at 1 in Hp. rewrite Hp, Hd, <-app_assoc. done.
      * intros [= <- _ _] [?|?]; done.
    + rewrite Hshift. intros Hrun Hnb.
      destruct (IH _ _ _ _ _ _ _ Hforced' Hrun Hnb) as [-> ->].
      destruct (Hre (patterns0 ++ [pattern_at state key (off + 0) value])
                  (d_at self state key (off + 0) value)) as [Hp Hd].
      unfold pattern_at at 1 in Hp. rewrite Hp, Hd, <-app_assoc. done.
Qed.


Lemma feasibility_loop_short state key do vs : ∀ n off feasible0 patterns0 d0,
  n < length vs →
  (∀ i, i < n → forced key (off + i) = Ok (forced_sets key (off + i))) →
  forced key (off + n) = Raise IndexError →
  (do = true ∨ ∀ i v, i < n → vs !! i = Some v →
                      (d_at self state key (off + i) v ≤ widening self)%Z) →
  feasibility_loop self state key do (imap (λ i v, (off + i, v)) vs)
    feasible0 patterns0 d0 = Raise IndexError.
Proof.
  induction vs as [|value vs IH]; intros n off feasible0 patterns0 d0 Hn Hok Hbad Hgo;
    [simpl in Hn; lia|].
  simpl. destruct n as [|n].
  - by rewrite Hbad.
  - rewrite (Hok 0) by lia. simpl.
    change (disjunctions_of self
              (precursory_analyze (fwd_assume state value.2) None
                 (forced_sets key (off + 0)).1 (forced_sets key (off + 0)).2))
      with (d_at self state key (off + 0) value).
    assert (∀ f0 p0 dd,
      feasibility_loop self state key do (imap ((λ i v, (off + i, v)) ∘ S) vs) f0 p0 dd
      = feasibility_loop self state key do (imap (λ i v, (S off + i, v)) vs) f0 p0 dd)
      as Hshift.
    { intros. f_equal. apply imap_ext. intros; simpl. f_equal. lia. }
    assert (∀ f0 p0 dd,
      feasibility_loop self state key do (imap (λ i v, (S off + i, v)) vs) f0 p0 dd
      = Raise IndexError) as Hrec.
    { intros. apply (IH n); [simpl in Hn; lia | | |].
      - intros i Hi. replace (S off + i) with (off + S i) by lia. apply Hok. lia.
      - by replace (S off + n) with (off + S n) by lia.
      - destruct Hgo as [?|Hgo]; [by left | right].
        intros i v Hi Hv. replace (S off + i) with (off + S i) by lia.
        apply (Hgo (S i) v); [lia | done]. }
    destruct (Z.ltb_spec (widening self) (d_at self state key (off + 0) value))
      as [Hbig | Hsmall].
    + destruct Hgo as [->|Hgo]; simpl.
      * by rewrite Hshift, Hrec.
      * specialize (Hgo 0 value ltac:(lia) eq_refl). lia.
    + by rewrite Hshift, Hrec.
Qed.

End feasibility_extra.

(** ** More facts about [packing] *)

Section pydict_extra.
Context {K V : Type} `{EqDecision K}.
Implicit Types (d : list (K * V)).

Lemma dict_set_keys_iff k v d x : x ∈ (dict_set k v d).*1 ↔ x = k ∨ x ∈ d.*1.
Proof.
  split; [apply dict_set_keys|].
  induction d as [|[k' v'] d IH]; simpl.
  - intros [->|Hx]; [left | by apply elem_of_nil in Hx].
  - destruct (decide (k = k')) as [->|Hne]; simpl.
    + intros [->|Hx]; [left | done].
    + intros [->|[->|Hx]%elem_of_cons]; [right; apply IH; by left | left |].
      right. apply IH. by right.
Qed.

Lemma dict_set_elem_iff k v d kv :
  NoDup d.*1 → kv ∈ dict_set k v d ↔ kv = (k, v) ∨ (kv ∈ d ∧ kv.1 ≠ k).
Proof.
  intros Hnd. destruct (decide (k ∈ d.*1)) as [Hin|Hout].
  - apply list_elem_of_fmap in Hin as ([k' v0] & -> & Hin). simpl.
    destruct (dict_split _ _ _ Hnd Hin) as (d1 & d2 & -> & Hk1 & Hk2).
    rewrite dict_set_mid by done.
    rewrite !elem_of_app, !elem_of_cons. split.
    + intros [H1|[->|H2]]; [right | by left | right].
      * split; [by left|]. intros <-. apply Hk1. apply list_elem_of_fmap. by exists kv.
      * split; [right; by right|]. intros <-. apply Hk2. apply list_elem_of_fmap. by exists kv.
    + intros [->|[[H1|[->|H2]] Hne]]; [right; by left | by left | done | right; by right].
  - rewrite dict_set_fresh by done. rewrite elem_of_app, list_elem_of_singleton. split.
    + intros [Hd| ->]; [right | by left]. split; [done|].
      intros <-. apply Hout. apply list_elem_of_fmap. by exists kv.
    + intros [->|[Hd _]]; [by right | by left].
Qed.
End pydict_extra.

Section packing_extra.
Context {Node FState BState : Type} `{Countable Node}.
Context `{!Precursory Node FState} `{!BiasDomain FState BState} `{!PyStr} `{machine : !Machine}.
Context (self : BackwardInterpreter Node BState).
Implicit Types (d : list (Pattern Node * gset OneHotN)).


Lemma consumer_put_inv (entry : FState) d (seen : list OneHotN) (x : OneHotN) :
  packs_inv self entry d seen →
  packs_inv self entry (consumer_put self entry d x) (seen ++ [x]).
Proof.
  intros (Hnd & Hpacks & Hkeys). unfold consumer_put.
  set (k := consumer_key self entry x).
  split; [by apply dict_set_NoDup|]. split.
  - intros k' pack' [[= -> ->]|[Hin Hne]]%dict_set_elem_iff; [|simpl in Hne|done].
    + split; [clear; set_solver|]. intros y.
      rewrite elem_of_union, elem_of_singleton, elem_of_app, list_elem_of_singleton.
      destruct (dict_get k d) as [curr|] eqn:Hget; simpl.
      * apply dict_get_Some in Hget. destruct (Hpacks k curr Hget) as [_ Hcurr].
        rewrite Hcurr. split; [intros [[??]| ->]; [split; [by left | done] | split; [by right | done]]|].
        intros [[?| ->] ?]; [left | right]; done.
      * apply dict_get_None in Hget. split.
        -- intros [Hy| ->]; [by apply elem_of_empty in Hy | split; [by right | done]].
        -- intros [[Hy| ->] Hk]; [|by right].
           exfalso. apply Hget. rewrite <-Hk. by apply Hkeys.
    + destruct (Hpacks k' pack' Hin) as [Hne' Hpack]. split; [done|]. intros y.
      rewrite Hpack, elem_of_app, list_elem_of_singleton. split.
      * intros [??]. split; [by left | done].
      * intros [[?| ->] ?]; [done|]. exfalso. by apply Hne.
  - intros y [Hy| ->%list_elem_of_singleton]%elem_of_app; apply dict_set_keys_iff.
    + right. by apply Hkeys.
    + by left.
Qed.

Lemma consumers_inv (entry : FState) (l : list OneHotN) : ∀ d seen,
  packs_inv self entry d seen →
  packs_inv self entry (fold_left (consumer_put self entry) l d) (seen ++ l).
Proof.
  induction l as [|x l IH]; intros d seen Hinv; simpl.
  - by rewrite app_nil_r.
  - replace (seen ++ x :: l) with ((seen ++ [x]) ++ l) by (by rewrite <-app_assoc).
    apply IH. by apply consumer_put_inv.
Qed.

(** Without a consumer [packing] leaves the dictionary as it is and
    checks its assertion on it. *)
Lemma packing_no_consumer (entry : FState) d :
  cpu_count ≤ 1 →
  packing self entry d
  = if decide (count self = sizes d) then Ok d else Raise AssertionError.
Proof.
  intros Hcpu. unfold packing, consumed.
  by rewrite (decide_True (P := consumers = 0)) by (unfold consumers; lia).
Qed.


End packing_extra.

(** ** More facts about Worker 1 *)

Lemma Qc_half_lt (p : Qc) : (0 < p)%Qc → (p / 2 < p)%Qc.
Proof.
  intros Hp. 
  replace p with (p / 2 + p / 2)%Qc at 2 by (field; done).
  rewrite <-(Qcplus_0_r (p / 2)) at 1.
  apply Qcplus_lt_mono_l. by apply Qc_half_pos.
Qed.

Lemma Qc_middle (lower upper : Qc) :
  (lower < upper)%Qc →
  (lower < lower + (upper - lower) / 2)%Qc ∧ (lower + (upper - lower) / 2 < upper)%Qc.
Proof.
  intros Hlt.
  assert (0 < upper - lower)%Qc as Hw.
  { apply (Qcplus_lt_mono_r _ _ lower). by replace (upper - lower + lower)%Qc with upper by ring;
      rewrite Qcplus_0_l. }
  split.
  - rewrite <-(Qcplus_0_r lower) at 1. apply Qcplus_lt_mono_l. by apply Qc_half_pos.
  - replace upper with (lower + (upper - lower))%Qc at 2 by ring.
    apply Qcplus_lt_mono_l. by apply Qc_half_lt.
Qed.

Section pydict_forall.
Context {K V : Type} `{EqDecision K}.
Implicit Types (d : list (K * V)).

Lemma dict_set_Forall (P : V → Prop) k v d :
  Forall (λ kv, P kv.2) d → P v → Forall (λ kv, P kv.2) (dict_set k v d).
Proof.
  intros Hd Hv. induction Hd as [|[k' v'] d Hx Hd IH]; simpl.
  - by constructor.
  - destruct (decide (k = k')) as [->|Hne]; by constructor.
Qed.

Lemma dict_of_items_Forall (P : V → Prop) d :
  Forall (λ kv, P kv.2) d → Forall (λ kv, P kv.2) (dict_of_items d).
Proof.
  unfold dict_of_items. intros Hd.
  enough (∀ acc, Forall (λ kv, P kv.2) acc →
            Forall (λ kv, P kv.2) (fold_left (λ d0 kv, dict_set kv.1 kv.2 d0) d acc)) as Hgen
    by (apply Hgen; constructor).
  induction Hd as [|[k v] d Hx Hd IH]; intros acc Hacc; simpl; [done|].
  apply IH. by apply dict_set_Forall.
Qed.
End pydict_forall.

Lemma Qc_of_nat_pos (n : nat) : 0 < n → (0 < Qc_of_nat n)%Qc.
Proof.
  intros Hn. unfold Qc_of_nat. rewrite <-Z2Qc_inj_0.
  apply (proj1 (Z2Qc_inj_lt _ _)). lia.
Qed.

Lemma Qc_of_nat_le (n m : nat) : n ≤ m → (Qc_of_nat n ≤ Qc_of_nat m)%Qc.
Proof. intros Hn. unfold Qc_of_nat. apply (proj1 (Z2Qc_inj_le _ _)). lia. Qed.

(** The share [p * s / c] of a percent [p], for [0 < s <= c]. *)
Lemma Qc_share (p s c : Qc) :
  (0 < p)%Qc → (0 < s)%Qc → (s ≤ c)%Qc →
  (0 < p * s / c)%Qc ∧ (p * s / c ≤ p)%Qc.
Proof.
  intros Hp Hs Hsc.
  assert (0 < c)%Qc as Hc by (by eapply Qclt_le_trans).
  assert (c ≠ 0%Qc) as Hc0 by (intros ->; by apply Qclt_not_eq in Hc).
  split.
  - apply Qcmult_pos_pos; [by apply Qcmult_pos_pos | by apply Qcinv_pos].
  - apply (Qcmult_le_mono_pos_r _ _ c Hc).
    replace (p * s / c * c)%Qc with (p * s)%Qc by (field; done).
    by apply Qcmult_le_mono_pos_l.
Qed.

Section worker1_extra.
Context {Node FState BState : Type} `{Countable Node}.
Context `{!Precursory Node FState} `{!BiasDomain FState BState} `{!PyStr} `{machine : !Machine}.
Context (self : BackwardInterpreter Node BState).
Implicit Types (sh : Shared Node) (t : Task Node) (item : QItem Node).

(** A property of the chunks that the first chunk has and that every
    iteration of an execution hands on to the chunks it posts holds of
    every chunk of the queue. *)
Lemma worker1_run_chunks (P : Task Node → Prop) :
  P (initial_task self (initial_ranges self)) →
  (∀ sh recorded abandoned before t rest sh',
     worker1_run self sh recorded abandoned →
     queue1 sh = before ++ Partition t :: rest →
     P t →
     worker1_chunk self t
       {| queue1 := before ++ rest; packs := packs sh; patterns := patterns sh;
          partitions := partitions sh; feasible := feasible sh;
          explored := explored sh |} = Ok sh' →
     ∀ t', t' ∈ queued_tasks sh' →
           t' ∈ omap (λ item, match item with Partition t => Some t | NoMoreChunks => None end)
                  (before ++ rest)
           ∨ P t') →
  ∀ sh recorded abandoned,
    worker1_run self sh recorded abandoned → ∀ t, t ∈ queued_tasks sh → P t.
Proof.
  intros Hinit Hstep sh recorded abandoned Hrun.
  induction Hrun as [|sh sh' recorded abandoned before t rest Hrun IH Hq Hchunk
                     |sh recorded abandoned before rest _ IH Hq].
  - intros t [->|Hin]%elem_of_cons; [done | by apply elem_of_nil in Hin].
  - intros t' Hin.
    assert (P t) as Ht.
    { apply IH. unfold queued_tasks. rewrite Hq, omap_app. simpl.
      apply elem_of_app. right. left. }
    destruct (Hstep _ _ _ _ _ _ _ Hrun Hq Ht Hchunk t' Hin) as [Hold|Hnew]; [|done].
    apply IH. unfold queued_tasks. rewrite Hq. rewrite omap_app in *. simpl.
    apply elem_of_app in Hold as [?|?]; apply elem_of_app; [by left | right; by right].
  - intros t' Hin. apply IH. unfold queued_tasks, put in *. simpl in Hin. rewrite Hq.
    rewrite !omap_app in *. simpl in *. rewrite app_nil_r in Hin.
    apply elem_of_app in Hin as [?|?]; apply elem_of_app; [by left | by right].
Qed.



Lemma size_le_sizes (k : Pattern Node) (pack : gset OneHotN)
    (d : list (Pattern Node * gset OneHotN)) :
  (k, pack) ∈ d → size pack ≤ sizes d.
Proof.
  unfold sizes. induction d as [|[k' p'] d IH]; [by intros ?%elem_of_nil|].
  rewrite fmap_cons. cbn [sum_list sum_list_with snd id].
  intros [[= -> ->]|Hin]%elem_of_cons; [lia|]. specialize (IH Hin). lia.
Qed.

Lemma initial_task_ok : chunk_ok (initial_task self (initial_ranges self)).
Proof.
  split; [done|]. split; [done|]. unfold initial_task, initial_ranges. simpl.
  enough (∀ (l : list VariableIdentifier) acc,
            Forall (λ r : VariableIdentifier * (Qc * Qc), range_ok r.2) acc →
            Forall (λ r : VariableIdentifier * (Qc * Qc), range_ok r.2)
              (fold_left (λ d u, dict_set u (0, 1)%Qc d) l acc)) as Hgen
    by (apply Hgen; constructor).
  induction l as [|u l IH]; intros acc Hacc; simpl; [done|].
  apply IH. apply (dict_set_Forall range_ok); [done|]. by repeat split.
Qed.

(** An iteration on a chunk with a positive percent of at most 100 and
    ranges inside the unit interval posts such chunks only. *)
Lemma worker1_chunk_ok t sh sh' :
  interp_wf self →
  (pivot1 t < length (uncontroversial1 self) → packs sh = []) →
  chunk_ok t →
  worker1_chunk self t sh = Ok sh' →
  ∀ t', t' ∈ queued_tasks sh' → t' ∈ queued_tasks sh ∨ chunk_ok t'.
Proof.
  intros (Hcount & Hcount0 & Hnd) Hfirst (Hpos & H100 & Hranges). unfold worker1_chunk.
  destruct (feasibility self (chunk_entry self t) (key t) false)
    as [[[feasible' patterns'] d]|]; simpl; [|done].
  destruct feasible'.
  - intros [= <-] t'. simpl.
    match goal with |- context [add_explored ?p ?s] =>
      destruct (add_explored_spec p s) as (_ & _ & _ & _ & _ & Hq) end.
    unfold queued_tasks in *. simpl in *. rewrite Hq. by left.
  - destruct (pivot1 t <? length (uncontroversial1 self)) eqn:Hstage.
    + apply Nat.ltb_lt in Hstage. rewrite (Hfirst Hstage).
      destruct (decide (1 < cpu_count)) as [Hcpu|Hcpu].
      2:{ rewrite (packing_no_consumer self) by lia. unfold sizes. simpl.
          by rewrite decide_False. }
      destruct (packing_initial self (chunk_entry self t) Hcpu Hcount)
        as (packs'' & Hpack & Hne & _).
      rewrite Hpack. simpl.
      assert (sizes packs'' = count self) as Hsizes.
      { unfold packing in Hpack. destruct (decide _) as [Heq|]; [|done].
        by injection Hpack as <-. }
      destruct (mapM _ _) as [tasks|] eqn:Htasks; simpl; [|done].
      intros [= <-] t'. unfold queued_tasks. simpl.
      rewrite omap_app. intros [Hin | Hin]%elem_of_app; [by left|]. right.
      apply list_elem_of_omap in Hin as ([t''|] & Hin & Heq); simplify_eq/=.
      apply list_elem_of_fmap in Hin as (t'' & [= <-] & Hin).
      apply mapM_result_Forall2 in Htasks.
      apply list_elem_of_lookup in Hin as [i Hi].
      destruct (Forall2_lookup_r _ _ _ _ _ Htasks Hi) as ([key' pack] & Hkp & Hpt).
      apply list_elem_of_lookup_2 in Hkp. rewrite (sorted_perm rank true packs'') in Hkp.
      apply (pack_task_percent self) in Hpt as (_ & Hp & Hr & _).
      rewrite Forall_forall in Hne. specialize (Hne _ Hkp). simpl in Hne.
      pose proof (size_le_sizes _ _ _ Hkp) as Hle. rewrite Hsizes in Hle.
      assert (0 < size pack) as Hsz.
      { destruct (decide (size pack = 0)) as [Hz|]; [|lia].
        apply size_empty_iff, leibniz_equiv in Hz. done. }
      destruct (Qc_share (percent t) (Qc_of_nat (size pack)) (Qc_of_nat (count self)))
        as [Hp1 Hp2]; [done | by apply Qc_of_nat_pos | by apply Qc_of_nat_le |].
      unfold chunk_ok. rewrite Hp, Hr. split; [done|]. split; [|done].
      by eapply Qcle_trans.
    + destruct (truthy (uncontroversial2 self) && truthy (splittable t)).
      * destruct (or_raise IndexError _) as [f|]; simpl; [|done].
        destruct (dict_get f (dict_of_items (ranges t))) as [[lower upper]|] eqn:Hget;
          simpl; [|done].
        pose proof (dict_of_items_Forall range_ok _ Hranges) as Hdict.
        apply dict_get_Some in Hget as Hin.
        rewrite Forall_forall in Hdict. destruct (Hdict _ Hin) as (Hl & Hlu & Hu).
        simpl in Hl, Hlu, Hu. rewrite <-Forall_forall in Hdict.
        destruct (decide _).
        -- destruct (or_raise ValueError _) as [_splittable|]; simpl; [|done].
           intros [= <-] t'. rewrite queued_tasks_put_task.
           intros [Hin' | ->%list_elem_of_singleton]%elem_of_app; [by left | by right].
        -- destruct (Qc_middle lower upper Hlu) as [Hm1 Hm2].
           assert (0 < percent t / 2)%Qc as Hh1 by (by apply Qc_half_pos).
           assert (percent t / 2 ≤ Qc_of_Z 100)%Qc as Hh2.
           { eapply Qcle_trans; [|exact H100]. by apply Qclt_le_weak, Qc_half_lt. }
           intros [= <-] t'. rewrite !queued_tasks_put_task.
           intros [[Hin' | ->%list_elem_of_singleton]%elem_of_app
                  | ->%list_elem_of_singleton]%elem_of_app; [by left | right | right].
           ++ split; [done|]. split; [done|]. simpl.
              apply (dict_set_Forall range_ok); [done|]. split; [done|]. split; [done|].
              simpl. eapply Qcle_trans; [by apply Qclt_le_weak | done].
           ++ split; [done|]. split; [done|]. simpl.
              apply (dict_set_Forall range_ok); [done|]. split; [|done]. simpl.
              eapply Qcle_trans; [exact Hl | by apply Qclt_le_weak].
      * intros [= <-] t'.
        destruct (add_explored_spec (percent t) sh) as (_ & _ & _ & _ & _ & ->).
        by left.
Qed.

(** Every chunk of the queue of an execution is such a chunk. *)
Lemma worker1_run_ok sh (recorded abandoned : list Qc) :
  interp_wf self →
  worker1_run self sh recorded abandoned →
  ∀ t, t ∈ queued_tasks sh → chunk_ok t.
Proof.
  intros Hwf. apply worker1_run_chunks; [apply initial_task_ok|].
  intros sh1 rec1 ab1 before t rest sh' Hrun Hq Ht Hchunk t' Hin.
  refine (worker1_chunk_ok t _ sh' Hwf _ Ht Hchunk t' Hin).
  intros Hstage. simpl.
  destruct (worker1_run_stage self _ _ _ Hrun) as [->|Hpast]; [done|].
  assert (t ∈ queued_tasks sh1) as Hint.
  { unfold queued_tasks. rewrite Hq, omap_app. simpl. apply elem_of_app. right. left. }
  specialize (Hpast t Hint). lia.
Qed.

(** *** The sentinel *)

Lemma add_explored_queue (p : Qc) sh :
  explored (add_explored p sh) = (explored sh + p)%Qc
  ∧ queue1 (add_explored p sh)
    = if decide (Qc_of_Z 100 ≤ explored sh + p)%Qc then queue1 sh ++ [NoMoreChunks]
      else queue1 sh.
Proof. unfold add_explored. simpl. by destruct (decide _). Qed.

Lemma Qcle_plus_nonneg (x p : Qc) : (0 ≤ p)%Qc → (x ≤ x + p)%Qc.
Proof.
  intros Hp. rewrite <-(Qcplus_0_r x) at 1. by apply Qcplus_le_mono_l.
Qed.

(** An iteration does not lower [self.explored], and it adds a sentinel
    only when [self.explored] has reached 100. *)
Lemma worker1_chunk_sentinel t sh sh' :
  (0 ≤ percent t)%Qc →
  worker1_chunk self t sh = Ok sh' →
  (explored sh ≤ explored sh')%Qc
  ∧ (NoMoreChunks ∈ queue1 sh' →
     NoMoreChunks ∈ queue1 sh ∨ (Qc_of_Z 100 ≤ explored sh')%Qc).
Proof.
  intros Hp. unfold worker1_chunk.
  destruct (feasibility self (chunk_entry self t) (key t) false)
    as [[[feasible' patterns'] d]|]; simpl; [|done].
  destruct feasible'.
  - intros [= <-]. simpl.
    match goal with |- context [add_explored ?p ?s] =>
      destruct (add_explored_queue p s) as (He & Hq) end.
    rewrite He, Hq. simpl. split; [by apply Qcle_plus_nonneg|].
    destruct (decide _) as [Hbig|]; [|by left].
    intros _. by right.
  - destruct (pivot1 t <? length (uncontroversial1 self)).
    + destruct (packing self _ _) as [packs'|]; simpl; [|done].
      destruct (mapM _ _) as [tasks|]; simpl; [|done].
      intros [= <-]. simpl. split; [apply Qcle_refl|].
      intros [Hin|Hin]%elem_of_app; [by left|].
      by apply list_elem_of_fmap in Hin as (? & ? & _).
    + destruct (truthy (uncontroversial2 self) && truthy (splittable t)).
      * destruct (or_raise IndexError _) as [f|]; simpl; [|done].
        destruct (or_raise KeyError _) as [[lower upper]|]; simpl; [|done].
        destruct (decide _).
        -- destruct (or_raise ValueError _) as [_splittable|]; simpl; [|done].
           intros [= <-]. simpl. split; [apply Qcle_refl|].
           intros [Hin|Hin%list_elem_of_singleton]%elem_of_app; [by left | done].
        -- intros [= <-]. simpl. split; [apply Qcle_refl|].
           intros [[Hin|Hin%list_elem_of_singleton]%elem_of_app
                  |Hin%list_elem_of_singleton]%elem_of_app; [by left | done | done].
      * intros [= <-].
        destruct (add_explored_queue (percent t) sh) as (He & Hq).
        rewrite He, Hq. split; [by apply Qcle_plus_nonneg|].
        destruct (decide _) as [Hbig|]; [|by left].
        intros _. by right.
Qed.

(** An iteration that leaves no chunk in the queue has posted none, and
    it posts the sentinel if [self.explored] has reached 100. *)
Lemma worker1_chunk_last t sh sh' :
  count self ≠ 0 →
  worker1_chunk self t sh = Ok sh' →
  queued_tasks sh' = [] →
  (Qc_of_Z 100 ≤ explored sh')%Qc → NoMoreChunks ∈ queue1 sh'.
Proof.
  intros Hcount. unfold worker1_chunk.
  destruct (feasibility self (chunk_entry self t) (key t) false)
    as [[[feasible' patterns'] d]|]; simpl; [|done].
  destruct feasible'.
  - intros [= <-]. simpl.
    match goal with |- context [add_explored ?p ?s] =>
      destruct (add_explored_queue p s) as (He & Hq) end.
    rewrite He, Hq. simpl. intros _ Hbig. rewrite decide_True by done.
    apply elem_of_app. right. left.
  - destruct (pivot1 t <? length (uncontroversial1 self)).
    + destruct (packing self _ _) as [packs'|] eqn:Hpack; simpl; [|done].
      destruct (mapM _ _) as [tasks|] eqn:Htasks; simpl; [|done].
      intros [= <-]. unfold queued_tasks. simpl. rewrite omap_app.
      intros [_ Hposts]%app_eq_nil. exfalso.
      destruct tasks as [|task tasks]; [|done].
      apply mapM_result_Forall2, Forall2_length in Htasks. simpl in Htasks.
      pose proof (Permutation_length (sorted_perm rank true packs')) as Hlen.
      rewrite Htasks in Hlen. destruct packs'; [|done].
      unfold packing in Hpack. destruct (decide _) as [Heq|]; [|done].
      injection Hpack as Hfold. rewrite Hfold in Heq. by apply Hcount.
    + destruct (truthy (uncontroversial2 self) && truthy (splittable t)).
      * destruct (or_raise IndexError _) as [f|]; simpl; [|done].
        destruct (or_raise KeyError _) as [[lower upper]|]; simpl; [|done].
        destruct (decide _).
        -- destruct (or_raise ValueError _) as [_splittable|]; simpl; [|done].
           intros [= <-]. rewrite queued_tasks_put_task. by intros [_ ?]%app_eq_nil.
        -- intros [= <-]. rewrite !queued_tasks_put_task. by intros [_ ?]%app_eq_nil.
      * intros [= <-].
        destruct (add_explored_queue (percent t) sh) as (He & Hq).
        rewrite He, Hq. intros _ Hbig. rewrite decide_True by done.
        apply elem_of_app. right. left.
Qed.

(** The percents of an execution (the bookkeeping of the counters). *)
Lemma worker1_run_percents sh (recorded abandoned : list Qc) :
  count self ≠ 0 →
  worker1_run self sh recorded abandoned →
  (explored sh + pending sh)%Qc = Qc_of_Z 100.
Proof.
  intros Hcount Hrun.
  induction Hrun as [|sh sh' recorded abandoned before t rest _ IH Hq Hstep
                     |sh recorded abandoned before rest _ IH Hq].
  - unfold pending. simpl. ring.
  - apply (worker1_chunk_percent self t _ _ Hcount) in Hstep as (Hp & _ & _).
    simpl in *. destruct sh as [q pk pt pa fe ex]. simpl in *. subst q.
    rewrite pending_remove in IH. simpl in IH. rewrite Hp, <-IH. ring.
  - destruct sh as [q pk pt pa fe ex]. simpl in *. subst q.
    rewrite pending_remove in IH. simpl in IH.
    rewrite pending_put. simpl. rewrite <-IH. ring.
Qed.

Lemma pending_pos sh :
  (∀ t, t ∈ queued_tasks sh → (0 < percent t)%Qc) →
  queued_tasks sh ≠ [] → (0 < pending sh)%Qc.
Proof.
  unfold queued_tasks, pending. generalize (queue1 sh). intros q.
  induction q as [|[t|] q IH]; intros Hpos Hne; [done| |].
  - rewrite fmap_cons. cbn [Qc_sum foldr item_percent].
    change (foldr Qcplus 0%Qc (item_percent <$> q)) with (Qc_sum (item_percent <$> q)).
    apply Qcplus_pos_nonneg; [apply Hpos; left|].
    destruct (decide (omap (λ item, match item with
                                    | Partition t => Some t | NoMoreChunks => None
                                    end) q = [])) as [Hq|Hq].
    + pose proof (pending_no_task {| queue1 := q; packs := []; patterns := [];
                                     partitions := 0; feasible := 0%Qc;
                                     explored := 0%Qc |} Hq) as Hz.
      unfold pending in Hz. simpl in Hz. by rewrite Hz.
    + apply Qclt_le_weak, IH; [|done]. intros t' Ht'. apply Hpos. by right.
  - rewrite fmap_cons. cbn [Qc_sum foldr item_percent omap] in *.
    change (foldr Qcplus 0%Qc (item_percent <$> q)) with (Qc_sum (item_percent <$> q)).
    rewrite Qcplus_0_l. by apply IH.
Qed.

(** The sentinel and the end of the work. *)
Lemma worker1_run_sentinel sh (recorded abandoned : list Qc) :
  interp_wf self →
  worker1_run self sh recorded abandoned →
  (NoMoreChunks ∈ queue1 sh → (Qc_of_Z 100 ≤ explored sh)%Qc)
  ∧ (queued_tasks sh = [] → NoMoreChunks ∈ queue1 sh).
Proof.
  intros Hwf Hrun. pose proof Hwf as (_ & Hcount & _).
  induction Hrun as [|sh sh' recorded abandoned before t rest Hrun [IH1 IH2] Hq Hstep
                     |sh recorded abandoned before rest _ [IH1 IH2] Hq].
  - split; [|done]. intros [Hin|Hin]%elem_of_cons; [done | by apply elem_of_nil in Hin].
  - assert (t ∈ queued_tasks sh) as Hint.
    { unfold queued_tasks. rewrite Hq, omap_app. simpl. apply elem_of_app. right. left. }
    destruct (worker1_run_ok sh recorded abandoned Hwf Hrun t Hint) as (Hpos & _).
    pose proof (run_chunk self _ _ _ _ _ _ _ Hrun Hq Hstep) as Hrun'.
    destruct (worker1_chunk_sentinel t _ sh' (Qclt_le_weak _ _ Hpos) Hstep)
      as [Hmono Hsent]. simpl in *.
    split.
    + intros Hin. destruct (Hsent Hin) as [Hold|Hbig]; [|done].
      eapply Qcle_trans; [|exact Hmono]. apply IH1. rewrite Hq.
      apply elem_of_app in Hold as [?|?]; apply elem_of_app; [by left | right; by right].
    + intros Hnone. apply (worker1_chunk_last t _ sh' Hcount Hstep Hnone).
      pose proof (worker1_run_percents _ _ _ Hcount Hrun') as Hsum.
      rewrite (pending_no_task sh' Hnone), Qcplus_0_r in Hsum. rewrite Hsum.
      apply Qcle_refl.
  - split.
    + intros _. simpl. apply IH1. rewrite Hq. apply elem_of_app. right. left.
    + intros _. unfold put. simpl. apply elem_of_app. right. left.
Qed.

Lemma task_wf_width t j (b : Qc * Qc) :
  task_wf self t → (ranges t).*2 !! j = Some b → (0 < width b)%Qc.
Proof.
  intros (_ & _ & W & HW0 & Hcase) Hj.
  destruct Hcase as [(_ & Hlo & Hhi & _) | (k & _ & _ & _ & _ & Hall & _)].
  - destruct (decide (j < pivot2 t)) as [Hlt|Hge].
    + rewrite (Hlo j b Hlt Hj). by apply Qc_half_pos.
    + rewrite (Hhi j b) by (lia || done). done.
  - by rewrite (Hall j b Hj).
Qed.

Lemma worker1_chunk_packs t sh sh' :
  length (uncontroversial1 self) ≤ pivot1 t →
  worker1_chunk self t sh = Ok sh' → packs sh' = packs sh.
Proof.
  intros Hpast. unfold worker1_chunk.
  destruct (feasibility self (chunk_entry self t) (key t) false)
    as [[[feasible' patterns'] d]|]; simpl; [|done].
  destruct feasible'.
  - intros [= <-]. simpl.
    match goal with |- context [add_explored ?p ?s] =>
      by destruct (add_explored_spec p s) as (_ & _ & _ & _ & -> & _) end.
  - rewrite (proj2 (Nat.ltb_ge _ _)) by done.
    destruct (truthy (uncontroversial2 self) && truthy (splittable t)).
    + destruct (or_raise IndexError _) as [f|]; simpl; [|done].
      destruct (or_raise KeyError _) as [[lower upper]|]; simpl; [|done].
      destruct (decide _).
      * destruct (or_raise ValueError _) as [_splittable|]; simpl; [|done].
        by intros [= <-].
      * by intros [= <-].
    + intros [= <-].
      by destruct (add_explored_spec (percent t) sh) as (_ & _ & _ & _ & -> & _).
Qed.

Lemma worker1_chunk_partitions t sh sh' :
  worker1_chunk self t sh = Ok sh' →
  partitions sh' = partitions sh + length (recorded_by self t).
Proof.
  unfold worker1_chunk, recorded_by.
  destruct (feasibility self (chunk_entry self t) (key t) false)
    as [[[feasible' patterns'] d]|]; simpl; [|done].
  destruct feasible'.
  - intros [= <-]. simpl. unfold add_explored. destruct (decide _); simpl; lia.
  - destruct (pivot1 t <? length (uncontroversial1 self)).
    + destruct (packing self _ _) as [packs'|]; simpl; [|done].
      destruct (mapM _ _) as [tasks|]; simpl; [|done].
      intros [= <-]. simpl. lia.
    + destruct (truthy (uncontroversial2 self) && truthy (splittable t)).
      * destruct (or_raise IndexError _) as [f|]; simpl; [|done].
        destruct (or_raise KeyError _) as [[lower upper]|]; simpl; [|done].
        destruct (decide _).
        -- destruct (or_raise ValueError _) as [_splittable|]; simpl; [|done].
           intros [= <-]. simpl. lia.
        -- intros [= <-]. simpl. lia.
      * intros [= <-]. unfold add_explored. destruct (decide _); simpl; lia.
Qed.





End worker1_extra.

(** ** More facts about [bias_check] *)

Lemma volume_zero (box : list (Qc * Qc)) :
  volume box = 0%Qc ↔ ∃ b, b ∈ box ∧ b.2 = b.1.
Proof.
  induction box as [|b box IH]; simpl.
  - split; [done | intros (b & Hb & _); by apply elem_of_nil in Hb].
  - split.
    + intros [Hz|Hz]%Qcmult_integral.
      * exists b. split; [left|].
        apply (f_equal (λ x, x + b.1)%Qc) in Hz.
        by replace (b.2 - b.1 + b.1)%Qc with b.2 in Hz by ring;
          rewrite Qcplus_0_l in Hz.
      * apply IH in Hz as (b' & Hb' & Heq). exists b'. split; [by right | done].
    + intros (b' & [->|Hb']%elem_of_cons & Heq).
      * rewrite Heq. ring.
      * assert (volume box = 0%Qc) as -> by (apply IH; by exists b'). ring.
Qed.

Lemma dict_set_keys_eq {K V} `{EqDecision K} (k : K) (v : V) (d : list (K * V)) :
  (dict_set k v d).*1 = if decide (k ∈ d.*1) then d.*1 else d.*1 ++ [k].
Proof.
  induction d as [|[k' v'] d IH]; [done|]. cbn [dict_set].
  destruct (decide (k = k')) as [->|Hne].
  - rewrite !fmap_cons. cbn [fst]. by rewrite decide_True by left.
  - rewrite !fmap_cons, IH. cbn [fst].
    destruct (decide (k ∈ d.*1)) as [Hin|Hout].
    + by rewrite decide_True by (by right).
    + rewrite decide_False; [done|]. by intros [?|?]%elem_of_cons.
Qed.

Lemma pymin_spec (a b : Qc) :
  (pymin a b ≤ a)%Qc ∧ (pymin a b ≤ b)%Qc
  ∧ ∀ r, (r ≤ a)%Qc → (r ≤ b)%Qc → (r ≤ pymin a b)%Qc.
Proof.
  unfold pymin. destruct (decide (b < a)%Qc) as [Hlt|Hge].
  - split; [by apply Qclt_le_weak|]. split; [apply Qcle_refl | done].
  - apply Qcnot_lt_le in Hge. split; [apply Qcle_refl|]. split; [done|]. done.
Qed.

Lemma pymax_spec (a b : Qc) :
  (a ≤ pymax a b)%Qc ∧ (b ≤ pymax a b)%Qc
  ∧ ∀ r, (a ≤ r)%Qc → (b ≤ r)%Qc → (pymax a b ≤ r)%Qc.
Proof.
  unfold pymax. destruct (decide (a < b)%Qc) as [Hlt|Hge].
  - split; [by apply Qclt_le_weak|]. split; [apply Qcle_refl | done].
  - apply Qcnot_lt_le in Hge. split; [apply Qcle_refl|]. split; [done|]. done.
Qed.

(** A box inside another one has at most its volume. *)
Lemma volume_inside (inner outer : list (Qc * Qc)) :
  Forall2 (λ b r, (r.1 ≤ b.1)%Qc ∧ (b.1 ≤ b.2)%Qc ∧ (b.2 ≤ r.2)%Qc) inner outer →
  (0 ≤ volume inner)%Qc ∧ (volume inner ≤ volume outer)%Qc.
Proof.
  induction 1 as [|b r inner outer (Hl & Hb & Hu) _ [IH0 IH]]; simpl.
  - split; [done | apply Qcle_refl].
  - assert (0 ≤ b.2 - b.1)%Qc as Hwb.
    { apply (Qcplus_le_mono_r _ _ b.1).
      by replace (b.2 - b.1 + b.1)%Qc with b.2 by ring; rewrite Qcplus_0_l. }
    assert (b.2 - b.1 ≤ r.2 - r.1)%Qc as Hwr.
    { unfold Qcminus. apply Qcplus_le_compat; [done|]. by apply Qcopp_le_compat. }
    split; [by apply Qcmult_nonneg_nonneg|].
    eapply Qcle_trans; [apply Qcmult_le_compat_r; [exact Hwr | exact IH0]|].
    rewrite !(Qcmult_comm (r.2 - r.1)).
    apply Qcmult_le_compat_r; [done|]. by eapply Qcle_trans.
Qed.

Lemma Qc_share_nonneg (p s c : Qc) :
  (0 ≤ p)%Qc → (0 ≤ s)%Qc → (s ≤ c)%Qc → (0 < c)%Qc →
  (0 ≤ p * s / c)%Qc ∧ (p * s / c ≤ p)%Qc.
Proof.
  intros Hp Hs Hsc Hc.
  assert (c ≠ 0%Qc) as Hc0 by (intros ->; by apply Qclt_not_eq in Hc).
  split.
  - apply Qcmult_nonneg_nonneg; [by apply Qcmult_nonneg_nonneg|].
    by apply Qclt_le_weak, Qcinv_pos.
  - apply (Qcmult_le_mono_pos_r _ _ c Hc).
    replace (p * s / c * c)%Qc with (s * p)%Qc by (field; done).
    rewrite (Qcmult_comm p c). by apply Qcmult_le_compat_r.
Qed.

Lemma dict_get_set {K V} `{EqDecision K} (k k' : K) (v : V) (d : list (K * V)) :
  dict_get k (dict_set k' v d) = if decide (k = k') then Some v else dict_get k d.
Proof.
  induction d as [|[k0 v0] d IH]; simpl.
  - by destruct (decide (k = k')).
  - destruct (decide (k' = k0)) as [->|Hne]; simpl.
    + destruct (decide (k = k0)); done.
    + rewrite IH. destruct (decide (k = k0)) as [->|]; [|done].
      by rewrite decide_False by done.
Qed.

Section bias_extra.
Context {Node FState BState : Type} `{Countable Node}.
Context `{!BiasDomain FState BState} `{!PyStr}.
Context (self : BackwardInterpreter Node BState).
Implicit Types (items : list ((VariableIdentifier * VariableIdentifier) * list BState)).
Implicit Types (b : list (VariableIdentifier * (Qc * Qc))).


(** The keys of [b_ranges] after the update for a new representation. *)
Lemma widen_b_ranges_keys (intersection : BState) b :
  NoDup (uncontroversial2 self) →
  b = [] ∨ b.*1 = uncontroversial2 self →
  (fold_left (widen_b_ranges intersection) (uncontroversial2 self) b).*1
  = uncontroversial2 self.
Proof.
  intros Hnd Hb.
  assert (∀ u b0, (widen_b_ranges intersection b0 u).*1
                  = if decide (u ∈ b0.*1) then b0.*1 else b0.*1 ++ [u]) as Hstep.
  { intros u b0. unfold widen_b_ranges.
    destruct (polka_bound_variable intersection u) as [lower upper].
    destruct (dict_get u b0) as [[inf sup]|]; apply dict_set_keys_eq. }
  destruct Hb as [->|Hkeys].
  - enough (∀ l acc, NoDup (acc.*1 ++ l) →
              (fold_left (widen_b_ranges intersection) l acc).*1 = acc.*1 ++ l) as Hgen
      by (by apply (Hgen _ [])).
    induction l as [|u l IH]; intros acc Hnd'; simpl; [by rewrite app_nil_r|].
    rewrite IH; rewrite Hstep.
    + rewrite decide_False; [by rewrite <-app_assoc|].
      apply NoDup_app in Hnd' as (_ & Hdisj & _). intros Hu. apply (Hdisj _ Hu). left.
    + rewrite decide_False; [by rewrite <-app_assoc|].
      apply NoDup_app in Hnd' as (_ & Hdisj & _). intros Hu. apply (Hdisj _ Hu). left.
  - enough (∀ l acc, l ⊆ acc.*1 →
              (fold_left (widen_b_ranges intersection) l acc).*1 = acc.*1) as Hgen
      by (rewrite Hgen; [done | by rewrite Hkeys]).
    induction l as [|u l IH]; intros acc Hsub; simpl; [done|].
    assert ((widen_b_ranges intersection acc u).*1 = acc.*1) as Hsame.
    { rewrite Hstep, decide_True; [done|]. apply Hsub. left. }
    rewrite IH; [done|]. rewrite Hsame. intros x Hx. apply Hsub. by right.
Qed.

(** The scan, pair by pair: [biases] holds the representations of the
    witnesses met so far, and [b_ranges] has a range for every custom
    encoded feature as soon as there is one. *)
Lemma bias_fold_inv ranges0 (pairs : list (BState * BState)) : ∀ st (seen : list (BState * BState)),
  NoDup (uncontroversial2 self) →
  (∀ r, r ∈ biases st ↔
        ∃ p, p ∈ seen ∧ is_bias (polka_repr (intersection_of self ranges0 p.1 p.2)) = true
             ∧ r = polka_repr (intersection_of self ranges0 p.1 p.2)) →
  (b_ranges st = [] ∧ biases st = ∅ ∨ (b_ranges st).*1 = uncontroversial2 self ∧ biases st ≠ ∅) →
  let st' := fold_left (check_states self ranges0) pairs st in
  (∀ r, r ∈ biases st' ↔
        ∃ p, p ∈ seen ++ pairs
             ∧ is_bias (polka_repr (intersection_of self ranges0 p.1 p.2)) = true
             ∧ r = polka_repr (intersection_of self ranges0 p.1 p.2))
  ∧ (b_ranges st' = [] ∧ biases st' = ∅
     ∨ (b_ranges st').*1 = uncontroversial2 self ∧ biases st' ≠ ∅).
Proof.
  induction pairs as [|[val1 val2] pairs IH]; intros st seen Hnd Hb Hk; simpl.
  - by rewrite app_nil_r.
  - replace (seen ++ (val1, val2) :: pairs) with ((seen ++ [(val1, val2)]) ++ pairs)
      by (by rewrite <-app_assoc).
    apply IH; [done| |].
    + intros r. unfold check_states. simpl.
      destruct (is_bias (polka_repr (intersection_of self ranges0 val1 val2))) eqn:Hbias.
      * destruct (decide _) as [Hin|Hout]; simpl.
        -- rewrite Hb. split.
           ++ intros (p & Hp & Hpb & ->). exists p. split; [|done]. apply elem_of_app. by left.
           ++ intros (p & [Hp| ->%list_elem_of_singleton]%elem_of_app & Hpb & ->).
              ** by exists p.
              ** by apply Hb in Hin.
        -- rewrite elem_of_union, elem_of_singleton, Hb. split.
           ++ intros [(p & Hp & Hpb & ->)| ->].
              ** exists p. split; [|done]. apply elem_of_app. by left.
              ** exists (val1, val2). split; [|done]. apply elem_of_app. right. left.
           ++ intros (p & [Hp| ->%list_elem_of_singleton]%elem_of_app & Hpb & ->).
              ** left. by exists p.
              ** by right.
      * rewrite Hb. split.
        -- intros (p & Hp & Hpb & ->). exists p. split; [|done]. apply elem_of_app. by left.
        -- intros (p & [Hp| ->%list_elem_of_singleton]%elem_of_app & Hpb & ->).
           ++ by exists p.
           ++ simpl in Hpb. congruence.
    + unfold check_states. simpl.
      destruct (is_bias (polka_repr (intersection_of self ranges0 val1 val2))) eqn:Hbias;
        [|done].
      destruct (decide _) as [Hin|Hout]; simpl.
      * destruct Hk as [[_ He]|Hk]; [|by right].
        rewrite He in Hin. by apply elem_of_empty in Hin.
      * right. split.
        -- apply widen_b_ranges_keys; [done|]. destruct Hk as [[-> _]|[Hk _]]; [by left | by right].
        -- clear. set_solver.
Qed.

(** Once a witness was met, [b_ranges] has a range for each custom encoded
    feature, in the order of [self.uncontroversial2]. *)
Lemma bias_scan_keys items (ranges0 : list (VariableIdentifier * (Qc * Qc))) :
  NoDup (uncontroversial2 self) →
  nobias (bias_scan self ranges0 items) = false →
  (b_ranges (bias_scan self ranges0 items)).*1 = uncontroversial2 self.
Proof.
  intros Hnd Hn. rewrite bias_scan_pairs in *.
  destruct (bias_fold_inv ranges0 (examined_pairs items)
              {| nobias := true; biases := ∅; b_ranges := [] |} [] Hnd)
    as [Hb Hk].
  { intros r. simpl. split; [by intros ?%elem_of_empty|].
    intros (p & Hp & _). by apply elem_of_nil in Hp. }
  { by left. }
  simpl in Hb, Hk. destruct Hk as [[_ He]|[? _]]; [|done]. exfalso.
  apply nobias_fold in Hn as [Hn|(v1 & v2 & Hin & Hv)]; [done|].
  assert (polka_repr (intersection_of self ranges0 v1 v2) ∈ (∅ : gset _)) as Hr;
    [|by apply elem_of_empty in Hr].
  rewrite <-He. apply Hb. by exists (v1, v2).
Qed.


(** The bounds of the custom encoded features given by the witnesses stay
    inside the ranges of the chunk: so does every range of [b_ranges]. *)
Lemma bias_fold_inside ranges0 (box : list (Qc * Qc)) (pairs : list (BState * BState)) :
  NoDup (uncontroversial2 self) →
  (∀ p, p ∈ pairs →
     is_bias (polka_repr (intersection_of self ranges0 p.1 p.2)) = true →
     ∀ i u r, uncontroversial2 self !! i = Some u → box !! i = Some r →
       let bv := polka_bound_variable (intersection_of self ranges0 p.1 p.2) u in
       (r.1 ≤ bv.1)%Qc ∧ (bv.1 ≤ bv.2)%Qc ∧ (bv.2 ≤ r.2)%Qc) →
  ∀ st,
    (∀ i u r bv, uncontroversial2 self !! i = Some u → box !! i = Some r →
       dict_get u (b_ranges st) = Some bv →
       (r.1 ≤ bv.1)%Qc ∧ (bv.1 ≤ bv.2)%Qc ∧ (bv.2 ≤ r.2)%Qc) →
    ∀ i u r bv, uncontroversial2 self !! i = Some u → box !! i = Some r →
      dict_get u (b_ranges (fold_left (check_states self ranges0) pairs st)) = Some bv →
      (r.1 ≤ bv.1)%Qc ∧ (bv.1 ≤ bv.2)%Qc ∧ (bv.2 ≤ r.2)%Qc.
Proof.
  intros Hnd. induction pairs as [|[val1 val2] pairs IH]; intros Hdom st Hst; [done|].
  simpl. apply IH; [intros p Hp; apply Hdom; by right|].
  unfold check_states. simpl.
  destruct (is_bias (polka_repr (intersection_of self ranges0 val1 val2))) eqn:Hbias;
    [|done].
  destruct (decide _); simpl; [done|].
  specialize (Hdom (val1, val2) ltac:(left) Hbias). simpl in Hdom.
  set (inter := intersection_of self ranges0 val1 val2) in *.
  enough (∀ l b0, l ⊆ uncontroversial2 self →
            (∀ i u r bv, uncontroversial2 self !! i = Some u → box !! i = Some r →
               dict_get u b0 = Some bv →
               (r.1 ≤ bv.1)%Qc ∧ (bv.1 ≤ bv.2)%Qc ∧ (bv.2 ≤ r.2)%Qc) →
            ∀ i u r bv, uncontroversial2 self !! i = Some u → box !! i = Some r →
              dict_get u (fold_left (widen_b_ranges inter) l b0) = Some bv →
              (r.1 ≤ bv.1)%Qc ∧ (bv.1 ≤ bv.2)%Qc ∧ (bv.2 ≤ r.2)%Qc) as Hgen
    by (by apply Hgen).
  clear Hst. induction l as [|u' l IHl]; intros b0 Hsub Hb0; [done|]. simpl.
  apply IHl; [intros x Hx; apply Hsub; by right|].
  intros i u r bv Hi Hr. unfold widen_b_ranges.
  destruct (polka_bound_variable inter u') as [lower upper] eqn:Hbv.
  assert (u' ∈ uncontroversial2 self) as Hu' by (apply Hsub; left).
  apply list_elem_of_lookup in Hu' as [j Hj].
  destruct (dict_get u' b0) as [[inf sup]|] eqn:Hget; rewrite dict_get_set;
    (destruct (decide (u = u')) as [->|Hne]; [|exact (Hb0 i u r bv Hi Hr)]).
  - intros [= <-]. simpl.
    assert (i = j) as -> by (by eapply NoDup_lookup).
    destruct (Hb0 j u' r (inf, sup) Hj Hr Hget) as (H1 & H2 & H3). simpl in *.
    destruct (Hdom j u' r Hj Hr) as (D1 & D2 & D3). rewrite Hbv in D1, D2, D3. simpl in *.
    destruct (pymin_spec lower inf) as (M1 & M2 & M3).
    destruct (pymax_spec upper sup) as (X1 & X2 & X3).
    split; [by apply M3|]. split; [|by apply X3].
    eapply Qcle_trans; [exact M1|]. eapply Qcle_trans; [exact D2 | exact X1].
  - intros [= <-].
    assert (i = j) as -> by (by eapply NoDup_lookup).
    specialize (Hdom j u' r Hj Hr). by rewrite Hbv in Hdom.
Qed.

End bias_extra.

(** ** More facts about [from_node] *)

Section from_node_extra.
Context {Node FState BState : Type} `{Countable Node}.
Context `{!BiasDomain FState BState}.
Context (cfg : ControlFlowGraph Node) (active inactive : gset Node).

Lemma yield_from_then_items (s1 s2 : Stream (option BState)) :
  length (yield_from_then s1 s2).1 ≤ length s1.1 + length s2.1
  ∧ ((yield_from_then s1 s2).2 = StopIteration →
     s1.2 = StopIteration ∧ s2.2 = StopIteration
     ∧ length (yield_from_then s1 s2).1 = length s1.1 + length s2.1)
  ∧ ∀ e, (yield_from_then s1 s2).2 = Raised e → s1.2 = Raised e ∨ s2.2 = Raised e.
Proof.
  unfold yield_from_then.
  destruct s1 as [l1 []], s2 as [l2 e2]; simpl; rewrite ?length_app;
    repeat split; try done; try lia; intros; by (left + right).
Qed.



End from_node_extra.

(** ** More facts about the startup of [analyze] *)

Lemma comparisons_bounds (l : list VariableIdentifier) (b : Expression) :
  comparisons (fold_left (λ b v,
                 BinaryBooleanOperation b And (between (Literal "0") v (Literal "1")))
                 l b)
  = comparisons b ++ (l ≫= unit_bounds).
Proof.
  revert b. induction l as [|v l IH]; intros b; [by rewrite app_nil_r|].
  cbn [fold_left]. rewrite IH. cbn [comparisons between app].
  rewrite bind_cons, <-app_assoc. done.
Qed.

Lemma read_variables_app (variables rest : list string) :
  read_variables (length variables) (variables ++ rest) = (strip <$> variables, rest).
Proof.
  induction variables as [|v variables IH]; [done|].
  simpl. by rewrite IH.
Qed.

Lemma read_uncontroversial1_groups (headers : list string) (groups : list (list string))
    (rest : list string) :
  Forall2 (λ h g, int (strip h) = Some (Z.of_nat (length g))) headers groups →
  int (strip (readline rest).1) = None →
  ∀ fuel acc,
    length (concat (zip_with cons headers groups) ++ rest) < fuel →
    read_uncontroversial1 fuel (concat (zip_with cons headers groups) ++ rest) acc
    = acc ++ (fmap (M:=list) (fmap (M:=list) strip) groups).
Proof.
  intros Hgroups Hrest.
  induction Hgroups as [|h g headers groups Hh _ IH]; intros fuel acc Hfuel.
  - simpl in *. rewrite app_nil_r. destruct fuel as [|fuel]; [lia|]. simpl.
    destruct (readline rest) as [line rest'] eqn:Hline. simpl in Hrest.
    by rewrite Hrest.
  - destruct fuel as [|fuel]; [simpl in Hfuel; lia|].
    cbn [zip_with concat]. rewrite <-!app_assoc. cbn [app read_uncontroversial1 readline].
    rewrite Hh, Nat2Z.id, read_variables_app.
    rewrite IH.
    + by rewrite <-app_assoc.
    + simpl in Hfuel. rewrite !length_app in *. simpl in Hfuel. lia.
Qed.


Section analyze_extra.
Context {Node BState : Type} `{Countable Node}.



End analyze_extra.

(** ** Facts about [prioritized] and the condition of [worker2] *)

Section sorted_extra.
Context {A : Type} (key : A → nat).

Lemma sorted_insert_filter (reverse : bool) (n : nat) (x : A) (l : list A) :
  filter (λ y, key y = n) (sorted_insert key reverse x l)
  = filter (λ y, key y = n) (x :: l).
Proof.
  induction l as [|y l IH]; [done|]. simpl.
  destruct (goes_before key reverse x y) eqn:Hgo; [done|].
  rewrite filter_cons, IH, !filter_cons.
  destruct (decide (key y = n)) as [Hy|Hy], (decide (key x = n)) as [Hx|Hx]; try done.
  exfalso. unfold goes_before in Hgo.
  destruct reverse; apply Nat.leb_gt in Hgo; lia.
Qed.

Lemma sorted_filter (reverse : bool) (n : nat) (l : list A) :
  filter (λ y, key y = n) (sorted key reverse l) = filter (λ y, key y = n) l.
Proof.
  induction l as [|x l IH]; [done|].
  unfold sorted in *. simpl. rewrite sorted_insert_filter, !filter_cons, IH. done.
Qed.

Lemma sorted_insert_ordered (reverse : bool) (x : A) (l : list A) :
  (∀ i j a b, i ≤ j → l !! i = Some a → l !! j = Some b →
     goes_before key reverse a b = true) →
  ∀ i j a b, i ≤ j →
    sorted_insert key reverse x l !! i = Some a →
    sorted_insert key reverse x l !! j = Some b →
    goes_before key reverse a b = true.
Proof.
  assert (∀ a, goes_before key reverse a a = true) as Hrefl.
  { intros a. unfold goes_before. destruct reverse; by apply Nat.leb_le. }
  assert (∀ a b c, goes_before key reverse a b = true → goes_before key reverse b c = true →
                   goes_before key reverse a c = true) as Htrans.
  { intros a b c. unfold goes_before.
    destruct reverse; rewrite !Nat.leb_le; lia. }
  assert (∀ a b, goes_before key reverse a b = false → goes_before key reverse b a = true)
    as Htotal.
  { intros a b. unfold goes_before.
    destruct reverse; rewrite Nat.leb_le, Nat.leb_gt; lia. }
  induction l as [|y l IH]; intros Hl i j a b Hij Hi Hj.
  - destruct i, j; simpl in *; try done. by simplify_eq.
  - simpl in Hi, Hj. destruct (goes_before key reverse x y) eqn:Hgo.
    + destruct i as [|i].
      * simpl in Hi. injection Hi as <-.
        destruct j as [|j]; simpl in Hj; [by simplify_eq|].
        apply (Htrans _ y); [done|].
        apply (Hl 0 j); [lia | done | done].
      * destruct j as [|j]; [lia|]. simpl in Hi, Hj.
        apply (Hl i j); [lia | done | done].
    + assert (∀ k c, sorted_insert key reverse x l !! k = Some c →
                     goes_before key reverse y c = true) as Hy.
      { intros k c Hc.
        assert (c ∈ x :: l) as [->|Hin]%elem_of_cons.
        { rewrite <-(sorted_insert_perm key reverse x l). by eapply list_elem_of_lookup_2. }
        - by apply Htotal.
        - apply list_elem_of_lookup in Hin as [m Hm].
          apply (Hl 0 (S m)); [lia | done | done]. }
      destruct i as [|i].
      * simpl in Hi. injection Hi as <-.
        destruct j as [|j]; simpl in Hj; [by simplify_eq|]. by eapply Hy.
      * destruct j as [|j]; [lia|]. simpl in Hi, Hj.
        apply (IH (λ i j a b Hij Ha Hb, Hl (S i) (S j) a b ltac:(lia) Ha Hb) i j);
          [lia | done | done].
Qed.

Lemma sorted_ordered (reverse : bool) (l : list A) :
  ∀ i j a b, i ≤ j →
    sorted key reverse l !! i = Some a → sorted key reverse l !! j = Some b →
    goes_before key reverse a b = true.
Proof.
  induction l as [|x l IH]; [by intros [] [] |].
  unfold sorted in *. simpl. by apply sorted_insert_ordered.
Qed.
End sorted_extra.

Section prioritized_extra.
Context {Node Chunk : Type} `{Countable Node} `{Countable Chunk}.

End prioritized_extra.


(** ** The properties on the small network *)

Import Toy.

Lemma toy_acyclic : acyclic Toy.toy_cfg.
Proof.
  apply (acyclic_ranked _ id). intros node predecessor (p & Hp & Hnode).
  destruct node as [|[|[|node]]]; simpl in Hp.
  - by apply elem_of_nil in Hp.
  - apply list_elem_of_singleton in Hp as ->. vm_compute in Hnode.
    injection Hnode as <-. unfold id. lia.
  - apply list_elem_of_singleton in Hp as ->. vm_compute in Hnode.
    injection Hnode as <-. unfold id. lia.
  - by apply elem_of_nil in Hp.
Qed.

Lemma toy_startup :
  analyze_startup (Node:=nat) 0 1%Qc ["1"; "s"] Toy.STop {["s"; "x"]} ∅ {[1]}
  = Ok (Toy.interp_x, initial_shared Toy.interp_x).
Proof. vm_compute. reflexivity. Qed.

Lemma toy_startup_empty_group :
  analyze_startup (Node:=nat) 0 1%Qc ["1"; "s"; "0"] Toy.STop {["s"]} ∅ {[1]}
  = Ok (Toy.interp_empty_group, initial_shared Toy.interp_empty_group).
Proof. vm_compute. reflexivity. Qed.

(** C1 on the small network: the pair of the two non-negative states is a
    witness and the chunk adds its 50 percent. *)
Lemma bias_check_spec_witness :
  bias_witness (FState:=nat) Toy.interp_x [("x", (0, 1)%Qc)] Toy.check_items
  ∧ bias_check (FState:=nat) Toy.interp_x "chunk" Toy.check_items
      [("x", (0, 1)%Qc)] (Qc_of_Z 50) 0%Qc
    = Ok (0 + Qc_of_Z 50 * volume [(0, 1)%Qc] / volume [(0, 1)%Qc])%Qc.
Proof.
  assert (bias_witness (FState:=nat) Toy.interp_x [("x", (0, 1)%Qc)] Toy.check_items)
    as Hw.
  { exists Toy.SNonNeg, Toy.SNonNeg. split; [|reflexivity].
    exists 0, 1, "y0", "s0", [Toy.SNonNeg], "y1", "s1", [Toy.SNonNeg; Toy.SNeg].
    repeat split; try done; try lia; left. }
  split; [exact Hw|].
  destruct (bias_check_spec (FState:=nat) Toy.interp_x "chunk" Toy.check_items
              [("x", (0, 1)%Qc)] (Qc_of_Z 50) 0%Qc) as (_ & _ & _ & Hadd).
  rewrite (Hadd Hw). reflexivity.
Defined.

(** C2 on the small network, with a key that forces the activation node. *)
Lemma feasibility_spec_witness :
  key_fits Toy.interp_x (Some Toy.forcing_key)
  ∧ ∃ f ps d,
      feasibility (FState:=nat) Toy.interp_x 0 (Some Toy.forcing_key) false = Ok (f, ps, d)
      ∧ (f = true ↔
           ∀ idx value, values Toy.interp_x !! idx = Some value →
             (d_at (FState:=nat) Toy.interp_x 0%nat (Some Toy.forcing_key) idx value
              ≤ widening Toy.interp_x)%Z).
Proof.
  assert (key_fits Toy.interp_x (Some Toy.forcing_key)) as Hfit
    by (intros k [= <-]; right; reflexivity).
  split; [exact Hfit|].
  destruct (feasibility_spec (FState:=nat) Toy.interp_x 0 (Some Toy.forcing_key) false Hfit)
    as (f & ps & d & Hrun & Hf & _).
  exists f, ps, d. split; [exact Hrun | exact Hf].
Defined.

(** C3 as stated fails: the ReLU node [1] is in the active set and the
    state says [h < 0]; the meet with [h >= 0] is bottom, [from_node] yields
    a single [None], and the traversal from the predecessor with that state
    would have yielded the bottom state. *)
Lemma from_node_activation_bottom :
  kind Toy.toy_cfg 1 = Activation "h"
  ∧ 1 ∈ ({[1]} : gset nat)
  ∧ pop_predecessor Toy.toy_cfg 1 = Ok 0
  ∧ from_node (FState:=nat) Toy.toy_cfg {[1]} ∅ 2 1 Toy.SNeg false
    ≠ from_node (FState:=nat) Toy.toy_cfg {[1]} ∅ 1 0
        (polka_meet_tcons (FState:=nat) Toy.SNeg (PyTexpr1_var "h", AP_CONS_SUPEQ)) false.
Proof.
  split; [reflexivity|]. split; [by apply elem_of_singleton|]. split; [reflexivity|].
  vm_compute. discriminate.
Qed.

(** C3 (amended) on the small network. *)
Lemma from_node_activation_witness :
  kind Toy.toy_cfg 1 = Activation "h"
  ∧ pop_predecessor Toy.toy_cfg 1 = Ok 0
  ∧ from_node (FState:=nat) Toy.toy_cfg {[1]} ∅ 2 1 Toy.SNeg false = ([None], StopIteration)
  ∧ from_node (FState:=nat) Toy.toy_cfg ∅ ∅ 2 1 Toy.STop false
    = ([Some Toy.SNonNeg; Some Toy.SNeg], StopIteration).
Proof.
  assert (kind Toy.toy_cfg 1 = Activation "h") as Hkind by reflexivity.
  assert (pop_predecessor Toy.toy_cfg 1 = Ok 0) as Hpop by reflexivity.
  split; [exact Hkind|]. split; [exact Hpop|]. split.
  - destruct (from_node_activation (FState:=nat) Toy.toy_cfg {[1]} ∅ 1 1 0 "h" Toy.SNeg
                Hkind Hpop) as (Hact & _ & _).
    rewrite Hact by (by apply elem_of_singleton). reflexivity.
  - destruct (from_node_activation (FState:=nat) Toy.toy_cfg ∅ ∅ 1 1 0 "h" Toy.STop
                Hkind Hpop) as (_ & _ & Hdisj).
    rewrite Hdisj by apply not_elem_of_empty. reflexivity.
Defined.

(** C4 on the small network: from the affine node [2], with the ReLU node
    disjunctive, two states are yielded. *)
Lemma from_node_terminates_witness :
  acyclic Toy.toy_cfg
  ∧ (from_node (FState:=nat) Toy.toy_cfg ∅ ∅ 5 2 Toy.STop false).2 ≠ OutOfFuel
  ∧ length (yielded_states (from_node (FState:=nat) Toy.toy_cfg ∅ ∅ 5 2 Toy.STop false))
    ≤ 2 ^ disjunctive_count Toy.toy_cfg ∅ ∅ (traversed_path Toy.toy_cfg 5 2).
Proof.
  split; [exact toy_acyclic|].
  destruct (from_node_terminates (FState:=nat) Toy.toy_cfg ∅ ∅ 2 Toy.STop toy_acyclic)
    as (Hend & _ & _ & Hbound).
  split; [exact Hend | exact Hbound].
Defined.

(** C5. The percents are lost when a one-hot encoded feature is declared
    without variable (the specification with the lines [1], [s] and [0]):
    [count] is 0, the first chunk is not feasible, the 1-hot split finds
    no combination, [packing] passes its assertion with no pack, and the
    iteration posts nothing and adds nothing to [explored], where the
    other branches post the percent again or add it to [explored].  The
    queue is left empty, without the sentinel: nothing was recorded and
    nothing abandoned, [explored] is 0 and not 100, and no worker gets an
    item any more. *)
Lemma percent_lost_empty_group :
  analyze_startup (Node:=nat) 0 1%Qc ["1"; "s"; "0"] Toy.STop {["s"]} ∅ {[1]}
  = Ok (Toy.interp_empty_group, initial_shared Toy.interp_empty_group)
  ∧ worker1_run (FState:=nat) Toy.interp_empty_group Toy.drained [] []
  ∧ queue1 Toy.drained = []
  ∧ explored Toy.drained = 0%Qc
  ∧ (∀ sh', ¬ worker1_step (FState:=nat) Toy.interp_empty_group Toy.drained sh')
  ∧ (Qc_sum [] + Qc_sum [])%Qc ≠ Qc_of_Z 100.
Proof.
  split; [exact toy_startup_empty_group|].
  split; [|split; [reflexivity|split; [reflexivity|split]]].
  - exact (run_chunk (FState:=nat) Toy.interp_empty_group
             (initial_shared Toy.interp_empty_group) Toy.drained [] [] []
             (initial_task Toy.interp_empty_group (initial_ranges Toy.interp_empty_group))
             [] (run_start _) eq_refl eq_refl).
  - intros sh' Hstep. inversion Hstep as [before item rest ? ? Hq _]. simpl in Hq.
    by destruct before.
  - intros Heq. apply (f_equal this) in Heq. vm_compute in Heq. discriminate.
Qed.

Lemma toy_startup_onehot :
  analyze_startup (Node:=nat) 0 1%Qc ["1"; "s"; "2"; "a"; "b"] Toy.STop
    {["s"; "a"; "b"; "x"]} ∅ {[1]}
  = Ok (Toy.interp_onehot, initial_shared Toy.interp_onehot).
Proof. vm_compute. reflexivity. Qed.

(** On a machine with one CPU [packing] starts no consumer: for the
    specification with the lines [1], [s], [2], [a] and [b] ([count] is
    2) no combination is packed, the assertion of [packing] fails and
    the iteration on the first chunk raises [AssertionError]. *)
Lemma assertion_one_cpu :
  analyze_startup (Node:=nat) 0 1%Qc ["1"; "s"; "2"; "a"; "b"] Toy.STop
    {["s"; "a"; "b"; "x"]} ∅ {[1]}
  = Ok (Toy.interp_onehot, initial_shared Toy.interp_onehot)
  ∧ worker1_chunk (FState:=nat) (machine:=Toy.one_cpu) Toy.interp_onehot
      (initial_task Toy.interp_onehot (initial_ranges Toy.interp_onehot))
      {| queue1 := []; packs := []; patterns := []; partitions := 0;
         feasible := 0%Qc; explored := 0%Qc |}
    = Raise AssertionError.
Proof. split; [exact toy_startup_onehot | reflexivity]. Qed.

Lemma toy_run_abandoned :
  worker1_run (FState:=nat) Toy.interp_x Toy.abandoned_all [] [Qc_of_Z 100].
Proof.
  assert (worker1_run (FState:=nat) Toy.interp_x Toy.reposted [] []) as Hrun1.
  { exact (run_chunk (FState:=nat) Toy.interp_x (initial_shared Toy.interp_x)
             Toy.reposted [] [] []
             (initial_task Toy.interp_x (initial_ranges Toy.interp_x))
             [] (run_start _) eq_refl eq_refl). }
  exact (run_chunk (FState:=nat) Toy.interp_x Toy.reposted Toy.abandoned_all [] [] []
           Toy.narrow_task [] Hrun1 eq_refl eq_refl).
Qed.


(** C6 on a dictionary of three patterns: the largest key is merged into
    the key that subsumes it. *)
Lemma compression_monotone_witness :
  NoDup Toy.toy_patterns.*1
  ∧ Forall (λ k : Pattern nat, length k = 1) Toy.toy_patterns.*1
  ∧ length (compress Toy.toy_patterns) ≤ length Toy.toy_patterns
  ∧ NoDup (compress Toy.toy_patterns).*1
  ∧ ∀ k1 pack1, (k1, pack1) ∈ Toy.toy_patterns →
      ∃ k2 pack2, (k2, pack2) ∈ compress Toy.toy_patterns
                  ∧ subsumes k2 k1 ∧ pack1 ⊆ pack2.
Proof.
  assert (NoDup Toy.toy_patterns.*1) as Hnd
    by (apply (bool_decide_unpack (NoDup _)); vm_compute; exact I).
  assert (Forall (λ k : Pattern nat, length k = 1) Toy.toy_patterns.*1) as Hlen
    by (repeat constructor).
  split; [exact Hnd|]. split; [exact Hlen|].
  exact (compression_monotone 1 Toy.toy_patterns Hnd Hlen).
Defined.

(** C9 on the same dictionary. *)
Lemma compression_keeps_chunks_witness :
  NoDup Toy.toy_patterns.*1
  ∧ all_chunks (compress Toy.toy_patterns) = all_chunks Toy.toy_patterns.
Proof.
  assert (NoDup Toy.toy_patterns.*1) as Hnd
    by (apply (bool_decide_unpack (NoDup _)); vm_compute; exact I).
  split; [exact Hnd|]. exact (compression_keeps_chunks Toy.toy_patterns Hnd).
Defined.

(** C7 on the small network: the feature [x] of the first chunk has width
    1, which is not wider than the difference 1. *)
Lemma exhausted_feature_repost_witness :
  NoDup (uncontroversial2 Toy.interp_x)
  ∧ worker1_run (FState:=nat) Toy.interp_x (initial_shared Toy.interp_x) [] []
  ∧ (1 - 0 ≤ difference Toy.interp_x)%Qc
  ∧ ∃ _splittable,
      (splittable (initial_task Toy.interp_x (initial_ranges Toy.interp_x))
       = "x" :: _splittable)
      ∧ list_remove_first "x"
          (splittable (initial_task Toy.interp_x (initial_ranges Toy.interp_x)))
        = Some _splittable
      ∧ length _splittable
        < length (splittable (initial_task Toy.interp_x (initial_ranges Toy.interp_x)))
      ∧ ∀ sh0,
          worker1_chunk (FState:=nat) Toy.interp_x
            (initial_task Toy.interp_x (initial_ranges Toy.interp_x)) sh0
          = Ok (put (Partition
                       {| assumptions := []; pivot1 := 0; unpacked := ∅;
                          ranges := [("x", (0, 1)%Qc)];
                          pivot2 := (0 + 1) mod 1;
                          splittable := _splittable; percent := Qc_of_Z 100;
                          key := None |})
                  sh0).
Proof.
  assert (NoDup (uncontroversial2 Toy.interp_x)) as Hnd
    by (apply NoDup_singleton).
  assert ((1 - 0 ≤ difference Toy.interp_x)%Qc) as Hnarrow
    by (apply (bool_decide_unpack _); vm_compute; exact I).
  split; [exact Hnd|]. split; [apply run_start|]. split; [exact Hnarrow|].
  apply (exhausted_feature_repost (FState:=nat) Toy.interp_x (initial_shared Toy.interp_x)
           [] [] (initial_task Toy.interp_x (initial_ranges Toy.interp_x)) [] 1%Z
           "x" 0%Qc 1%Qc Hnd (run_start _)).
  - left.
  - reflexivity.
  - simpl. lia.
  - discriminate.
  - reflexivity.
  - reflexivity.
  - exact Hnarrow.
Defined.

(** C8 as stated fails: the specification names [s], the only input is
    [x], and the startup of [analyze] succeeds. *)
Lemma analyze_unknown_variable :
  specification_variables ["1"; "s"] = Ok ["s"]
  ∧ ("s" ∉ ({["x"]} : gset VariableIdentifier))
  ∧ is_Ok (analyze_startup (Node:=nat) 0 1%Qc ["1"; "s"] Toy.STop {["x"]} ∅ {[1]}) = true.
Proof.
  split; [reflexivity|]. split; [|reflexivity].
  intros Hin. apply elem_of_singleton in Hin. discriminate.
Qed.

(** C8 (amended) on the specification of the small network. *)
Lemma analyze_startup_unchecked_witness :
  analyze_startup (Node:=nat) 0 1%Qc ["1"; "s"] Toy.STop {["s"; "x"]} ∅ {[1]}
  = Ok (Toy.interp_x, initial_shared Toy.interp_x)
  ∧ specification_variables ["1"; "s"]
    = Ok (sensitive Toy.interp_x ++ concat (uncontroversial1 Toy.interp_x))
  ∧ NoDup (uncontroversial2 Toy.interp_x).
Proof.
  split; [exact toy_startup|].
  destruct (analyze_startup_unchecked (Node:=nat) 0 1%Qc ["1"; "s"] Toy.STop
              {["s"; "x"]} ∅ {[1]}) as (_ & _ & Hok).
  destruct (Hok _ _ toy_startup) as (_ & Hvars & Hnd & _).
  split; [exact Hvars | exact Hnd].
Defined.

(** C10 on the small network without custom encoded feature. *)
Lemma bias_check_no_ranges_witness :
  uncontroversial2 Toy.interp_empty_group = []
  ∧ bias_witness (FState:=nat) Toy.interp_empty_group [] Toy.check_items
  ∧ bias_check (FState:=nat) Toy.interp_empty_group "chunk" Toy.check_items []
      (Qc_of_Z 50) 0%Qc
    = Ok (0 + Qc_of_Z 50)%Qc.
Proof.
  assert (bias_witness (FState:=nat) Toy.interp_empty_group [] Toy.check_items) as Hw.
  { exists Toy.SNonNeg, Toy.SNonNeg. split; [|reflexivity].
    exists 0, 1, "y0", "s0", [Toy.SNonNeg], "y1", "s1", [Toy.SNonNeg; Toy.SNeg].
    repeat split; try done; try lia; left. }
  split; [reflexivity|]. split; [exact Hw|].
  apply (bias_check_no_ranges (FState:=nat) Toy.interp_empty_group "chunk"
           Toy.check_items (Qc_of_Z 50) 0%Qc eq_refl Hw).
Defined.

(** ** More properties on the small network *)

Lemma toy_startup_two :
  analyze_startup (Node:=nat) 0 1%Qc ["2"; "s"; "t"] Toy.STop {["s"; "t"; "x"]} ∅ {[1]}
  = Ok (Toy.interp_two, initial_shared Toy.interp_two).
Proof. vm_compute. reflexivity. Qed.

Lemma toy_startup_half :
  analyze_startup (Node:=nat) 0 (1 / 2)%Qc ["1"; "s"] Toy.STop {["s"; "x"]} ∅ {[1]}
  = Ok (Toy.interp_half, initial_shared Toy.interp_half).
Proof. vm_compute. reflexivity. Qed.

Lemma toy_startup_wide :
  analyze_startup (Node:=nat) 1 1%Qc ["1"; "s"] Toy.STop {["s"; "x"]} ∅ {[1]}
  = Ok (Toy.interp_wide, initial_shared Toy.interp_wide).
Proof. vm_compute. reflexivity. Qed.

Lemma toy_wf : interp_wf Toy.interp_x.
Proof. split; [reflexivity|]. split; [simpl; lia | apply NoDup_singleton]. Qed.

Lemma toy_run_reposted : worker1_run (FState:=nat) Toy.interp_x Toy.reposted [] [].
Proof.
  exact (run_chunk (FState:=nat) Toy.interp_x (initial_shared Toy.interp_x)
           Toy.reposted [] [] []
           (initial_task Toy.interp_x (initial_ranges Toy.interp_x))
           [] (run_start _) eq_refl eq_refl).
Qed.

Lemma toy_chunk_recorded :
  worker1_chunk (FState:=nat) Toy.interp_wide
    (initial_task Toy.interp_wide (initial_ranges Toy.interp_wide))
    {| queue1 := []; packs := []; patterns := []; partitions := 0;
       feasible := 0%Qc; explored := 0%Qc |}
  = Ok Toy.recorded_all.
Proof.
  unfold worker1_chunk.
  assert (feasibility (FState:=nat) Toy.interp_wide
            (chunk_entry (FState:=nat) Toy.interp_wide
               (initial_task Toy.interp_wide (initial_ranges Toy.interp_wide)))
            (key (initial_task Toy.interp_wide (initial_ranges Toy.interp_wide))) false
          = Ok (true, [(("s", one_hot_value ["s"] 0 "s"), ∅, ∅)], 1%Z)) as ->
    by reflexivity.
  cbn [mbind result_bind].
  unfold add_explored.
  rewrite decide_True by (apply (bool_decide_unpack _); vm_compute; exact I).
  unfold Toy.recorded_all, put.
  cbn [queue1 packs patterns partitions feasible explored percent initial_task fmap list_fmap
       dict_get default dict_set fst snd app].
  rewrite (left_id_L ∅ (∪)). reflexivity.
Qed.

Lemma toy_run_recorded :
  worker1_run (FState:=nat) Toy.interp_wide Toy.recorded_all [Qc_of_Z 100] [].
Proof.
  exact (run_chunk (FState:=nat) Toy.interp_wide (initial_shared Toy.interp_wide)
           Toy.recorded_all [] [] []
           (initial_task Toy.interp_wide (initial_ranges Toy.interp_wide))
           [] (run_start _) eq_refl toy_chunk_recorded).
Qed.














